(** * cpptoml: the document tree and the line-oriented parser of
    [include/cpptoml.h], as a shallow embedding.

    Nodes live in a store addressed by pointers, as the [shared_ptr<base>]
    and [table*] values of the source do; the parser is a state-and-exception
    computation over that store and over its own members [input_], [line_],
    [line_number_] and [tables_]. *)

From stdpp Require Import gmap strings list fin_maps.
From Stdlib Require Import Ascii ZArith.

Local Open Scope nat_scope.

(** ** Outcomes of a call *)

(** The exceptions that leave the functions of the header.
    [parse_exception] has two constructors in the source: the one-argument one
    keeps the text as it is, the two-argument one records a line number (and
    appends it to the text, see [what]). [out_of_range] and
    [invalid_argument] are the standard-library exceptions of
    [unordered_map::at], [std::stoll], [std::stod] and [std::stoi]. *)
Inductive exception :=
| parse_exception (err : string) (line_number : option nat)
| out_of_range (what_arg : string)
| invalid_argument (what_arg : string).

(** A call returns, throws, or has no meaning in the language: behaviour it
    leaves undefined (an iterator moved outside its string, [back()] of an
    empty vector, a pointer of the wrong dynamic type), or an expression that
    names no member of its class. [Exhausted] is the recursion
    budget of the embedding running out; it has no counterpart in the
    source, and [parse_stream_budget] shows that the parser never ends
    there. *)
Inductive outcome (A : Type) :=
| Ret (a : A)
| Throw (e : exception)
| Undefined
| Exhausted.
Arguments Ret {A} a.
Arguments Throw {A} e.
Arguments Undefined {A}.
Arguments Exhausted {A}.

Definition obind {A B} (c : outcome A) (k : A → outcome B) : outcome B :=
  match c with
  | Ret a => k a
  | Throw e => Throw e
  | Undefined => Undefined
  | Exhausted => Exhausted
  end.

Notation "'let!' x ':=' c 'in' k" := (obind c (fun x => k))
  (at level 10, x pattern, c at level 100, k at level 200, only parsing).

(** [try { c } catch (const std::out_of_range&) { h }] *)
Definition catch_out_of_range {A} (c : outcome A) (h : outcome A) : outcome A :=
  match c with
  | Throw (out_of_range _) => h
  | _ => c
  end.

(** ** Characters and strings *)

(** [*it]: the character under an iterator into [line]; at [end()] this is the
    terminating NUL that [std::string] keeps after its last character. *)
Definition deref (line : string) (it : nat) : ascii :=
  match String.get it line with
  | Some c => c
  | None => "000"%char
  end.

(** [std::string{first, last}] *)
Definition substr (line : string) (first last : nat) : string :=
  String.substring first (last - first) line.

(** [std::find_if(it, it + n, p)]: the first position in the range whose
    character satisfies [p], the end of the range when there is none. *)
Fixpoint find_if_n (p : ascii → bool) (line : string) (it n : nat) : nat :=
  match n with
  | O => it
  | S n' => if p (deref line it) then it else find_if_n p line (S it) n'
  end.

Definition find_if (p : ascii → bool) (line : string) (it end_ : nat) : nat :=
  find_if_n p line it (end_ - it).

Definition find (c : ascii) (line : string) (it end_ : nat) : nat :=
  find_if (Ascii.eqb c) line it end_.

Definition is_blank (c : ascii) : bool :=
  Ascii.eqb c " " || Ascii.eqb c "009".

(** [std::to_string] on an unsigned line number. *)
Definition digit_char (d : nat) : ascii := ascii_of_nat (48 + d).

Fixpoint to_string_n (fuel n : nat) (acc : string) : string :=
  match fuel with
  | O => acc
  | S fuel' =>
      let acc' := String (digit_char (n mod 10)) acc in
      if n / 10 =? 0 then acc' else to_string_n fuel' (n / 10) acc'
  end.

Definition to_string (n : nat) : string := to_string_n (S n) n EmptyString.

(** [std::runtime_error::what()] *)
Definition what (e : exception) : string :=
  match e with
  | parse_exception err None => err
  | parse_exception err (Some n) => err +:+ " at line " +:+ to_string n
  | out_of_range w => w
  | invalid_argument w => w
  end.

(** ** The node model *)

(** [std::tm], the fields [parse_date] fills in (the rest are zeroed). *)
Record tm := mk_tm {
  tm_year : Z; tm_mon : Z; tm_mday : Z;
  tm_hour : Z; tm_min : Z; tm_sec : Z
}.

(** A [double] is kept as the decimal text [std::stod] was given: rounding to
    binary64 is the platform's and no statement below looks inside. *)
Record double := stod_of { decimal : string }.

(** The five [T] of [valid_value<T>]. *)
Inductive value_type := t_string | t_int64 | t_double | t_bool | t_tm.

Global Instance value_type_eq_dec : EqDecision value_type.
Proof. solve_decision. Defined.

(** The payload [data_] of a [value<T>], tagged with its [T]. *)
Inductive datum :=
| d_string (s : string)
| d_int64 (z : Z)
| d_double (d : double)
| d_bool (b : bool)
| d_tm (t : tm).

Definition type_of (d : datum) : value_type :=
  match d with
  | d_string _ => t_string
  | d_int64 _ => t_int64
  | d_double _ => t_double
  | d_bool _ => t_bool
  | d_tm _ => t_tm
  end.

(** A [shared_ptr<base>] or [table*] that is not null. *)
Abbreviation ptr := nat.

(** The four subclasses of [base] with their members. *)
Inductive base :=
| value (data_ : datum)
| array (values_ : list ptr)
| table_array (array_ : list ptr)
| table (map_ : gmap string ptr).

(** The store: [make_shared] appends a node and hands out its index. *)
Abbreviation memory := (list base).

Definition make_shared (n : base) (mem : memory) : ptr * memory :=
  (length mem, mem ++ [n]).

(** Dereferencing a pointer that owns nothing is undefined. *)
Definition load (mem : memory) (p : ptr) : outcome base :=
  match mem !! p with
  | Some n => Ret n
  | None => Undefined
  end.

(** [base::is_value], [is_table], [is_array], [is_table_array] *)
Definition is_value (n : base) : bool :=
  match n with value _ => true | _ => false end.
Definition is_table (n : base) : bool :=
  match n with table _ => true | _ => false end.
Definition is_array (n : base) : bool :=
  match n with array _ => true | _ => false end.
Definition is_table_array (n : base) : bool :=
  match n with table_array _ => true | _ => false end.

(** [base::as_array], [as_table_array] and [as<T>], called through the
    pointer [p]: the pointer itself when the dynamic kind matches, [nullptr]
    otherwise. *)
Definition as_array (mem : memory) (p : ptr) : outcome (option ptr) :=
  let! n := load mem p in
  Ret (if is_array n then Some p else None).

Definition as_table_array (mem : memory) (p : ptr) : outcome (option ptr) :=
  let! n := load mem p in
  Ret (if is_table_array n then Some p else None).

Definition as_ (T : value_type) (mem : memory) (p : ptr) : outcome (option ptr) :=
  let! n := load mem p in
  Ret (match n with
       | value d => if decide (type_of d = T) then Some p else None
       | _ => None
       end).

(** [value<T>::get] through a pointer that [as_ T] returned. *)
Definition value_get (mem : memory) (p : ptr) : outcome datum :=
  let! n := load mem p in
  match n with
  | value d => Ret d
  | _ => Undefined
  end.

(** ** class table *)

Module Table.

(** The member [map_] of the table [this] points to. Calling a member of
    [table] through a pointer to another kind of node is undefined. *)
Definition map_of (mem : memory) (this : ptr) : outcome (gmap string ptr) :=
  let! n := load mem this in
  match n with
  | table m => Ret m
  | _ => Undefined
  end.

(** [map_.find(key) != map_.end()] *)
Definition contains (mem : memory) (this : ptr) (key : string) : outcome bool :=
  let! m := map_of mem this in
  Ret (match m !! key with Some _ => true | None => false end).

(** [map_.at(key)]; the text of the library's exception is the
    implementation's. *)
Definition get (mem : memory) (this : ptr) (key : string) : outcome ptr :=
  let! m := map_of mem this in
  match m !! key with
  | Some b => Ret b
  | None => Throw (out_of_range "unordered_map::at")
  end.

Definition get_table (mem : memory) (this : ptr) (key : string)
  : outcome (option ptr) :=
  let! c := contains mem this key in
  if c then
    let! b := get mem this key in
    let! n := load mem b in
    if is_table n then
      let! b' := get mem this key in Ret (Some b')
    else Ret None
  else Ret None.

Definition get_array (mem : memory) (this : ptr) (key : string)
  : outcome (option ptr) :=
  let! c := contains mem this key in
  if negb c then Ret None
  else let! b := get mem this key in as_array mem b.

Definition get_table_array (mem : memory) (this : ptr) (key : string)
  : outcome (option ptr) :=
  let! c := contains mem this key in
  if negb c then Ret None
  else let! b := get mem this key in as_table_array mem b.

(** [get_as<T>]. When [as<T>] finds a value the source returns
    [{v->value()}]; [value<T>] has no member of that name (its accessor is
    [get]), so this branch has no meaning and the template cannot be
    instantiated. *)
Definition get_as (T : value_type) (mem : memory) (this : ptr) (key : string)
  : outcome (option datum) :=
  catch_out_of_range
    (let! b := get mem this key in
     let! v := as_ T mem b in
     match v with
     | Some v => Undefined
     | None => Ret None
     end)
    (Ret None).

(** [map_[key] = value] *)
Definition insert (mem : memory) (this : ptr) (key : string) (v : ptr)
  : outcome memory :=
  let! m := map_of mem this in
  Ret (<[this := table (<[key := v]> m)]> mem).

(** [std::string::find(char, pos)]; [None] is [npos]. *)
Fixpoint string_find (value : string) (c : ascii) (pos : nat) : option nat :=
  match value with
  | EmptyString => None
  | String x rest =>
      match pos with
      | O => if Ascii.eqb x c then Some O else S <$> string_find rest c O
      | S pos' => S <$> string_find rest c pos'
      end
  end.

(** The loop of [split]: [p] is the start of the part being read, [result]
    the parts found so far. Every turn moves [p] past one separator, so the
    budget [S (length value)] that [split] gives is never used up. *)
Fixpoint split_loop (budget : nat) (value : string) (separator : ascii)
    (p : nat) (result : list string) : outcome (list string) :=
  match string_find value separator p with
  | Some q =>
      match budget with
      | O => Exhausted
      | S budget' =>
          split_loop budget' value separator (q + 1)
                     (result ++ [String.substring p (q - p) value])
      end
  | None =>
      Ret (result ++ [String.substring p (String.length value - p) value])
  end.

Definition split (value : string) (separator : ascii) : outcome (list string) :=
  split_loop (S (String.length value)) value separator 0 [].

(** The [for] loop of [resolve_qualified]: [nullptr] as soon as a part is not
    a table of the table reached so far. *)
Fixpoint descend (mem : memory) (t : ptr) (parts : list string)
  : outcome (option ptr) :=
  match parts with
  | [] => Ret (Some t)
  | part :: parts' =>
      let! t' := get_table mem t part in
      match t' with
      | None => Ret None
      | Some t' => descend mem t' parts'
      end
  end.

(** [resolve_qualified(key, p)]. [with_p] says whether the output parameter
    [p] was given; the result is the returned flag and what [*p] was set
    to. *)
Definition resolve_qualified (mem : memory) (this : ptr) (key : string)
    (with_p : bool) : outcome (bool * option ptr) :=
  let! parts := split key "." in
  match reverse parts with
  | [] => Undefined
  | last_key :: rev_parts =>
      let parts := reverse rev_parts in
      let! t := descend mem this parts in
      match t with
      | None =>
          if negb with_p then Ret (false, None)
          else Throw (out_of_range (key +:+ " is not a valid key"))
      | Some t =>
          let! m := map_of mem t in
          if negb with_p then
            Ret (match m !! last_key with Some _ => true | None => false end,
                 None)
          else
            match m !! last_key with
            | Some b => Ret (true, Some b)
            | None => Throw (out_of_range "unordered_map::at")
            end
      end
  end.

Definition contains_qualified (mem : memory) (this : ptr) (key : string)
  : outcome bool :=
  let! r := resolve_qualified mem this key false in Ret (fst r).

(** [get_qualified] returns the pointer [resolve_qualified] stored in [p]. *)
Definition get_qualified (mem : memory) (this : ptr) (key : string)
  : outcome ptr :=
  let! r := resolve_qualified mem this key true in
  match snd r with
  | Some b => Ret b
  | None => Undefined
  end.

Definition get_table_qualified (mem : memory) (this : ptr) (key : string)
  : outcome (option ptr) :=
  let! c := contains_qualified mem this key in
  if c then
    let! b := get_qualified mem this key in
    let! n := load mem b in
    if is_table n then
      let! b' := get_qualified mem this key in Ret (Some b')
    else Ret None
  else Ret None.

Definition get_array_qualified (mem : memory) (this : ptr) (key : string)
  : outcome (option ptr) :=
  let! c := contains_qualified mem this key in
  if negb c then Ret None
  else let! b := get_qualified mem this key in as_array mem b.

Definition get_table_array_qualified (mem : memory) (this : ptr)
    (key : string) : outcome (option ptr) :=
  let! c := contains_qualified mem this key in
  if negb c then Ret None
  else let! b := get_qualified mem this key in as_table_array mem b.

(** [get_qualified_as<T>], with the same [{v->value()}] as [get_as<T>]. *)
Definition get_qualified_as (T : value_type) (mem : memory) (this : ptr)
    (key : string) : outcome (option datum) :=
  catch_out_of_range
    (let! b := get_qualified mem this key in
     let! v := as_ T mem b in
     match v with
     | Some v => Undefined
     | None => Ret None
     end)
    (Ret None).

(** [insert<T>(key, val)], the shorthand for a simple element: [val] is
    wrapped in a new [value<T>], which is inserted. *)
Definition insert_value (mem : memory) (this : ptr) (key : string)
    (val : datum) : outcome memory :=
  let (v, mem) := make_shared (value val) mem in
  insert mem this key v.

End Table.

(** ** class table_array *)

Module TableArray.

(** The member [array_] behind [get()]. *)
Definition get (mem : memory) (this : ptr) : outcome (list ptr) :=
  let! n := load mem this in
  match n with
  | table_array a => Ret a
  | _ => Undefined
  end.

(** [get().back()]; undefined on an empty vector. *)
Definition back (mem : memory) (this : ptr) : outcome ptr :=
  let! a := get mem this in
  match last a with
  | Some t => Ret t
  | None => Undefined
  end.

(** [get().push_back(t)] *)
Definition push_back (mem : memory) (this : ptr) (t : ptr) : outcome memory :=
  let! a := get mem this in
  Ret (<[this := table_array (a ++ [t])]> mem).

End TableArray.

(** ** class array *)

Module Array.

Definition get (mem : memory) (this : ptr) : outcome (list ptr) :=
  let! n := load mem this in
  match n with
  | array a => Ret a
  | _ => Undefined
  end.

Definition push_back (mem : memory) (this : ptr) (v : ptr) : outcome memory :=
  let! a := get mem this in
  Ret (<[this := array (a ++ [v])]> mem).

(** [std::transform] over the elements, into a vector of the same size. *)
Fixpoint transform {B} (op : ptr → outcome B) (values : list ptr)
  : outcome (list B) :=
  match values with
  | [] => Ret []
  | v :: values' =>
      let! r := op v in
      let! rs := transform op values' in
      Ret (r :: rs)
  end.

(** [array_of<T>()]: the elements as [value<T>], [nullptr] where an element
    is not one. *)
Definition array_of (T : value_type) (mem : memory) (this : ptr)
  : outcome (list (option ptr)) :=
  let! a := get mem this in
  transform (λ v, as_ T mem v) a.

(** [nested_array()]: the elements as arrays, [nullptr] where an element is
    not one. *)
Definition nested_array (mem : memory) (this : ptr)
  : outcome (list (option ptr)) :=
  let! a := get mem this in
  transform (λ v, let! n := load mem v in
                  Ret (if is_array n then Some v else None)) a.

End Array.

(** ** The parser's state *)

(** The members of [parser] together with the store its nodes live in.
    [input_] is the stream as the lines [std::getline] will still deliver. *)
Record state := mk_state {
  store : memory;
  input_ : list string;
  line_ : string;
  line_number_ : nat;
  tables_ : gset string
}.

Definition set_store (mem : memory) (st : state) : state :=
  mk_state mem (input_ st) (line_ st) (line_number_ st) (tables_ st).
Definition set_tables (ts : gset string) (st : state) : state :=
  mk_state (store st) (input_ st) (line_ st) (line_number_ st) ts.

(** Computations over the state that may throw. *)
Definition M (A : Type) := state → outcome (A * state).

Definition ret {A} (a : A) : M A := λ st, Ret (a, st).

Definition bind {A B} (c : M A) (k : A → M B) : M B :=
  λ st,
    match c st with
    | Ret (a, st') => k a st'
    | Throw e => Throw e
    | Undefined => Undefined
    | Exhausted => Exhausted
    end.

Notation "'let*' x ':=' c 'in' k" := (bind c (fun x => k))
  (at level 10, x pattern, c at level 100, k at level 200, only parsing).

Definition gets {A} (f : state → A) : M A := λ st, Ret (f st, st).
Definition throw {A} (e : exception) : M A := λ _, Throw e.
Definition undefined {A} : M A := λ _, Undefined.
Definition exhausted {A} : M A := λ _, Exhausted.

(** A read of the store, and a write to it. *)
Definition reading {A} (f : memory → outcome A) : M A :=
  λ st, let! a := f (store st) in Ret (a, st).
Definition writing (f : memory → outcome memory) : M unit :=
  λ st, let! mem := f (store st) in Ret (tt, set_store mem st).

(** [std::make_shared<...>(...)] *)
Definition new (n : base) : M ptr :=
  λ st, let (p, mem) := make_shared n (store st) in Ret (p, set_store mem st).

(** [std::getline(input_, line_)] converted to [bool]. *)
Definition getline : M bool :=
  λ st,
    match input_ st with
    | [] => Ret (false, st)
    | l :: rest =>
        Ret (true, mk_state (store st) rest l (line_number_ st) (tables_ st))
    end.

(** [line_number_++] *)
Definition next_line_number : M unit :=
  λ st, Ret (tt, mk_state (store st) (input_ st) (line_ st)
                          (S (line_number_ st)) (tables_ st)).

(** The lines a stream with the characters [s] delivers to [std::getline]:
    every newline ends a line, and characters after the last newline form a
    last line. *)
Fixpoint stream_lines (s : string) : list string :=
  match s with
  | EmptyString => []
  | String c rest =>
      if Ascii.eqb c "010" then EmptyString :: stream_lines rest
      else match stream_lines rest with
           | [] => [String c EmptyString]
           | l :: ls => String c l :: ls
           end
  end.

(** ** Numeric conversions of the standard library *)

Definition is_number (c : ascii) : bool :=
  (nat_of_ascii "0" <=? nat_of_ascii c) && (nat_of_ascii c <=? nat_of_ascii "9").

(** The leading decimal digits of [s] as a number ([None] when there is none),
    and what follows them. *)
Fixpoint scan_digits (s : string) (acc : option Z) : option Z * string :=
  match s with
  | String c rest =>
      if is_number c then
        scan_digits rest
          (Some (10 * default 0%Z acc + Z.of_nat (nat_of_ascii c - 48))%Z)
      else (acc, s)
  | EmptyString => (acc, s)
  end.

(** An optional sign followed by digits, as [strtol] and [%d] read them. *)
Definition scan_int (s : string) : option (Z * string) :=
  let '(neg, body) :=
    match s with
    | String "-" r => (true, r)
    | String "+" r => (false, r)
    | _ => (false, s)
    end in
  match scan_digits body None with
  | (Some z, rest) => Some (if neg then (- z)%Z else z, rest)
  | (None, _) => None
  end.

(** [std::stoll]: [invalid_argument] without a digit, [out_of_range] outside
    [long long]. The parser only passes text that starts with a digit or
    ['-'], so leading white space is not looked for. *)
Definition stoll (v : string) : outcome Z :=
  match scan_int v with
  | None => Throw (invalid_argument "stoll")
  | Some (z, _) =>
      if ((z <? - 2 ^ 63) || (2 ^ 63 - 1 <? z))%Z
      then Throw (out_of_range "stoll")
      else Ret z
  end.

(** [std::stoi] *)
Definition stoi (v : string) : outcome Z :=
  match scan_int v with
  | None => Throw (invalid_argument "stoi")
  | Some (z, _) =>
      if ((z <? - 2 ^ 31) || (2 ^ 31 - 1 <? z))%Z
      then Throw (out_of_range "stoi")
      else Ret z
  end.

Fixpoint has_digit (s : string) : bool :=
  match s with
  | EmptyString => false
  | String c rest => is_number c || has_digit rest
  end.

(** [std::stod] on the text [parse_float] passes, an optional ['-'], digits,
    ['.'] and digits: [invalid_argument] when it holds no digit. Range errors
    of the platform conversion are not modelled. *)
Definition stod (v : string) : outcome double :=
  if has_digit v then Ret (stod_of v) else Throw (invalid_argument "stod").

(** [std::sscanf(s, "%d-%d-%dT%d:%d:%dZ", ...)]: the integers assigned, in
    order; their number is the return value. [seps] are the literals between
    the conversions. *)
Fixpoint sscanf_ints (seps : list ascii) (s : string) : list Z :=
  match scan_int s with
  | None => []
  | Some (z, rest) =>
      z :: match seps with
           | [] => []
           | sep :: seps' =>
               match rest with
               | String c rest' =>
                   if Ascii.eqb c sep then sscanf_ints seps' rest' else []
               | EmptyString => []
               end
           end
  end.

Definition sscanf_date (s : string) : list Z :=
  sscanf_ints ["-"; "-"; "T"; ":"; ":"]%char s.

(** [std::regex_match] against [\d{4}-\d{2}-\d{2}T\d{2}:\d{2}:\d{2}Z]; in the
    pattern below [None] stands for [\d]. *)
Definition date_pattern : list (option ascii) :=
  [None; None; None; None; Some "-"; None; None; Some "-"; None; None;
   Some "T"; None; None; Some ":"; None; None; Some ":"; None; None;
   Some "Z"]%char.

Fixpoint regex_match (s : string) (pattern : list (option ascii)) : bool :=
  match pattern, s with
  | [], EmptyString => true
  | None :: pattern', String c rest => is_number c && regex_match rest pattern'
  | Some x :: pattern', String c rest => Ascii.eqb c x && regex_match rest pattern'
  | _, _ => false
  end.

(** ** class parser *)

Module Parser.

Section build.

(** The build-time switch that chooses between [std::regex] and
    [std::sscanf] in [is_date] and [parse_date]. *)
Variable CPPTOML_HAS_STD_REGEX : bool.

Definition throw_parse_exception {A} (err : string) : M A :=
  λ st, Throw (parse_exception err (Some (line_number_ st))).

Definition consume_whitespace (line : string) (it end_ : nat) : nat :=
  find_if (λ c, negb (is_blank c)) line it end_.

(** [consume_backwards_whitespace(back, front)], for [front <= back]. *)
Fixpoint consume_backwards_whitespace_n (n : nat) (line : string)
    (back front : nat) : nat :=
  match n with
  | O => back
  | S n' =>
      if negb (back =? front) && is_blank (deref line back)
      then consume_backwards_whitespace_n n' line (back - 1) front
      else back
  end.

Definition consume_backwards_whitespace (line : string) (back front : nat)
  : nat :=
  consume_backwards_whitespace_n (back - front) line back front.

Definition eol_or_comment (it end_ : nat) : M unit :=
  let* line := gets line_ in
  if negb (it =? end_) && negb (Ascii.eqb (deref line it) "#") then
    throw_parse_exception
      ("Unidentified trailing character " +:+ String (deref line it) EmptyString
       +:+ "---did you forget a '#'?")
  else ret tt.

(** *** Table headers *)

(** The [while (it != kg_end)] loop of [parse_single_table]; it ends with
    [it = kg_end] and returns the table reached. Every turn moves [it]
    forward, so [kg_end - it] turns are enough. *)
Fixpoint single_table_walk (budget : nat) (it kg_end : nat)
    (curr_table : ptr) : M ptr :=
  if it =? kg_end then ret curr_table
  else
    match budget with
    | O => exhausted
    | S budget' =>
        let* line := gets line_ in
        let dot := find "." line it kg_end in
        let part := substr line it dot in
        if String.eqb part EmptyString then throw_parse_exception "Empty keytable part"
        else
          let it := dot in
          let it := if negb (it =? kg_end) then S it else it in
          let* c := reading (λ mem, Table.contains mem curr_table part) in
          if c then
            let* b := reading (λ mem, Table.get mem curr_table part) in
            let* n := reading (λ mem, load mem b) in
            if is_table n then single_table_walk budget' it kg_end b
            else if is_table_array n then
              let* t := reading (λ mem, TableArray.back mem b) in
              single_table_walk budget' it kg_end t
            else throw_parse_exception "Keytable already exists as a value"
          else
            let* t := new (table ∅) in
            let* _ := writing (λ mem, Table.insert mem curr_table part t) in
            let* t' := reading (λ mem, Table.get mem curr_table part) in
            single_table_walk budget' it kg_end t'
    end.

Definition parse_single_table (it end_ : nat) (curr_table : ptr) : M ptr :=
  let* line := gets line_ in
  let ob := find "[" line it end_ in
  if negb (ob =? end_) then throw_parse_exception "Cannot have [ in table name"
  else
    let kg_end := find "]" line it end_ in
    if it =? kg_end then throw_parse_exception "Empty table"
    else
      let table_name := substr line it kg_end in
      let* ts := gets tables_ in
      if bool_decide (table_name ∈ ts)
      then throw_parse_exception "Duplicate table"
      else if negb (find_if is_blank table_name 0 (String.length table_name)
                    =? String.length table_name)
      then throw (parse_exception
                    ("Table name " +:+ table_name
                     +:+ " cannot have whitespace") None)
      else
        let* _ := (λ st, Ret (tt, set_tables ({[table_name]} ∪ tables_ st) st)) in
        let* curr_table :=
          single_table_walk (kg_end - it) it kg_end curr_table in
        (* [++it] from [kg_end]: past the end when no ']' was found *)
        if kg_end =? end_ then undefined
        else
          let it := S kg_end in
          let it := consume_whitespace line it end_ in
          let* _ := eol_or_comment it end_ in
          ret curr_table.

(** The loop of [parse_table_array]. *)
Fixpoint table_array_walk (budget : nat) (it kg_end : nat)
    (curr_table : ptr) : M ptr :=
  if it =? kg_end then ret curr_table
  else
    match budget with
    | O => exhausted
    | S budget' =>
        let* line := gets line_ in
        let dot := find "." line it kg_end in
        let part := substr line it dot in
        if String.eqb part EmptyString then throw_parse_exception "Empty keytable part"
        else
          let it := dot in
          let it := if negb (it =? kg_end) then S it else it in
          let* c := reading (λ mem, Table.contains mem curr_table part) in
          if c then
            let* b := reading (λ mem, Table.get mem curr_table part) in
            let* n := reading (λ mem, load mem b) in
            if it =? kg_end then
              if negb (is_table_array n)
              then throw_parse_exception "Expected keytable array"
              else
                let* t := new (table ∅) in
                let* _ := writing (λ mem, TableArray.push_back mem b t) in
                let* t' := reading (λ mem, TableArray.back mem b) in
                table_array_walk budget' it kg_end t'
            else
              if is_table n then table_array_walk budget' it kg_end b
              else if is_table_array n then
                let* t := reading (λ mem, TableArray.back mem b) in
                table_array_walk budget' it kg_end t
              else throw_parse_exception "Keytable already exists as a value"
          else
            if it =? kg_end then
              let* a := new (table_array []) in
              let* _ := writing (λ mem, Table.insert mem curr_table part a) in
              let* arr := reading (λ mem, Table.get mem curr_table part) in
              let* t := new (table ∅) in
              let* _ := writing (λ mem, TableArray.push_back mem arr t) in
              let* t' := reading (λ mem, TableArray.back mem arr) in
              table_array_walk budget' it kg_end t'
            else
              let* t := new (table ∅) in
              let* _ := writing (λ mem, Table.insert mem curr_table part t) in
              let* t' := reading (λ mem, Table.get mem curr_table part) in
              table_array_walk budget' it kg_end t'
    end.

Definition parse_table_array (it end_ : nat) (curr_table : ptr) : M ptr :=
  let* line := gets line_ in
  let it := S it in
  let ob := find "[" line it end_ in
  if negb (ob =? end_)
  then throw_parse_exception "Cannot have [ in keytable name"
  else
    let kg_end := find "]" line it end_ in
    if kg_end =? end_ then throw_parse_exception "Unterminated keytable array"
    else if it =? kg_end then throw_parse_exception "Empty keytable"
    else
      let kga_end := S kg_end in
      if negb (Ascii.eqb (deref line kga_end) "]")
      then throw_parse_exception "Invalid keytable array specifier"
      else table_array_walk (kg_end - it) it kg_end curr_table.

Definition parse_table (it end_ : nat) (curr_table : ptr) : M ptr :=
  let* line := gets line_ in
  let it := S it in
  if it =? end_ then throw_parse_exception "Unexpected end of table"
  else if Ascii.eqb (deref line it) "["
  then parse_table_array it end_ curr_table
  else parse_single_table it end_ curr_table.

(** *** Keys and string literals *)

Definition parse_escape_code (it end_ : nat) : M (ascii * nat) :=
  let* line := gets line_ in
  let it := S it in
  if it =? end_ then throw_parse_exception "Invalid escape sequence"
  else
    let c := deref line it in
    let* v :=
      if Ascii.eqb c "b" then ret "008"%char
      else if Ascii.eqb c "t" then ret "009"%char
      else if Ascii.eqb c "n" then ret "010"%char
      else if Ascii.eqb c "f" then ret "012"%char
      else if Ascii.eqb c "r" then ret "013"%char
      else if Ascii.eqb c "034" then ret "034"%char
      else if Ascii.eqb c "/" then ret "/"%char
      else if Ascii.eqb c "\" then ret "\"%char
      else throw_parse_exception "Invalid escape sequence" in
    ret (v, S it).

(** The [while (it != end)] loop of [string_literal]. *)
Fixpoint string_literal_loop (budget : nat) (it end_ : nat) (val : string)
  : M (string * nat) :=
  if it =? end_ then throw_parse_exception "Unterminated string literal"
  else
    match budget with
    | O => exhausted
    | S budget' =>
        let* line := gets line_ in
        if Ascii.eqb (deref line it) "\" then
          let* (c, it) := parse_escape_code it end_ in
          string_literal_loop budget' it end_ (val +:+ String c EmptyString)
        else if Ascii.eqb (deref line it) "034" then
          let it := S it in
          ret (val, consume_whitespace line it end_)
        else
          string_literal_loop budget' (S it) end_
                              (val +:+ String (deref line it) EmptyString)
    end.

Definition string_literal (it end_ : nat) : M (string * nat) :=
  let it := S it in
  string_literal_loop (end_ - it) it end_ EmptyString.

Definition parse_quoted_key (it end_ : nat) : M (string * nat) :=
  string_literal it end_.

Definition parse_bare_key (it end_ : nat) : M (string * nat) :=
  let* line := gets line_ in
  let eq := find "=" line it end_ in
  (* [--key_end] and the backwards scan leave the string when the key is
     empty *)
  if eq =? it then undefined
  else
    let key_end := eq - 1 in
    let key_end := consume_backwards_whitespace line key_end it in
    let key_end := S key_end in
    let key := substr line it key_end in
    if negb (find "#" line it key_end =? key_end)
    then throw_parse_exception ("Key " +:+ key +:+ " cannot contain #")
    else if negb (find_if is_blank line it key_end =? key_end)
    then throw_parse_exception ("Key " +:+ key +:+ " cannot contain whitespace")
    else ret (key, consume_whitespace line eq end_).

Definition parse_key (it end_ : nat) : M (string * nat) :=
  let* line := gets line_ in
  let it := consume_whitespace line it end_ in
  if Ascii.eqb (deref line it) "034" then parse_quoted_key it end_
  else parse_bare_key it end_.

(** *** Values *)

Inductive parse_type := STRING | DATE | INT | FLOAT | BOOL | ARRAY.

(** The characters a date may be made of; [is_date] and [parse_date] stop at
    the first other one. *)
Definition not_date_char (c : ascii) : bool :=
  negb (is_number c) && negb (Ascii.eqb c "T") && negb (Ascii.eqb c "Z")
  && negb (Ascii.eqb c ":") && negb (Ascii.eqb c "-").

Definition is_date (line : string) (it end_ : nat) : bool :=
  let date_end := find_if not_date_char line it end_ in
  let to_match := substr line it date_end in
  if CPPTOML_HAS_STD_REGEX then regex_match to_match date_pattern
  else
    (String.length to_match =? 20)
    && Ascii.eqb (deref to_match 4) "-"
    && Ascii.eqb (deref to_match 7) "-"
    && Ascii.eqb (deref to_match 10) "T"
    && Ascii.eqb (deref to_match 13) ":"
    && Ascii.eqb (deref to_match 16) ":"
    && Ascii.eqb (deref to_match 19) "Z"
    && (length (sscanf_date to_match) =? 6).

Definition determine_number_type (line : string) (it end_ : nat)
  : parse_type :=
  let check_it := it in
  let check_it := if Ascii.eqb (deref line check_it) "-"
                  then S check_it else check_it in
  let check_it := find_if (λ c, negb (is_number c)) line check_it end_ in
  if negb (check_it =? end_) && Ascii.eqb (deref line check_it) "."
  then FLOAT
  else INT.

Definition determine_value_type (it end_ : nat) : M parse_type :=
  let* line := gets line_ in
  if Ascii.eqb (deref line it) "034" then ret STRING
  else if is_date line it end_ then ret DATE
  else if is_number (deref line it) || Ascii.eqb (deref line it) "-"
  then ret (determine_number_type line it end_)
  else if Ascii.eqb (deref line it) "t" || Ascii.eqb (deref line it) "f"
  then ret BOOL
  else if Ascii.eqb (deref line it) "[" then ret ARRAY
  else throw_parse_exception "Failed to parse value type".

Definition parse_string (it end_ : nat) : M (ptr * nat) :=
  let* (s, it) := string_literal it end_ in
  let* v := new (value (d_string s)) in
  ret (v, it).

Definition parse_int (it end_ : nat) : M (ptr * nat) :=
  let* line := gets line_ in
  let v := substr line it end_ in
  let* z := (λ st, let! z := stoll v in Ret (z, st)) in
  let* p := new (value (d_int64 z)) in
  ret (p, end_).

Definition parse_float (it end_ : nat) : M (ptr * nat) :=
  let* line := gets line_ in
  let v := substr line it end_ in
  let* d := (λ st, let! d := stod v in Ret (d, st)) in
  let* p := new (value (d_double d)) in
  ret (p, end_).

Definition parse_number (it end_ : nat) : M (ptr * nat) :=
  let* line := gets line_ in
  let check_it := it in
  let check_it := if Ascii.eqb (deref line check_it) "-"
                  then S check_it else check_it in
  let check_it := find_if (λ c, negb (is_number c)) line check_it end_ in
  if negb (check_it =? end_) && Ascii.eqb (deref line check_it) "." then
    let check_it := S check_it in
    if check_it =? end_
    then throw_parse_exception "Floats must have trailing digits"
    else
      let check_it := find_if (λ c, negb (is_number c)) line check_it end_ in
      parse_float it check_it
  else parse_int it check_it.

Definition parse_bool (it end_ : nat) : M (ptr * nat) :=
  let* line := gets line_ in
  let boolend :=
    find_if (λ c, is_blank c || Ascii.eqb c "#") line it end_ in
  let v := substr line it boolend in
  if String.eqb v "true" then
    let* p := new (value (d_bool true)) in ret (p, boolend)
  else if String.eqb v "false" then
    let* p := new (value (d_bool false)) in ret (p, boolend)
  else throw_parse_exception "Attempted to parse invalid boolean value".

(** The six fields of a date. With [std::regex] they are the groups of the
    match, converted by [stoi] (an empty group when the text does not match);
    with [std::sscanf] they are what was assigned, and reading a field that
    was not assigned is undefined. *)
Definition date_fields (to_match : string) : outcome (list Z) :=
  if CPPTOML_HAS_STD_REGEX then
    let groups :=
      if regex_match to_match date_pattern
      then [substr to_match 0 4; substr to_match 5 7; substr to_match 8 10;
            substr to_match 11 13; substr to_match 14 16;
            substr to_match 17 19]
      else replicate 6 EmptyString in
    (fix conv (gs : list string) : outcome (list Z) :=
       match gs with
       | [] => Ret []
       | g :: gs' =>
           let! z := stoi g in
           let! zs := conv gs' in
           Ret (z :: zs)
       end) groups
  else
    let fs := sscanf_date to_match in
    if length fs =? 6 then Ret fs else Undefined.

Definition parse_date (it end_ : nat) : M (ptr * nat) :=
  let* line := gets line_ in
  let date_end := find_if not_date_char line it end_ in
  let to_match := substr line it date_end in
  let* fs := (λ st, let! fs := date_fields to_match in Ret (fs, st)) in
  match fs with
  | [year; month; day; hour; min; sec] =>
      let date := mk_tm (year - 1900) (month - 1) day hour min sec in
      let* p := new (value (d_tm date)) in
      ret (p, date_end)
  | _ => undefined
  end.

(** [skip_whitespace_and_comments]: the loop pulls a line from the stream
    whenever the current one is exhausted or turns into a comment. [input]
    is [input_], on which the loop recurses. *)
Fixpoint skip_lines (input : list string) (start end_ : nat)
  : M (nat * nat) :=
  λ st,
    if (start =? end_) || Ascii.eqb (deref (line_ st) start) "#" then
      match input with
      | [] => Throw (parse_exception "Unclosed array" (Some (line_number_ st)))
      | l :: input' =>
          let st' := mk_state (store st) input' l (S (line_number_ st))
                              (tables_ st) in
          skip_lines input'
                     (consume_whitespace l 0 (String.length l))
                     (String.length l) st'
      end
    else Ret ((start, end_), st).

Definition skip_whitespace_and_comments (start end_ : nat) : M (nat * nat) :=
  λ st,
    skip_lines (input_ st) (consume_whitespace (line_ st) start end_) end_ st.

(** [base::as<Value>()] of the freshly parsed element. *)
Definition as_value (T : value_type) (v : ptr) : M (option ptr) :=
  reading (λ mem, as_ T mem v).

(** [parse_value], [parse_array], [parse_value_array<Value>] and
    [parse_nested_array] call each other; each takes the iterators [it] and
    [end] and returns them as it leaves them. The two [while] loops are
    functions of their own, with the array under construction as argument. *)
Fixpoint parse_value (budget : nat) (it end_ : nat) {struct budget}
  : M (ptr * (nat * nat)) :=
  match budget with
  | O => exhausted
  | S budget' =>
      let* type := determine_value_type it end_ in
      match type with
      | STRING => let* (v, it) := parse_string it end_ in ret (v, (it, end_))
      | DATE => let* (v, it) := parse_date it end_ in ret (v, (it, end_))
      | INT | FLOAT =>
          let* (v, it) := parse_number it end_ in ret (v, (it, end_))
      | BOOL => let* (v, it) := parse_bool it end_ in ret (v, (it, end_))
      | ARRAY => parse_array budget' it end_
      end
  end

with parse_array (budget : nat) (it end_ : nat) {struct budget}
  : M (ptr * (nat * nat)) :=
  match budget with
  | O => exhausted
  | S budget' =>
      let it := S it in
      let* (it, end_) := skip_whitespace_and_comments it end_ in
      let* line := gets line_ in
      if Ascii.eqb (deref line it) "]" then
        let* a := new (array []) in
        ret (a, (S it, end_))
      else
        let val_end :=
          find_if (λ c, Ascii.eqb c "," || Ascii.eqb c "]" || Ascii.eqb c "#")
                  line it end_ in
        let* type := determine_value_type it val_end in
        match type with
        | STRING => parse_value_array budget' t_string it end_
        | INT => parse_value_array budget' t_int64 it end_
        | FLOAT => parse_value_array budget' t_double it end_
        | DATE => parse_value_array budget' t_tm it end_
        | ARRAY => parse_nested_array budget' it end_
        | BOOL => throw_parse_exception "Unable to parse array"
        end
  end

with parse_value_array (budget : nat) (Value : value_type) (it end_ : nat)
    {struct budget} : M (ptr * (nat * nat)) :=
  match budget with
  | O => exhausted
  | S budget' =>
      let* arr := new (array []) in
      let* (it, end_) := parse_value_array_loop budget' Value arr it end_ in
      let it := if negb (it =? end_) then S it else it in
      ret (arr, (it, end_))
  end

with parse_value_array_loop (budget : nat) (Value : value_type) (arr : ptr)
    (it end_ : nat) {struct budget} : M (nat * nat) :=
  match budget with
  | O => exhausted
  | S budget' =>
      let* line := gets line_ in
      if negb (it =? end_) && negb (Ascii.eqb (deref line it) "]") then
        let* (v, (it, end_)) := parse_value budget' it end_ in
        let* c := as_value Value v in
        match c with
        | Some _ =>
            let* _ := writing (λ mem, Array.push_back mem arr v) in
            let* (it, end_) := skip_whitespace_and_comments it end_ in
            let* line := gets line_ in
            if negb (Ascii.eqb (deref line it) ",") then ret (it, end_)
            else
              let it := S it in
              let* (it, end_) := skip_whitespace_and_comments it end_ in
              parse_value_array_loop budget' Value arr it end_
        | None => throw_parse_exception "Arrays must be heterogeneous"
        end
      else ret (it, end_)
  end

with parse_nested_array (budget : nat) (it end_ : nat) {struct budget}
  : M (ptr * (nat * nat)) :=
  match budget with
  | O => exhausted
  | S budget' =>
      let* arr := new (array []) in
      let* (it, end_) := parse_nested_array_loop budget' arr it end_ in
      let it := if negb (it =? end_) then S it else it in
      ret (arr, (it, end_))
  end

with parse_nested_array_loop (budget : nat) (arr : ptr) (it end_ : nat)
    {struct budget} : M (nat * nat) :=
  match budget with
  | O => exhausted
  | S budget' =>
      let* line := gets line_ in
      if negb (it =? end_) && negb (Ascii.eqb (deref line it) "]") then
        let* (a, (it, end_)) := parse_array budget' it end_ in
        let* _ := writing (λ mem, Array.push_back mem arr a) in
        let* (it, end_) := skip_whitespace_and_comments it end_ in
        let* line := gets line_ in
        if negb (Ascii.eqb (deref line it) ",") then ret (it, end_)
        else
          let it := S it in
          let* (it, end_) := skip_whitespace_and_comments it end_ in
          parse_nested_array_loop budget' arr it end_
      else ret (it, end_)
  end.

(** The characters still to be read, on the current line and in the stream,
    bound the calls of the functions above: every call and every turn of a
    loop consumes one. *)
Definition value_budget (st : state) : nat :=
  6 * (String.length (line_ st)
       + list_sum (map (λ l, S (String.length l)) (input_ st)) + 1).

Definition parse_key_value (it end_ : nat) (curr_table : ptr) : M unit :=
  let* (key, it) := parse_key it end_ in
  let* c := reading (λ mem, Table.contains mem curr_table key) in
  if c then throw_parse_exception ("Key " +:+ key +:+ " already present")
  else
    let* line := gets line_ in
    if negb (Ascii.eqb (deref line it) "=")
    then throw_parse_exception "Value must follow after a '='"
    else
      let it := S it in
      let it := consume_whitespace line it end_ in
      let* budget := gets value_budget in
      let* (v, (it, end_)) := parse_value budget it end_ in
      let* _ := writing (λ mem, Table.insert mem curr_table key v) in
      let* line := gets line_ in
      let it := consume_whitespace line it end_ in
      eol_or_comment it end_.

(** *** The main loop *)

(** One turn of the [while] loop of [parse], after [std::getline] has
    delivered a line: the table the cursor [curr_table] points to
    afterwards. *)
Definition parse_line (root curr_table : ptr) : M ptr :=
  let* _ := next_line_number in
  let* line := gets line_ in
  let it := 0 in
  let end_ := String.length line in
  let it := consume_whitespace line it end_ in
  if (it =? end_) || Ascii.eqb (deref line it) "#" then ret curr_table
  else if Ascii.eqb (deref line it) "[" then
    let curr_table := root in
    parse_table it end_ curr_table
  else
    let* _ := parse_key_value it end_ curr_table in
    ret curr_table.

(** The [while (std::getline(input_, line_))] loop; every turn takes a line
    from [input_], so [length input_] turns are enough. *)
Fixpoint parse_loop (budget : nat) (root curr_table : ptr) : M unit :=
  let* more := getline in
  if more then
    match budget with
    | O => exhausted
    | S budget' =>
        let* curr_table := parse_line root curr_table in
        parse_loop budget' root curr_table
    end
  else ret tt.

(** [parser::parse]: the root table it returns. *)
Definition parse : M ptr :=
  let* root := new (table ∅) in
  let curr_table := root in
  let* budget := gets (λ st, length (input_ st)) in
  let* _ := parse_loop budget root curr_table in
  let* _ := (λ st, Ret (tt, set_tables ∅ st)) in
  ret root.

End build.

End Parser.

(** A parsed document: the root table and the store its nodes are in. *)
Record document := mk_document { root : ptr; nodes : memory }.

(** A parser constructed on a stream, and [parse] called on it. *)
Definition parser (stream : string) : state :=
  mk_state [] (stream_lines stream) EmptyString 0 ∅.

Definition parse_stream (CPPTOML_HAS_STD_REGEX : bool) (stream : string)
  : outcome document :=
  let! r := Parser.parse CPPTOML_HAS_STD_REGEX (parser stream) in
  Ret (mk_document (fst r) (store (snd r))).

(** ** Writing documents *)

(** A double quote cannot stand inside a string of this file: in the
    documents below an apostrophe is written for it, and [with_quotes] puts
    the double quotes back. *)
Fixpoint with_quotes (s : string) : string :=
  match s with
  | EmptyString => EmptyString
  | String c rest =>
      String (if Ascii.eqb c "'" then "034"%char else c) (with_quotes rest)
  end.

(** The specification quotes the messages of the parser in lower case. *)
Definition lowercase_ascii (c : ascii) : ascii :=
  let n := nat_of_ascii c in
  if (65 <=? n) && (n <=? 90) then ascii_of_nat (n + 32) else c.

Fixpoint lowercase (s : string) : string :=
  match s with
  | EmptyString => EmptyString
  | String c rest => String (lowercase_ascii c) (lowercase rest)
  end.

(** The end-to-end example of the specification. *)
Definition demo_document : string := with_quotes
"title = 'demo'
[owner]
name = 'Tom'
[[fruit]]
name = 'apple'
[[fruit]]
name = 'banana'
".

(** ** What [split] computes *)

(** The parts of [value] between separators, by recursion on the text: the
    list [split] returns (lemma [split_parts_correct]). *)
Fixpoint split_parts (value : string) (separator : ascii) : list string :=
  match value with
  | EmptyString => [EmptyString]
  | String c rest =>
      if Ascii.eqb c separator then EmptyString :: split_parts rest separator
      else match split_parts rest separator with
           | part :: parts => String c part :: parts
           | [] => [String c EmptyString]
           end
  end.

(** [c] occurs in [s]. *)
Fixpoint occurs (c : ascii) (s : string) : bool :=
  match s with
  | EmptyString => false
  | String x rest => Ascii.eqb x c || occurs c rest
  end.

(** The qualified key [a.b.c]. *)
Definition dotted (a b c : string) : string :=
  a +:+ String "." (b +:+ String "." c).

(** ** Vocabulary of the statements *)

(** The kind [as<T>] asks for does not match the node [n]. *)
Definition not_value_of (T : value_type) (n : base) : Prop :=
  ∀ d, n = value d → type_of d ≠ T.

(** [get(key)->as<T>()->get()]: the calls of [table::get], [base::as<T>] and
    [value<T>::get] with which a value of type [T] is read from under [key];
    [None] when [as<T>] gives [nullptr]. *)
Definition read_as (T : value_type) (mem : memory) (this : ptr) (key : string)
  : outcome (option datum) :=
  let! b := Table.get mem this key in
  let! v := as_ T mem b in
  match v with
  | Some v => let! d := value_get mem v in Ret (Some d)
  | None => Ret None
  end.

(** Partial correctness of a computation: whenever [c] returns from [st],
    [Q] holds of what it returns and of the state it leaves. *)
Definition returns {A} (c : M A) (st : state) (Q : A → state → Prop) : Prop :=
  ∀ a st', c st = Ret (a, st') → Q a st'.

(** How a node may change while the parser runs: a value never does, an array
    and a table-array only grow at the end, a table only gains keys. *)
Definition node_le (n n' : base) : Prop :=
  match n, n' with
  | value d, value d' => d = d'
  | array a, array a' => a `prefix_of` a'
  | table_array a, table_array a' => a `prefix_of` a'
  | table m, table m' => m ⊆ m'
  | _, _ => False
  end.

Definition store_le (mem mem' : memory) : Prop :=
  ∀ p n, mem !! p = Some n → ∃ n', mem' !! p = Some n' ∧ node_le n n'.

(** The elements of an array are all values of one type among the four
    [parse_array] builds arrays of, or all arrays. *)
Definition element_type (T : value_type) : Prop :=
  T = t_string ∨ T = t_int64 ∨ T = t_double ∨ T = t_tm.

Definition all_values (mem : memory) (T : value_type) (a : list ptr) : Prop :=
  ∀ p, p ∈ a → ∃ d, mem !! p = Some (value d) ∧ type_of d = T.

Definition all_arrays (mem : memory) (a : list ptr) : Prop :=
  ∀ p, p ∈ a → ∃ a', mem !! p = Some (array a').

Definition homogeneous (mem : memory) (a : list ptr) : Prop :=
  (∃ T, element_type T ∧ all_values mem T a) ∨ all_arrays mem a.

Definition arrays_ok (mem : memory) : Prop :=
  ∀ p a, mem !! p = Some (array a) → homogeneous mem a.

(** What every step of the parser maintains. *)
Definition evolves (st st' : state) : Prop :=
  store_le (store st) (store st')
  ∧ tables_ st ⊆ tables_ st'
  ∧ (arrays_ok (store st) → arrays_ok (store st')).

(** What the functions that only read the line and the stream maintain, and
    what those that build values maintain. *)
Definition same_store (st st' : state) : Prop :=
  store st' = store st ∧ tables_ st' = tables_ st.

Definition grows (st st' : state) : Prop :=
  store st `prefix_of` store st'
  ∧ tables_ st' = tables_ st
  ∧ (arrays_ok (store st) → arrays_ok (store st')).

(** [c] relates the state it starts from and the state it returns in by
    [R]. *)
Definition keeps (R : relation state) {A} (c : M A) : Prop :=
  ∀ st, returns c st (λ _ st', R st st').

(** *** Turns of the main loop *)

(** One turn of the [while] loop of [parse] that runs to its end: a line is
    read and handled without an exception; the state is the cursor
    [curr_table] and the parser's state. *)
Definition turn (regex : bool) (root : ptr) (curr_table : ptr) : M ptr :=
  let* _ := getline in
  Parser.parse_line regex root curr_table.

Inductive turns (regex : bool) (root : ptr)
  : ptr * state → ptr * state → Prop :=
| turns_refl cs : turns regex root cs cs
| turns_step c st c' st' cs'' :
    input_ st ≠ [] →
    turn regex root c st = Ret (c', st') →
    turns regex root (c', st') cs'' →
    turns regex root (c, st) cs''.

(** What a loop that fills the array [arr] maintains: below the nodes it
    allocates, only [arr] changes, and its elements satisfy [P]. *)
Definition fills (arr : ptr) (P : memory → list ptr → Prop)
    (st st' : state) : Prop :=
  ∃ a' k,
    store st' = <[arr := array a']> (store st) ++ k
    ∧ P (store st') a'
    ∧ tables_ st' = tables_ st
    ∧ (arrays_ok (store st) → arrays_ok (store st')).

(** *** Header lines *)

(** The lines [[name]] and [[[name]]]. *)
Definition single_header (name : string) : string :=
  String "[" (name +:+ String "]" EmptyString).

Definition array_header (name : string) : string :=
  String "[" (String "[" (name +:+ String "]" (String "]" EmptyString))).

(** A table name that can stand between the brackets: not empty and without
    a bracket of its own. *)
Definition plain (name : string) : Prop :=
  name ≠ EmptyString ∧ occurs "[" name = false ∧ occurs "]" name = false.

(** The state in which [parse_line] runs its body: the line counter has moved
    to the line just read. *)
Definition counted (st : state) : state :=
  mk_state (store st) (input_ st) (line_ st) (S (line_number_ st)) (tables_ st).

(** The state [std::getline] leaves when it delivers the line [l]. *)
Definition delivered (l : string) (rest : list string) (st : state) : state :=
  mk_state (store st) rest l (line_number_ st) (tables_ st).

(** What the loop of [parse_table_array] does with the part that ends the
    name (the branches [it == kg_end] of its body): the table-array under
    [part], made first when the key is new, gets a fresh empty table, which
    becomes the current table. *)
Definition last_part (curr_table : ptr) (part : string) : M ptr :=
  let* c := reading (λ mem, Table.contains mem curr_table part) in
  if c then
    let* b := reading (λ mem, Table.get mem curr_table part) in
    let* n := reading (λ mem, load mem b) in
    if negb (is_table_array n)
    then Parser.throw_parse_exception "Expected keytable array"
    else
      let* t := new (table ∅) in
      let* _ := writing (λ mem, TableArray.push_back mem b t) in
      reading (λ mem, TableArray.back mem b)
  else
    let* a := new (table_array []) in
    let* _ := writing (λ mem, Table.insert mem curr_table part a) in
    let* arr := reading (λ mem, Table.get mem curr_table part) in
    let* t := new (table ∅) in
    let* _ := writing (λ mem, TableArray.push_back mem arr t) in
    reading (λ mem, TableArray.back mem arr).

(** *** The header walk and the resolver *)

(** The name [parse_single_table] reads between the brackets. *)
Definition table_name (line : string) (it end_ : nat) : string :=
  substr line it (find "]" line it end_).

(** The statement that the walk of a single-table header and the resolver of
    qualified keys give every path the same meaning: the table the walk ends
    in is the one [get_table_qualified] finds under the header's name. *)
Definition header_walk_is_lookup : Prop :=
  ∀ (st : state) (it end_ : nat) (curr_table t : ptr) (st' : state),
    Parser.parse_single_table it end_ curr_table st = Ret (t, st') →
    Table.get_table_qualified (store st') curr_table
                              (table_name (line_ st) it end_)
    = Ret (Some t).

(** The state after the line [[[fruit]]]: the root with its table-array of one
    table; the line [[fruit.x]] has been read. *)
Definition after_fruit : state :=
  mk_state [table (<["fruit" := 1]> ∅); table_array [2]; table ∅]
           [] "[fruit.x]" 2 ∅.

(** *** Concrete stores and states *)

(** The tables [a], [a.b] and the key [a.b.c] with an integer under it. *)
Definition abc_store : memory :=
  [table (<["a" := 1]> ∅); table (<["b" := 2]> ∅); table (<["c" := 3]> ∅);
   value (d_int64 7)].

(** A parser on an empty root table that has read the line [l] as its line
    number 1 and has [rest] to come. *)
Definition reading_line (l : string) (rest : list string) : state :=
  mk_state [table ∅] rest l 1 ∅.

(** A parser on an empty root table, about to read [lines]. *)
Definition about_to_read (lines : list string) : state :=
  mk_state [table ∅] lines EmptyString 0 ∅.

(** *** Reading the stream *)

(** No function of the parser puts lines back into the stream. *)
Definition shrinks (st st' : state) : Prop :=
  length (input_ st') ≤ length (input_ st).

(** The state of [parse] when it enters its loop on the stream [stream]: the
    root table is the first node of the store. *)
Definition entering_loop (stream : string) : state :=
  set_store [table ∅] (parser stream).

(** *** Budgets *)

(** [c] never runs out of budget. *)
Definition steady {A} (c : M A) : Prop := ∀ st, c st ≠ Exhausted.

(** From [st], [c] does not run out of budget, and [Q] holds when it
    returns. *)
Definition total {A} (c : M A) (st : state) (Q : A → state → Prop) : Prop :=
  match c st with
  | Ret (a, st') => Q a st'
  | Exhausted => False
  | _ => True
  end.

(** The characters still to be read: those of the current line from [it] on,
    and the lines of the stream, each with its line end. *)
Definition remaining (st : state) (it : nat) : nat :=
  (String.length (line_ st) - it)
  + list_sum (map (λ l, S (String.length l)) (input_ st)).

(** The iterators [it] and [end] are in their line. *)
Definition in_line (st : state) (it end_ : nat) : Prop :=
  end_ = String.length (line_ st) ∧ it ≤ end_.

(** What the functions that stay on their line maintain. *)
Definition same_line (st st' : state) : Prop :=
  line_ st' = line_ st ∧ input_ st' = input_ st.

(** What the functions that read one value maintain: they stay on their line
    and move [it] forward. *)
Definition advances (st : state) (it end_ : nat) (it' : nat) (st' : state)
  : Prop :=
  same_line st st' ∧ it < it' ≤ end_.

(** *** Line numbers *)

(** An exception of the parser carries its line, unless it is the one for
    white space in a table name. Exceptions of the standard library are not
    concerned. *)
Definition located (e : exception) : Prop :=
  match e with
  | parse_exception msg None =>
      ∃ name, msg = "Table name " +:+ name +:+ " cannot have whitespace"
  | _ => True
  end.

Definition throws_located {A} (c : M A) : Prop :=
  ∀ st e, c st = Throw e → located e.

(** *** Joining parts *)

(** The parts [parts] written one after the other with [separator] between
    them. *)
Fixpoint join (separator : ascii) (parts : list string) : string :=
  match parts with
  | [] => EmptyString
  | [part] => part
  | part :: parts' => part +:+ String separator (join separator parts')
  end.

(** The number of times [c] occurs in [s]. *)
Fixpoint count_char (c : ascii) (s : string) : nat :=
  match s with
  | EmptyString => 0
  | String x rest => (if Ascii.eqb x c then 1 else 0) + count_char c rest
  end.

(** *** Lines without content *)

(** The lines the loop of [parse] passes over: after the white space at the
    start, the line ends or a comment begins. *)
Definition blank_or_comment (l : string) : bool :=
  let it := Parser.consume_whitespace l 0 (String.length l) in
  (it =? String.length l) || Ascii.eqb (deref l it) "#".

(** *** Counting lines *)

(** Inside a line, every line taken from the stream is counted. *)
Definition counts (st st' : state) : Prop :=
  line_number_ st ≤ line_number_ st'
  ∧ line_number_ st' + length (input_ st')
    = line_number_ st + length (input_ st).

(** The exceptions of the standard library. *)
Definition library (e : exception) : Prop :=
  match e with
  | parse_exception _ _ => False
  | _ => True
  end.

(** The line number of [e], when it has one, lies between [lo] and [hi]. *)
Definition in_range (lo hi : nat) (e : exception) : Prop :=
  match e with
  | parse_exception _ (Some n) => lo ≤ n ≤ hi
  | _ => True
  end.

(** [c] counts the lines it reads, and the line number of an exception it
    throws is that of the line being read or of a line still in the
    stream. *)
Definition numbers_lines {A} (c : M A) : Prop :=
  ∀ st,
    match c st with
    | Ret (_, st') => counts st st'
    | Throw e =>
        in_range (line_number_ st) (line_number_ st + length (input_ st)) e
    | _ => True
    end.

(** *** Assignments *)

(** A key that can stand without quotes at the start of a line: it is not
    empty, does not begin like a header or a quoted key, and holds no white
    space, no [#], no [=] and no line end. *)
Definition bare (key : string) : bool :=
  match key with
  | EmptyString => false
  | String c _ =>
      negb (Ascii.eqb c "[") && negb (Ascii.eqb c "034")
      && negb (occurs " " key) && negb (occurs "009" key)
      && negb (occurs "#" key) && negb (occurs "=" key)
      && negb (occurs "010" key)
  end.

(** The line that assigns the value written [text] to [key]. *)
Definition assignment (key text : string) : string :=
  key +:+ String " " (String "=" (String " " text)).

(** *** Writing strings *)

(** A character as it is written inside a string literal: the characters
    that have an escape code of their own are written with it, the quote and
    the backslash after a backslash, any other character as it is. *)
Definition escape_char (c : ascii) : string :=
  if Ascii.eqb c "008" then "\b"
  else if Ascii.eqb c "009" then "\t"
  else if Ascii.eqb c "010" then "\n"
  else if Ascii.eqb c "012" then "\f"
  else if Ascii.eqb c "013" then "\r"
  else if Ascii.eqb c "034" then String "\" (String "034" EmptyString)
  else if Ascii.eqb c "\" then "\\"
  else String c EmptyString.

Fixpoint escape (s : string) : string :=
  match s with
  | EmptyString => EmptyString
  | String c rest => escape_char c +:+ escape rest
  end.

(** The string literal for [s]. *)
Definition quoted (s : string) : string :=
  String "034" (escape s +:+ String "034" EmptyString).

(** *** Writing integers *)

(** The decimal text of an integer: its digits, after a minus sign when it is
    negative. *)
Definition integer_text (z : Z) : string :=
  if (z <? 0)%Z then String "-" (to_string (Z.to_nat (- z)))
  else to_string (Z.to_nat z).

(** [s] is made of digits. *)
Fixpoint digits_only (s : string) : bool :=
  match s with
  | EmptyString => true
  | String c rest => is_number c && digits_only rest
  end.

(** [s] is made of spaces and tabs. *)
Fixpoint blanks_only (s : string) : bool :=
  match s with
  | EmptyString => true
  | String c rest => is_blank c && blanks_only rest
  end.

(** *** New nodes *)

(** The store has not lost nodes. *)
Definition longer (st st' : state) : Prop :=
  length (store st) ≤ length (store st').

(** [c] returns a node that it has made. *)
Definition makes_node {A} (c : M (ptr * A)) : Prop :=
  ∀ st, returns c st (λ r st', length (store st) ≤ r.1 < length (store st')).

(** *** Writing booleans *)

Definition boolean_text (b : bool) : string := if b then "true" else "false".

(** *** Writing dates *)

Definition two_digits (n : nat) : string :=
  String (digit_char (n / 10)) (String (digit_char (n mod 10)) EmptyString).

(** [YYYY-MM-DDThh:mm:ssZ], for a year of four digits and the other fields
    below 100. *)
Definition date_text (year month day hour min sec : nat) : string :=
  two_digits (year / 100) +:+ two_digits (year mod 100)
  +:+ String "-" (two_digits month) +:+ String "-" (two_digits day)
  +:+ String "T" (two_digits hour) +:+ String ":" (two_digits min)
  +:+ String ":" (two_digits sec) +:+ String "Z" EmptyString.

(** *** The rest of a line *)

(** The state [st] with another line in [line_], and an outcome with that
    line put into the state it leaves. *)
Definition set_line (l : string) (st : state) : state :=
  mk_state (store st) (input_ st) l (line_number_ st) (tables_ st).

Definition relined {A} (l : string) (o : outcome (A * state))
  : outcome (A * state) :=
  match o with
  | Ret (a, st) => Ret (a, set_line l st)
  | Throw e => Throw e
  | Undefined => Undefined
  | Exhausted => Exhausted
  end.

(** * Properties *)

(** ** Runs on concrete documents *)

(** C1: parsing the seven-line example succeeds; in the root table [title] is
    the string demo, [owner] is a table whose [name] is the string Tom, and
    [fruit] is a table-array of exactly two tables whose [name] is apple in
    the first and banana in the second. *)
Theorem parse_demo_document (regex : bool) :
  ∃ (d : document) (owner fruit apple banana : ptr),
    parse_stream regex demo_document = Ret d
    ∧ read_as t_string (nodes d) (root d) "title"
      = Ret (Some (d_string "demo"))
    ∧ Table.get_table (nodes d) (root d) "owner" = Ret (Some owner)
    ∧ read_as t_string (nodes d) owner "name"
      = Ret (Some (d_string "Tom"))
    ∧ Table.get_table_array (nodes d) (root d) "fruit" = Ret (Some fruit)
    ∧ TableArray.get (nodes d) fruit = Ret [apple; banana]
    ∧ read_as t_string (nodes d) apple "name"
      = Ret (Some (d_string "apple"))
    ∧ read_as t_string (nodes d) banana "name"
      = Ret (Some (d_string "banana")).
Proof.
  destruct regex; do 5 eexists;
    (split; [vm_compute; reflexivity |]);
    repeat split; vm_compute; reflexivity.
Qed.

(** C8: the line [x = 1.] is rejected with the message about trailing digits
    at line 1. The source writes the message with a capital letter; in lower
    case it is the text the specification quotes. *)
Theorem float_without_trailing_digits (regex : bool) :
  parse_stream regex "x = 1."
  = Throw (parse_exception "Floats must have trailing digits" (Some 1))
  ∧ lowercase "Floats must have trailing digits"
    = "floats must have trailing digits".
Proof. destruct regex; split; vm_compute; reflexivity. Qed.

(** ** Strings *)

Lemma string_find_shift (x : ascii) (s : string) (c : ascii) (p : nat) :
  Table.string_find (String x s) c (S p) = S <$> Table.string_find s c p.
Proof. reflexivity. Qed.

Lemma substring_shift (x : ascii) (s : string) (p n : nat) :
  String.substring (S p) n (String x s) = String.substring p n s.
Proof. reflexivity. Qed.

Lemma substring_all (s : string) : String.substring 0 (String.length s) s = s.
Proof. induction s as [|x s IH]; simpl; [done | by rewrite IH]. Qed.

Lemma split_loop_shift (budget : nat) (x : ascii) (s : string) (c : ascii)
    (p : nat) (res : list string) :
  Table.split_loop budget (String x s) c (S p) res
  = Table.split_loop budget s c p res.
Proof.
  revert p res. induction budget as [|budget IH]; intros p res; simpl;
    destruct (Table.string_find s c p) as [q|]; simpl; done.
Qed.

Lemma split_loop_acc (budget : nat) (s : string) (c : ascii) (p : nat)
    (res : list string) :
  Table.split_loop budget s c p res
  = let! parts := Table.split_loop budget s c p [] in Ret (res ++ parts).
Proof.
  revert p res. induction budget as [|budget IH]; intros p res; simpl;
    destruct (Table.string_find s c p) as [q|]; simpl; try done.
  rewrite IH. rewrite (IH _ [_]).
  destruct (Table.split_loop budget s c (q + 1) []); simpl; try done.
  by rewrite <- app_assoc.
Qed.

Lemma string_find_none_parts (s : string) (c : ascii) :
  Table.string_find s c 0 = None → split_parts s c = [s].
Proof.
  induction s as [|x s IH]; simpl; [done |].
  destruct (Ascii.eqb x c); [done |].
  destruct (Table.string_find s c 0); [done |]. intros _. by rewrite IH.
Qed.

Lemma split_loop_parts (s : string) (c : ascii) (budget : nat) :
  String.length s < budget →
  Table.split_loop budget s c 0 [] = Ret (split_parts s c).
Proof.
  revert budget. induction s as [|x s IH]; intros budget Hb.
  - destruct budget; done.
  - destruct budget as [|budget]; [simpl in Hb; lia |].
    simpl in Hb. cbn [Table.split_loop Table.string_find split_parts].
    destruct (Ascii.eqb x c) eqn:Hx.
    + cbn. rewrite split_loop_shift, split_loop_acc, IH by lia. done.
    + destruct (Table.string_find s c 0) as [q|] eqn:Hq; cbn.
      * rewrite split_loop_shift, split_loop_acc.
        specialize (IH (S budget) ltac:(lia)).
        cbn [Table.split_loop] in IH. rewrite Hq in IH.
        rewrite split_loop_acc in IH.
        replace (q - 0) with q in IH by lia.
        destruct (Table.split_loop budget s c (q + 1) []); try done.
        cbn in IH. injection IH as <-. done.
      * rewrite substring_all. by rewrite (string_find_none_parts s c Hq).
Qed.

Lemma split_parts_correct (value : string) (separator : ascii) :
  Table.split value separator = Ret (split_parts value separator).
Proof. apply split_loop_parts. lia. Qed.

Lemma split_parts_no_separator (s : string) (c : ascii) :
  occurs c s = false → split_parts s c = [s].
Proof.
  induction s as [|x s IH]; simpl; [done |].
  destruct (Ascii.eqb x c); [done |]. intros H. by rewrite IH.
Qed.

Lemma split_parts_app (a rest : string) (c : ascii) :
  occurs c a = false →
  split_parts (a +:+ String c rest) c = a :: split_parts rest c.
Proof.
  induction a as [|x a IH]; simpl.
  - by rewrite Ascii.eqb_refl.
  - destruct (Ascii.eqb x c); [done |]. intros H. by rewrite IH.
Qed.

Lemma split_dotted (a b c : string) :
  occurs "." a = false → occurs "." b = false → occurs "." c = false →
  Table.split (dotted a b c) "." = Ret [a; b; c].
Proof.
  intros Ha Hb Hc. rewrite split_parts_correct. unfold dotted.
  by rewrite !split_parts_app, split_parts_no_separator.
Qed.

(** ** Lookups in a table *)

Lemma map_of_table (mem : memory) (t : ptr) (m : gmap string ptr) :
  mem !! t = Some (table m) → Table.map_of mem t = Ret m.
Proof. intros H. unfold Table.map_of, load. by rewrite H. Qed.

Lemma map_of_inv (mem : memory) (t : ptr) (m : gmap string ptr) :
  Table.map_of mem t = Ret m → mem !! t = Some (table m).
Proof.
  unfold Table.map_of, load. destruct (mem !! t) as [[]|]; simpl; congruence.
Qed.

Lemma get_inv (mem : memory) (t : ptr) (key : string) (b : ptr) :
  Table.get mem t key = Ret b →
  ∃ m, mem !! t = Some (table m) ∧ m !! key = Some b.
Proof.
  unfold Table.get. destruct (Table.map_of mem t) as [m| | |] eqn:Hm; try done.
  simpl. destruct (m !! key) eqn:Hk; [|done]. intros [= <-].
  exists m. split; [by apply map_of_inv | done].
Qed.

Lemma get_throw_inv (mem : memory) (t : ptr) (key : string) (e : exception) :
  Table.get mem t key = Throw e →
  ∃ m, mem !! t = Some (table m) ∧ m !! key = None.
Proof.
  unfold Table.get. destruct (Table.map_of mem t) as [m| | |] eqn:Hm; try done.
  - simpl. destruct (m !! key) eqn:Hk; [done|]. intros _.
    exists m. split; [by apply map_of_inv | done].
  - unfold Table.map_of, load in Hm.
    destruct (mem !! t) as [[]|]; simpl in Hm; congruence.
Qed.

Lemma get_table_Some_inv (mem : memory) (t : ptr) (key : string) (t' : ptr) :
  Table.get_table mem t key = Ret (Some t') →
  ∃ m m', mem !! t = Some (table m) ∧ m !! key = Some t'
          ∧ mem !! t' = Some (table m').
Proof.
  unfold Table.get_table, Table.contains, Table.get, load.
  destruct (Table.map_of mem t) as [m| | |] eqn:Hm; try done. simpl.
  destruct (m !! key) as [b|] eqn:Hk; [|done]. simpl.
  destruct (mem !! b) as [n|] eqn:Hb; [|done]. simpl.
  destruct n as [| | |m']; simpl; try done.
  intros [= <-]. exists m, m'. split_and!; [by apply map_of_inv | done..].
Qed.

(** [get_table] answers [nullptr] exactly when the key is absent or maps to a
    node that is not a table. *)
Lemma get_table_None (mem : memory) (t : ptr) (m : gmap string ptr)
    (key : string) :
  mem !! t = Some (table m) →
  (m !! key = None
   ∨ ∃ b n, m !! key = Some b ∧ mem !! b = Some n ∧ is_table n = false) →
  Table.get_table mem t key = Ret None.
Proof.
  intros Ht H. unfold Table.get_table, Table.contains, Table.get.
  rewrite (map_of_table _ _ _ Ht). simpl.
  destruct H as [-> | (b & n & -> & Hb & Hn)]; [done |].
  simpl. unfold load. rewrite Hb. simpl. by rewrite Hn.
Qed.

(** C4: for parts [a], [b], [c] without a dot, [get_qualified] on [a.b.c]
    returns the node that [get_table(a)], [get_table(b)] and [get(c)] reach one
    after the other; and it throws [std::out_of_range] when [a] or [b] does
    not lead to a table (absent, or present and not a table) or when [c] is
    absent from the last table. *)
Theorem get_qualified_dotted (mem : memory) (root : ptr) (a b c : string) :
  occurs "." a = false → occurs "." b = false → occurs "." c = false →
  (∀ ta tb n,
     Table.get_table mem root a = Ret (Some ta) →
     Table.get_table mem ta b = Ret (Some tb) →
     Table.get mem tb c = Ret n →
     Table.get_qualified mem root (dotted a b c) = Ret n)
  ∧ (Table.get_table mem root a = Ret None →
     ∃ w, Table.get_qualified mem root (dotted a b c) = Throw (out_of_range w))
  ∧ (∀ ta,
       Table.get_table mem root a = Ret (Some ta) →
       Table.get_table mem ta b = Ret None →
       ∃ w, Table.get_qualified mem root (dotted a b c)
            = Throw (out_of_range w))
  ∧ (∀ ta tb e,
       Table.get_table mem root a = Ret (Some ta) →
       Table.get_table mem ta b = Ret (Some tb) →
       Table.get mem tb c = Throw e →
       ∃ w, Table.get_qualified mem root (dotted a b c)
            = Throw (out_of_range w)).
Proof.
  intros Ha Hb Hc.
  unfold Table.get_qualified, Table.resolve_qualified.
  rewrite (split_dotted a b c Ha Hb Hc). cbn [obind reverse rev_append].
  repeat split.
  - intros ta tb n Ha' Hb' Hn. cbn [Table.descend]. rewrite Ha'.
    cbn [obind Table.descend]. rewrite Hb'. cbn [obind Table.descend].
    apply get_inv in Hn as (m & Hm & Hk).
    rewrite (map_of_table _ _ _ Hm). cbn. by rewrite Hk.
  - intros Ha'. cbn [Table.descend]. rewrite Ha'. cbn. eauto.
  - intros ta Ha' Hb'. cbn [Table.descend]. rewrite Ha'.
    cbn [obind Table.descend]. rewrite Hb'. cbn. eauto.
  - intros ta tb e Ha' Hb' He. cbn [Table.descend]. rewrite Ha'.
    cbn [obind Table.descend]. rewrite Hb'. cbn [obind Table.descend].
    apply get_throw_inv in He as (m & Hm & Hk).
    rewrite (map_of_table _ _ _ Hm). cbn. rewrite Hk. eauto.
Qed.

(** ** Misses *)

Lemma resolve_qualified_modes (mem : memory) (t : ptr) (key : string) :
  match Table.resolve_qualified mem t key false with
  | Ret (true, _) =>
      ∃ b, Table.resolve_qualified mem t key true = Ret (true, Some b)
  | Ret (false, _) =>
      ∃ w, Table.resolve_qualified mem t key true = Throw (out_of_range w)
  | Throw _ => False
  | Undefined => Table.resolve_qualified mem t key true = Undefined
  | Exhausted => Table.resolve_qualified mem t key true = Exhausted
  end.
Proof.
  unfold Table.resolve_qualified.
  destruct (Table.split key ".") as [parts| | |] eqn:Hs; try done.
  - simpl. destruct (reverse parts) as [|last_key rev_parts]; [done |].
    destruct (Table.descend mem t (reverse rev_parts)) as [[t'|]| | |] eqn:Hd;
      simpl; try done; [| eauto |].
    + destruct (Table.map_of mem t') as [m| | |] eqn:Hm; simpl; try done.
      * destruct (m !! last_key); eauto.
      * unfold Table.map_of, load in Hm.
        destruct (mem !! t') as [[]|]; simpl in Hm; congruence.
    + clear -Hd. exfalso. revert t Hd.
      induction (reverse rev_parts) as [|p ps IH]; intros t; simpl; [done |].
      destruct (Table.get_table mem t p) as [[t'|]| | |] eqn:Ht; simpl;
        try done; [by apply IH |].
      unfold Table.get_table, Table.contains, Table.get, Table.map_of, load in Ht.
      destruct (mem !! t) as [[]|]; simpl in Ht; try done.
      destruct (map_ !! p) as [b|]; simpl in Ht; try done.
      destruct (mem !! b) as [n|]; simpl in Ht; try done.
      destruct (is_table n); simpl in Ht; done.
  - unfold Table.split in Hs. exfalso. revert Hs.
    generalize (S (String.length key)) 0 (@nil string).
    intros n. induction n as [|n IH]; intros p res; simpl;
      destruct (Table.string_find key "." p); try done. apply IH.
Qed.

Lemma contains_qualified_false (mem : memory) (t : ptr) (key : string) :
  Table.contains_qualified mem t key = Ret false →
  ∃ w, Table.get_qualified mem t key = Throw (out_of_range w).
Proof.
  unfold Table.contains_qualified, Table.get_qualified.
  pose proof (resolve_qualified_modes mem t key) as H.
  destruct (Table.resolve_qualified mem t key false) as [[[] ?]| | |];
    simpl; try done.
  intros _. destruct H as [w ->]. eauto.
Qed.

Lemma contains_qualified_true (mem : memory) (t : ptr) (key : string) :
  Table.contains_qualified mem t key = Ret true →
  ∃ b, Table.get_qualified mem t key = Ret b.
Proof.
  unfold Table.contains_qualified, Table.get_qualified.
  pose proof (resolve_qualified_modes mem t key) as H.
  destruct (Table.resolve_qualified mem t key false) as [[[] ?]| | |];
    simpl; try done.
  intros _. destruct H as [b ->]. eauto.
Qed.

Lemma get_qualified_contains (mem : memory) (t : ptr) (key : string) (b : ptr) :
  Table.get_qualified mem t key = Ret b →
  Table.contains_qualified mem t key = Ret true.
Proof.
  unfold Table.contains_qualified, Table.get_qualified.
  pose proof (resolve_qualified_modes mem t key) as H.
  destruct (Table.resolve_qualified mem t key false) as [[[] ?]| | |];
    simpl; try done.
  - destruct H as [w ->]. done.
  - by rewrite H.
  - by rewrite H.
Qed.

(** X18: on a table, [get] and [get_qualified] throw [std::out_of_range] for
    a key that is absent, while [get_table], [get_array], [get_table_array]
    and their qualified forms return [nullptr], both for an absent key and for
    a key whose node is of another kind; and none of these six throws on any
    input. *)
Theorem typed_lookups_miss (mem : memory) (t : ptr) (m : gmap string ptr)
    (key : string) :
  mem !! t = Some (table m) →
  (m !! key = None →
     (∃ w, Table.get mem t key = Throw (out_of_range w))
     ∧ Table.get_table mem t key = Ret None
     ∧ Table.get_array mem t key = Ret None
     ∧ Table.get_table_array mem t key = Ret None)
  ∧ (∀ b n, m !! key = Some b → mem !! b = Some n →
       (is_table n = false → Table.get_table mem t key = Ret None)
       ∧ (is_array n = false → Table.get_array mem t key = Ret None)
       ∧ (is_table_array n = false →
          Table.get_table_array mem t key = Ret None))
  ∧ (Table.contains_qualified mem t key = Ret false →
       (∃ w, Table.get_qualified mem t key = Throw (out_of_range w))
       ∧ Table.get_table_qualified mem t key = Ret None
       ∧ Table.get_array_qualified mem t key = Ret None
       ∧ Table.get_table_array_qualified mem t key = Ret None)
  ∧ (∀ b n, Table.get_qualified mem t key = Ret b → mem !! b = Some n →
       (is_table n = false → Table.get_table_qualified mem t key = Ret None)
       ∧ (is_array n = false → Table.get_array_qualified mem t key = Ret None)
       ∧ (is_table_array n = false →
          Table.get_table_array_qualified mem t key = Ret None))
  ∧ (∀ e, Table.get_table mem t key ≠ Throw e
          ∧ Table.get_array mem t key ≠ Throw e
          ∧ Table.get_table_array mem t key ≠ Throw e
          ∧ Table.get_table_qualified mem t key ≠ Throw e
          ∧ Table.get_array_qualified mem t key ≠ Throw e
          ∧ Table.get_table_array_qualified mem t key ≠ Throw e).
Proof.
  intros Ht. pose proof (map_of_table _ _ _ Ht) as Hm. split_and!.
  - intros Hk.
    unfold Table.get_table, Table.get_array,
      Table.get_table_array, Table.contains, Table.get.
    rewrite Hm. cbn. rewrite Hk. cbn. eauto 10.
  - intros b n Hk Hb.
    unfold Table.get_table, Table.get_array,
      Table.get_table_array, Table.contains, Table.get, as_array,
      as_table_array, load.
    rewrite Hm. cbn. rewrite Hk. cbn. rewrite Hb. cbn. split_and!.
    + by intros ->.
    + by intros ->.
    + by intros ->.
  - intros Hc. destruct (contains_qualified_false _ _ _ Hc) as [w Hg].
    unfold Table.get_table_qualified,
      Table.get_array_qualified, Table.get_table_array_qualified.
    rewrite Hc, Hg. cbn. eauto 10.
  - intros b n Hg Hb. pose proof (get_qualified_contains _ _ _ _ Hg) as Hc.
    unfold Table.get_table_qualified,
      Table.get_array_qualified, Table.get_table_array_qualified,
      as_array, as_table_array, load.
    rewrite Hc, Hg. cbn. rewrite Hb. cbn. split_and!.
    + by intros ->.
    + by intros ->.
    + by intros ->.
  - intros e.
    assert (Hu : Table.get_table mem t key ≠ Throw e
                 ∧ Table.get_array mem t key ≠ Throw e
                 ∧ Table.get_table_array mem t key ≠ Throw e).
    { unfold Table.get_table, Table.get_array,
        Table.get_table_array, Table.contains, Table.get, as_array,
        as_table_array, load.
      rewrite Hm. cbn. destruct (m !! key) as [b|]; cbn; [|done].
      destruct (mem !! b) as [[d| | |]|] eqn:Hb; cbn; done. }
    destruct Hu as (? & ? & ?). split_and!; try done.
    all: unfold Table.get_table_qualified,
      Table.get_array_qualified, Table.get_table_array_qualified.
    all: pose proof (resolve_qualified_modes mem t key) as Hr.
    all: unfold Table.contains_qualified, Table.get_qualified.
    all: destruct (Table.resolve_qualified mem t key false)
      as [[[] ?]| | |]; cbn; try done.
    all: try (first [rewrite Hr | destruct Hr as [x Hx]; rewrite Hx];
              cbn; try done).
    all: unfold as_array, as_table_array, load.
    all: destruct (mem !! x) as [[d| | |]|] eqn:Hb; cbn; done.
Qed.


(** ** Insertion *)

(** C10: [insert] on a key that is already present replaces its node and
    returns normally, leaving every other key and every other node alone;
    the parser, for its part, refuses a key that its current table already
    contains before it reads the value. *)
Theorem insert_replaces (mem : memory) (t : ptr) (m : gmap string ptr)
    (k : string) (old v : ptr) :
  mem !! t = Some (table m) →
  m !! k = Some old →
  (∃ mem',
     Table.insert mem t k v = Ret mem'
     ∧ Table.get mem' t k = Ret v
     ∧ (∀ k', k' ≠ k → Table.get mem' t k' = Table.get mem t k')
     ∧ (∀ p, p ≠ t → mem' !! p = mem !! p))
  ∧ (∀ regex st it end_ it' st',
       store st' = mem →
       Parser.parse_key it end_ st = Ret ((k, it'), st') →
       Parser.parse_key_value regex it end_ t st
       = Throw (parse_exception ("Key " +:+ k +:+ " already present")
                                (Some (line_number_ st')))).
Proof.
  intros Ht Hk. pose proof (map_of_table _ _ _ Ht) as Hm. split.
  - exists (<[t := table (<[k := v]> m)]> mem).
    assert (Hlt : t < length mem) by (by eapply lookup_lt_Some).
    assert (Hm' : Table.map_of (<[t := table (<[k := v]> m)]> mem) t
                  = Ret (<[k := v]> m)).
    { apply map_of_table. by rewrite list_lookup_insert_eq. }
    unfold Table.insert, Table.get. rewrite Hm, Hm'. cbn [obind]. split_and!.
    + done.
    + by rewrite lookup_insert_eq.
    + intros k' Hne. by rewrite lookup_insert_ne.
    + intros p Hne. by rewrite list_lookup_insert_ne.
  - intros regex st it end_ it' st' Hst Hkey.
    unfold Parser.parse_key_value, bind. rewrite Hkey.
    unfold reading, Table.contains. rewrite Hst, Hm. cbn. by rewrite Hk.
Qed.

(** ** Rules for [returns] *)

Lemma returns_ret {A} (a : A) (st : state) (Q : A → state → Prop) :
  Q a st → returns (ret a) st Q.
Proof. intros H a' st' [= <- <-]. done. Qed.

Lemma returns_bind {A B} (c : M A) (k : A → M B) (st : state)
    (Q : B → state → Prop) :
  returns c st (λ a st', returns (k a) st' Q) → returns (bind c k) st Q.
Proof.
  intros H b st'. unfold bind.
  destruct (c st) as [[a st1]| | |] eqn:Hc; try done.
  intros Hk. by eapply H.
Qed.

Lemma returns_mono {A} (c : M A) (st : state) (Q Q' : A → state → Prop) :
  returns c st Q → (∀ a st', Q a st' → Q' a st') → returns c st Q'.
Proof. intros H HQ a st' Hc. eauto. Qed.

Lemma returns_gets {A} (f : state → A) (st : state) (Q : A → state → Prop) :
  Q (f st) st → returns (gets f) st Q.
Proof. intros H a st' [= <- <-]. done. Qed.

Lemma returns_throw {A} (e : exception) (st : state) (Q : A → state → Prop) :
  returns (throw e) st Q.
Proof. intros a st'. done. Qed.

Lemma returns_throw_parse_exception {A} (err : string) (st : state)
    (Q : A → state → Prop) :
  returns (Parser.throw_parse_exception err) st Q.
Proof. intros a st'. done. Qed.

Lemma returns_undefined {A} (st : state) (Q : A → state → Prop) :
  returns undefined st Q.
Proof. intros a st'. done. Qed.

Lemma returns_exhausted {A} (st : state) (Q : A → state → Prop) :
  returns exhausted st Q.
Proof. intros a st'. done. Qed.

Lemma returns_reading {A} (f : memory → outcome A) (st : state)
    (Q : A → state → Prop) :
  (∀ a, f (store st) = Ret a → Q a st) → returns (reading f) st Q.
Proof.
  intros H a st'. unfold reading.
  destruct (f (store st)) eqn:Hf; simpl; try done. intros [= <- <-]. eauto.
Qed.

Lemma returns_writing (f : memory → outcome memory) (st : state)
    (Q : unit → state → Prop) :
  (∀ mem, f (store st) = Ret mem → Q tt (set_store mem st)) →
  returns (writing f) st Q.
Proof.
  intros H a st'. unfold writing.
  destruct (f (store st)) eqn:Hf; simpl; try done. intros [= <- <-]. eauto.
Qed.

Lemma returns_new (n : base) (st : state) (Q : ptr → state → Prop) :
  Q (length (store st)) (set_store (store st ++ [n]) st) →
  returns (new n) st Q.
Proof. intros H a st' [= <- <-]. done. Qed.

Lemma returns_lift {A} (o : outcome A) (st : state) (Q : A → state → Prop) :
  (∀ a, o = Ret a → Q a st) →
  returns (λ st, let! a := o in Ret (a, st)) st Q.
Proof.
  intros H a st'. destruct o; simpl; try done. intros [= <- <-]. eauto.
Qed.

(** ** The order on stores *)

Lemma node_le_refl (n : base) : node_le n n.
Proof. destruct n; simpl; done. Qed.

Lemma node_le_trans (n1 n2 n3 : base) :
  node_le n1 n2 → node_le n2 n3 → node_le n1 n3.
Proof.
  destruct n1, n2, n3; simpl; try done; try congruence.
  - intros. by etrans.
  - intros. by etrans.
  - intros. by etrans.
Qed.

Lemma store_le_refl (mem : memory) : store_le mem mem.
Proof. intros p n H. eauto using node_le_refl. Qed.

Lemma store_le_trans (m1 m2 m3 : memory) :
  store_le m1 m2 → store_le m2 m3 → store_le m1 m3.
Proof.
  intros H12 H23 p n H. destruct (H12 p n H) as (n2 & H2 & Hle2).
  destruct (H23 p n2 H2) as (n3 & H3 & Hle3).
  eauto using node_le_trans.
Qed.

Lemma store_le_alloc (mem : memory) (n : base) : store_le mem (mem ++ [n]).
Proof.
  intros p n' H. exists n'. split; [|apply node_le_refl].
  by apply lookup_app_l_Some.
Qed.

Lemma store_le_update (mem : memory) (p : ptr) (n n' : base) :
  mem !! p = Some n → node_le n n' → store_le mem (<[p := n']> mem).
Proof.
  intros Hp Hle q nq Hq. destruct (decide (q = p)) as [->|Hne].
  - exists n'. rewrite list_lookup_insert_eq by (by eapply lookup_lt_Some).
    split; [done |]. congruence.
  - exists nq. rewrite list_lookup_insert_ne by done.
    split; [done | apply node_le_refl].
Qed.

Lemma store_le_length (mem mem' : memory) :
  store_le mem mem' → length mem ≤ length mem'.
Proof.
  intros H. destruct (decide (length mem = 0)) as [|Hne]; [lia |].
  destruct (lookup_lt_is_Some_2 mem (length mem - 1)) as [n Hn]; [lia |].
  destruct (H _ _ Hn) as (n' & Hn' & _). apply lookup_lt_Some in Hn'. lia.
Qed.

(** ** Homogeneous arrays in a store *)

Lemma homogeneous_store_le (mem mem' : memory) (a : list ptr) :
  store_le mem mem' → homogeneous mem a → homogeneous mem' a.
Proof.
  intros Hle [(T & HT & Hv) | Ha].
  - left. exists T. split; [done |]. intros p Hp.
    destruct (Hv p Hp) as (d & Hd & Ht).
    destruct (Hle _ _ Hd) as (n' & Hn' & Hnle).
    destruct n'; simpl in Hnle; try done. subst. eauto.
  - right. intros p Hp. destruct (Ha p Hp) as (a' & Ha').
    destruct (Hle _ _ Ha') as (n' & Hn' & Hnle).
    destruct n'; simpl in Hnle; try done. eauto.
Qed.

Lemma arrays_ok_alloc (mem : memory) (n : base) :
  (∀ a, n = array a → a = []) → arrays_ok mem → arrays_ok (mem ++ [n]).
Proof.
  intros Hn Hok p a Hp.
  apply lookup_app_Some in Hp as [Hp | [Hlen Hp]].
  - eapply homogeneous_store_le; [apply store_le_alloc | by eapply Hok].
  - apply list_lookup_singleton_Some in Hp as [_ ->].
    rewrite (Hn a eq_refl). right. intros q Hq. by apply elem_of_nil in Hq.
Qed.

Lemma arrays_ok_update (mem : memory) (p : ptr) (n n' : base) :
  mem !! p = Some n → node_le n n' → is_array n = false →
  arrays_ok mem → arrays_ok (<[p := n']> mem).
Proof.
  intros Hp Hle Hn Hok q a Hq.
  assert (Hq' : mem !! q = Some (array a)).
  { destruct (decide (q = p)) as [->|Hne].
    - rewrite list_lookup_insert_eq in Hq by (by eapply lookup_lt_Some).
      injection Hq as ->. destruct n; simpl in *; done.
    - by rewrite list_lookup_insert_ne in Hq. }
  eapply homogeneous_store_le; [by eapply store_le_update | by eapply Hok].
Qed.

(** ** [evolves] is a preorder kept by the elementary steps *)

Lemma evolves_refl (st : state) : evolves st st.
Proof. split_and!; [apply store_le_refl | done | done]. Qed.

Lemma evolves_same (st st' : state) :
  store st' = store st → tables_ st' = tables_ st → evolves st st'.
Proof.
  intros Hs Ht. unfold evolves. rewrite Hs, Ht.
  split_and!; [apply store_le_refl | done | done].
Qed.

Lemma evolves_trans (st1 st2 st3 : state) :
  evolves st1 st2 → evolves st2 st3 → evolves st1 st3.
Proof.
  intros (H1 & H2 & H3) (H1' & H2' & H3'). split_and!.
  - by eapply store_le_trans.
  - by etrans.
  - auto.
Qed.

Global Instance evolves_preorder : PreOrder evolves.
Proof. split; [exact evolves_refl | exact evolves_trans]. Qed.

Global Instance same_store_preorder : PreOrder same_store.
Proof.
  split.
  - intros st. by split.
  - intros st1 st2 st3 [H1 H2] [H3 H4]. split; congruence.
Qed.

Lemma store_le_prefix (mem mem' : memory) :
  mem `prefix_of` mem' → store_le mem mem'.
Proof.
  intros [k ->] p n H. exists n. split; [|apply node_le_refl].
  by apply lookup_app_l_Some.
Qed.

Global Instance grows_preorder : PreOrder grows.
Proof.
  split.
  - intros st. by split_and!.
  - intros st1 st2 st3 (H1 & H2 & H3) (H1' & H2' & H3'). split_and!.
    + by etrans.
    + congruence.
    + auto.
Qed.

Lemma same_store_grows (st st' : state) : same_store st st' → grows st st'.
Proof. intros [Hs Ht]. unfold grows. rewrite Hs, Ht. by split_and!. Qed.

Lemma grows_evolves (st st' : state) : grows st st' → evolves st st'.
Proof.
  intros (H1 & H2 & H3). split_and!; [by apply store_le_prefix | | done].
  by rewrite H2.
Qed.

Lemma same_store_evolves (st st' : state) : same_store st st' → evolves st st'.
Proof. intros H. by apply grows_evolves, same_store_grows. Qed.

(** ** Rules for [keeps] *)

Section keeps_rules.
Context (R : relation state) `{!PreOrder R}.

Lemma keeps_ret {A} (a : A) : keeps R (ret a).
Proof. intros st. by apply returns_ret. Qed.

Lemma keeps_bind {A B} (c : M A) (k : A → M B) :
  keeps R c → (∀ a, keeps R (k a)) → keeps R (bind c k).
Proof.
  intros Hc Hk st. apply returns_bind.
  eapply returns_mono; [apply Hc |]. intros a st1 H1. simpl.
  eapply returns_mono; [apply Hk |]. intros b st2 H2.
  simpl in *. by etrans.
Qed.

Lemma keeps_gets {A} (f : state → A) : keeps R (gets f).
Proof. intros st. by apply returns_gets. Qed.

Lemma keeps_throw {A} (e : exception) : keeps R (@throw A e).
Proof. intros st. apply returns_throw. Qed.

Lemma keeps_throw_parse_exception {A} (err : string) :
  keeps R (@Parser.throw_parse_exception A err).
Proof. intros st. apply returns_throw_parse_exception. Qed.

Lemma keeps_undefined {A} : keeps R (@undefined A).
Proof. intros st. apply returns_undefined. Qed.

Lemma keeps_exhausted {A} : keeps R (@exhausted A).
Proof. intros st. apply returns_exhausted. Qed.

Lemma keeps_reading {A} (f : memory → outcome A) : keeps R (reading f).
Proof. intros st. apply returns_reading. by intros _ _. Qed.

Lemma keeps_lift {A} (o : outcome A) :
  keeps R (λ st, let! a := o in Ret (a, st)).
Proof. intros st. apply returns_lift. by intros _ _. Qed.

End keeps_rules.

Lemma keeps_weaken (R R' : relation state) {A} (c : M A) :
  (∀ st st', R st st' → R' st st') → keeps R c → keeps R' c.
Proof. intros HR Hc st. eapply returns_mono; [apply Hc |]. eauto. Qed.

Lemma keeps_returns (R : relation state) `{!PreOrder R} {A} (c : M A)
    (st0 st : state) :
  keeps R c → R st0 st → returns c st (λ _ st', R st0 st').
Proof.
  intros Hc H0. eapply returns_mono; [apply Hc |]. intros a st' H.
  simpl in *. by etrans.
Qed.

Lemma grows_alloc (st : state) (n : base) :
  (∀ a, n = array a → a = []) → grows st (set_store (store st ++ [n]) st).
Proof.
  intros Hn. split_and!; simpl.
  - by apply prefix_app_r.
  - done.
  - by apply arrays_ok_alloc.
Qed.

Lemma keeps_new (n : base) :
  (∀ a, n = array a → a = []) → keeps grows (new n).
Proof. intros Hn st. apply returns_new. by apply grows_alloc. Qed.

Lemma keeps_getline : keeps same_store getline.
Proof.
  intros st b st'. unfold getline.
  destruct (input_ st); intros [= <- <-]; by split.
Qed.

Lemma keeps_next_line_number : keeps same_store next_line_number.
Proof. intros st b st' [= <- <-]. by split. Qed.

Create HintDb keeps.
#[export] Hint Resolve keeps_getline keeps_next_line_number : keeps.

Ltac keeps_known :=
  match goal with
  | |- keeps _ _ => solve [auto with keeps]
  | |- keeps grows _ =>
      apply (keeps_weaken same_store grows _ same_store_grows);
      solve [auto with keeps]
  | |- keeps evolves _ =>
      apply (keeps_weaken grows evolves _ grows_evolves);
      solve [auto with keeps]
  | |- keeps evolves _ =>
      apply (keeps_weaken same_store evolves _ same_store_evolves);
      solve [auto with keeps]
  end.

Ltac keeps_step :=
  lazymatch goal with
  | |- keeps ?R (ret _) => apply (keeps_ret R)
  | |- keeps ?R (bind _ _) => apply (keeps_bind R); [| intros ?]
  | |- keeps ?R (gets _) => apply (keeps_gets R)
  | |- keeps ?R (throw _) => apply (keeps_throw R)
  | |- keeps ?R (Parser.throw_parse_exception _) =>
      apply (keeps_throw_parse_exception R)
  | |- keeps ?R undefined => apply (keeps_undefined R)
  | |- keeps ?R exhausted => apply (keeps_exhausted R)
  | |- keeps ?R (reading _) => apply (keeps_reading R)
  | |- keeps grows (new _) => apply keeps_new; by intros ? [=]
  | |- keeps evolves (new _) =>
      apply (keeps_weaken grows evolves _ grows_evolves), keeps_new;
      by intros ? [=]
  | |- keeps _ (if ?b then _ else _) => destruct b
  | |- keeps _ (match ?x with _ => _ end) => destruct x
  | |- keeps ?R (λ st, let! a := _ in Ret (a, st)) => apply (keeps_lift R)
  | |- keeps _ _ => keeps_known
  end.

Ltac keeps_auto := cbv zeta; repeat (keeps_step; cbv zeta).

(** ** The functions that only read *)

Lemma eol_or_comment_keeps (it end_ : nat) :
  keeps same_store (Parser.eol_or_comment it end_).
Proof. unfold Parser.eol_or_comment. keeps_auto. Qed.
#[export] Hint Resolve eol_or_comment_keeps : keeps.

Lemma parse_escape_code_keeps (it end_ : nat) :
  keeps same_store (Parser.parse_escape_code it end_).
Proof. unfold Parser.parse_escape_code. keeps_auto. Qed.
#[export] Hint Resolve parse_escape_code_keeps : keeps.

Lemma string_literal_loop_keeps (budget it end_ : nat) (val : string) :
  keeps same_store (Parser.string_literal_loop budget it end_ val).
Proof.
  revert it val. induction budget as [|budget IH]; intros it val; simpl;
    keeps_auto; apply IH.
Qed.
#[export] Hint Resolve string_literal_loop_keeps : keeps.

Lemma string_literal_keeps (it end_ : nat) :
  keeps same_store (Parser.string_literal it end_).
Proof. unfold Parser.string_literal. keeps_auto. Qed.
#[export] Hint Resolve string_literal_keeps : keeps.

Lemma parse_key_keeps (it end_ : nat) :
  keeps same_store (Parser.parse_key it end_).
Proof.
  unfold Parser.parse_key, Parser.parse_quoted_key, Parser.parse_bare_key.
  keeps_auto.
Qed.
#[export] Hint Resolve parse_key_keeps : keeps.

Lemma determine_value_type_keeps (regex : bool) (it end_ : nat) :
  keeps same_store (Parser.determine_value_type regex it end_).
Proof. unfold Parser.determine_value_type. keeps_auto. Qed.
#[export] Hint Resolve determine_value_type_keeps : keeps.

Lemma skip_lines_keeps (input : list string) (start end_ : nat) :
  keeps same_store (Parser.skip_lines input start end_).
Proof.
  revert start end_. induction input as [|l input IH]; intros start end_ st;
    simpl.
  - unfold returns. case_match; [done |]. intros a st' [= <- <-]. by split.
  - unfold returns. case_match.
    + intros a st' Hs. by destruct (IH _ _ _ _ _ Hs).
    + intros a st' [= <- <-]. by split.
Qed.

Lemma skip_whitespace_and_comments_keeps (start end_ : nat) :
  keeps same_store (Parser.skip_whitespace_and_comments start end_).
Proof. intros st. apply skip_lines_keeps. Qed.
#[export] Hint Resolve skip_whitespace_and_comments_keeps : keeps.

(** ** The functions that build one value *)

Lemma parse_string_keeps (it end_ : nat) :
  keeps grows (Parser.parse_string it end_).
Proof. unfold Parser.parse_string. keeps_auto. Qed.
#[export] Hint Resolve parse_string_keeps : keeps.

Lemma parse_number_keeps (it end_ : nat) :
  keeps grows (Parser.parse_number it end_).
Proof.
  unfold Parser.parse_number, Parser.parse_float, Parser.parse_int.
  keeps_auto.
Qed.
#[export] Hint Resolve parse_number_keeps : keeps.

Lemma parse_bool_keeps (it end_ : nat) :
  keeps grows (Parser.parse_bool it end_).
Proof. unfold Parser.parse_bool. keeps_auto. Qed.
#[export] Hint Resolve parse_bool_keeps : keeps.

Lemma parse_date_keeps (regex : bool) (it end_ : nat) :
  keeps grows (Parser.parse_date regex it end_).
Proof. unfold Parser.parse_date. keeps_auto. Qed.
#[export] Hint Resolve parse_date_keeps : keeps.

(** ** Arrays under construction *)

Lemma as_Some_inv (T : value_type) (mem : memory) (v p : ptr) :
  as_ T mem v = Ret (Some p) →
  ∃ d, mem !! v = Some (value d) ∧ type_of d = T.
Proof.
  unfold as_, load. destruct (mem !! v) as [[d| | |]|]; simpl; try done.
  destruct (decide (type_of d = T)); [|done]. eauto.
Qed.

Lemma push_back_inv (mem : memory) (arr v : ptr) (mem' : memory) :
  Array.push_back mem arr v = Ret mem' →
  ∃ a, mem !! arr = Some (array a) ∧ mem' = <[arr := array (a ++ [v])]> mem.
Proof.
  unfold Array.push_back, Array.get, load.
  destruct (mem !! arr) as [[]|]; simpl; try done. intros [= <-]. eauto.
Qed.

Lemma all_values_store_le (mem mem' : memory) (T : value_type)
    (a : list ptr) :
  store_le mem mem' → all_values mem T a → all_values mem' T a.
Proof.
  intros Hle Hv p Hp. destruct (Hv p Hp) as (d & Hd & Ht).
  destruct (Hle _ _ Hd) as (n' & Hn' & Hnle).
  destruct n'; simpl in Hnle; try done. subst. eauto.
Qed.

Lemma all_arrays_store_le (mem mem' : memory) (a : list ptr) :
  store_le mem mem' → all_arrays mem a → all_arrays mem' a.
Proof.
  intros Hle Ha p Hp. destruct (Ha p Hp) as (a' & Ha').
  destruct (Hle _ _ Ha') as (n' & Hn' & Hnle).
  destruct n'; simpl in Hnle; try done. eauto.
Qed.

Lemma store_le_push (mem : memory) (arr : ptr) (a : list ptr) (v : ptr) :
  mem !! arr = Some (array a) →
  store_le mem (<[arr := array (a ++ [v])]> mem).
Proof.
  intros H. eapply store_le_update; [done |]. simpl. by apply prefix_app_r.
Qed.

(** Appending to an array an element that fits keeps all arrays
    homogeneous. *)
Lemma arrays_ok_push (mem : memory) (arr : ptr) (a : list ptr) (v : ptr) :
  mem !! arr = Some (array a) →
  homogeneous (<[arr := array (a ++ [v])]> mem) (a ++ [v]) →
  arrays_ok mem → arrays_ok (<[arr := array (a ++ [v])]> mem).
Proof.
  intros Harr Hh Hok q aq Hq. destruct (decide (q = arr)) as [->|Hne].
  - rewrite list_lookup_insert_eq in Hq by (by eapply lookup_lt_Some).
    by injection Hq as <-.
  - rewrite list_lookup_insert_ne in Hq by done.
    eapply homogeneous_store_le; [by apply store_le_push | by eapply Hok].
Qed.

Lemma fills_start (arr : ptr) (P : memory → list ptr → Prop) (st st' : state)
    (a : list ptr) :
  store st !! arr = Some (array a) → P (store st) a →
  same_store st st' → fills arr P st st'.
Proof.
  intros Harr HP [Hs Ht]. exists a, []. rewrite Hs, Ht, app_nil_r.
  rewrite list_insert_id by done. by split_and!.
Qed.

Lemma fills_grows_alloc (P : memory → list ptr → Prop) (st st' : state) :
  fills (length (store st)) P (set_store (store st ++ [array []]) st) st' →
  grows st st'
  ∧ ∃ a, store st' !! length (store st) = Some (array a) ∧ P (store st') a.
Proof.
  intros (a' & k & Hs & HP & Ht & Hok). simpl in *.
  assert (Hs' : store st' = store st ++ array a' :: k).
  { rewrite Hs. rewrite insert_app_r_alt by lia.
    rewrite Nat.sub_diag. simpl. by rewrite <- app_assoc. }
  split.
  - split_and!; [rewrite Hs'; by apply prefix_app_r | done |].
    intros H. apply Hok. apply arrays_ok_alloc; [by intros ? [= <-] | done].
  - exists a'. split; [|done]. rewrite Hs'.
    by rewrite lookup_app_r, Nat.sub_diag by lia.
Qed.

(** One more element [v], pushed after a call that only allocated. *)
Lemma fills_push (arr : ptr) (P : memory → list ptr → Prop)
    (st st1 st2 st' : state) (a : list ptr) (v : ptr) :
  (∀ mem mem' x, store_le mem mem' → P mem x → P mem' x) →
  (∀ mem x, P mem x → homogeneous mem x) →
  store st !! arr = Some (array a) →
  grows st st1 →
  store st2 = <[arr := array (a ++ [v])]> (store st1) →
  tables_ st2 = tables_ st1 →
  P (store st2) (a ++ [v]) →
  fills arr P st2 st' →
  fills arr P st st'.
Proof.
  intros Hmono Hhom Harr (Hpre & Ht1 & Hok1) Hs2 Ht2 HP2
    (a' & k & Hs & HP & Ht & Hok).
  destruct Hpre as [k1 Hk1].
  assert (Hlt : arr < length (store st)) by (by eapply lookup_lt_Some).
  exists a', (k1 ++ k). split_and!.
  - rewrite Hs, Hs2, Hk1. rewrite insert_app_l by done.
    rewrite insert_app_l by (by rewrite length_insert).
    rewrite list_insert_insert_eq. by rewrite <- app_assoc.
  - done.
  - congruence.
  - intros H. apply Hok. rewrite Hs2. apply arrays_ok_push.
    + rewrite Hk1. by apply lookup_app_l_Some.
    + rewrite <- Hs2. by apply Hhom.
    + by apply Hok1.
Qed.

Lemma all_values_homogeneous (T : value_type) (mem : memory) (a : list ptr) :
  element_type T → all_values mem T a → homogeneous mem a.
Proof. intros HT H. left. eauto. Qed.

Lemma all_arrays_homogeneous (mem : memory) (a : list ptr) :
  all_arrays mem a → homogeneous mem a.
Proof. intros H. by right. Qed.

Lemma all_values_snoc (mem : memory) (T : value_type) (a : list ptr) (v : ptr)
    (d : datum) :
  all_values mem T a → mem !! v = Some (value d) → type_of d = T →
  all_values mem T (a ++ [v]).
Proof.
  intros Ha Hv Ht p Hp. apply elem_of_app in Hp as [Hp | Hp]; [by apply Ha |].
  apply list_elem_of_singleton in Hp as ->. eauto.
Qed.

Lemma all_arrays_snoc (mem : memory) (a : list ptr) (v : ptr) (x : list ptr) :
  all_arrays mem a → mem !! v = Some (array x) → all_arrays mem (a ++ [v]).
Proof.
  intros Ha Hv p Hp. apply elem_of_app in Hp as [Hp | Hp]; [by apply Ha |].
  apply list_elem_of_singleton in Hp as ->. eauto.
Qed.

Lemma returns_keeps (R : relation state) {A} (c : M A) (st : state)
    (Q : A → state → Prop) :
  keeps R c → (∀ a st', R st st' → Q a st') → returns c st Q.
Proof. intros Hc HQ. eapply returns_mono; [apply Hc | done]. Qed.

Lemma fills_same_l (arr : ptr) (P : memory → list ptr → Prop)
    (st st1 st' : state) :
  same_store st st1 → fills arr P st1 st' → fills arr P st st'.
Proof.
  intros [Hs Ht] (a' & k & H1 & H2 & H3 & H4). exists a', k.
  rewrite <- Hs, <- Ht. by split_and!.
Qed.

Lemma fills_same_r (arr : ptr) (P : memory → list ptr → Prop)
    (st st1 st' : state) :
  fills arr P st st1 → same_store st1 st' → fills arr P st st'.
Proof.
  intros (a' & k & H1 & H2 & H3 & H4) [Hs Ht]. exists a', k.
  rewrite Hs, Ht. by split_and!.
Qed.

(** What the four mutually recursive functions and their two loops
    maintain, for every budget. *)
Lemma value_family (regex : bool) (budget : nat) :
  (∀ it end_, keeps grows (Parser.parse_value regex budget it end_))
  ∧ (∀ it end_ st,
       returns (Parser.parse_array regex budget it end_) st
         (λ r st', grows st st' ∧ ∃ a, store st' !! r.1 = Some (array a)))
  ∧ (∀ T it end_ st, element_type T →
       returns (Parser.parse_value_array regex budget T it end_) st
         (λ r st', grows st st' ∧ ∃ a, store st' !! r.1 = Some (array a)))
  ∧ (∀ T arr it end_ st a, element_type T →
       store st !! arr = Some (array a) → all_values (store st) T a →
       returns (Parser.parse_value_array_loop regex budget T arr it end_) st
         (λ _ st', fills arr (λ mem x, all_values mem T x) st st'))
  ∧ (∀ it end_ st,
       returns (Parser.parse_nested_array regex budget it end_) st
         (λ r st', grows st st' ∧ ∃ a, store st' !! r.1 = Some (array a)))
  ∧ (∀ arr it end_ st a,
       store st !! arr = Some (array a) → all_arrays (store st) a →
       returns (Parser.parse_nested_array_loop regex budget arr it end_) st
         (λ _ st', fills arr all_arrays st st')).
Proof.
  induction budget as [|budget (IHv & IHa & IHva & IHvl & IHna & IHnl)].
  { split_and!; intros; simpl; first [apply keeps_exhausted; apply _
                                     | apply returns_exhausted]. }
  assert (IHa' : ∀ it end_, keeps grows (Parser.parse_array regex budget it end_)).
  { intros it end_ st. eapply returns_mono; [apply IHa |]. by intros ? ? [? _]. }
  split_and!.
  - (* parse_value *)
    intros it end_. simpl. keeps_auto.
  - (* parse_array *)
    intros it end_ st. simpl. apply returns_bind.
    eapply returns_keeps; [apply skip_whitespace_and_comments_keeps |].
    intros [it1 end1] st1 Hs1. apply returns_bind, returns_gets.
    case_match.
    + apply returns_bind, returns_new, returns_ret. simpl. split.
      * etrans; [by apply same_store_grows |]. by apply grows_alloc; intros ? [=].
      * exists []. destruct Hs1 as [-> _].
        by rewrite lookup_app_r, Nat.sub_diag by lia.
    + apply returns_bind.
      eapply returns_keeps; [apply determine_value_type_keeps |].
      intros type st2 Hs2.
      assert (Hs : same_store st st2) by (by etrans).
      assert (Hg : ∀ st', grows st2 st' → grows st st').
      { intros st' Hst'. etrans; [by apply same_store_grows | done]. }
      destruct type.
      * eapply returns_mono; [apply IHva; by left |].
        intros r st' [H1 H2]. eauto.
      * eapply returns_mono; [apply IHva; by do 3 right |].
        intros r st' [H1 H2]. eauto.
      * eapply returns_mono; [apply IHva; by right; left |].
        intros r st' [H1 H2]. eauto.
      * eapply returns_mono; [apply IHva; by right; right; left |].
        intros r st' [H1 H2]. eauto.
      * apply returns_throw_parse_exception.
      * eapply returns_mono; [apply IHna |].
        intros r st' [H1 H2]. eauto.
  - (* parse_value_array *)
    intros T it end_ st HT. simpl. apply returns_bind, returns_new.
    apply returns_bind. eapply returns_mono.
    { apply (IHvl T _ _ _ _ [] HT); simpl.
      - by rewrite lookup_app_r, Nat.sub_diag by lia.
      - intros p Hp. by apply elem_of_nil in Hp. }
    intros [it1 end1] st' Hf. apply returns_ret. simpl.
    apply fills_grows_alloc in Hf as [Hg (a & Ha & _)]. eauto.
  - (* parse_value_array_loop *)
    intros T arr it end_ st a HT Harr Hall. simpl.
    apply returns_bind, returns_gets. case_match; cycle 1.
    { apply returns_ret. eapply fills_start; [done.. | reflexivity]. }
    apply returns_bind. eapply returns_keeps; [apply IHv |].
    intros [v [it1 end1]] st1 Hg1. apply returns_bind, returns_reading.
    intros c Hc. destruct c as [p|]; [|apply returns_throw_parse_exception].
    apply as_Some_inv in Hc as (d & Hd & Htd).
    apply returns_bind, returns_writing. intros mem2 Hpush.
    apply push_back_inv in Hpush as (a1 & Ha1 & ->).
    assert (Harr1 : store st1 !! arr = Some (array a)).
    { destruct Hg1 as ([k ->] & _). by apply lookup_app_l_Some. }
    assert (a1 = a) as -> by congruence.
    set (st2 := set_store (<[arr := array (a ++ [v])]> (store st1)) st1).
    assert (Hall2 : all_values (store st2) T (a ++ [v])).
    { eapply all_values_store_le; [by apply store_le_push |].
      eapply all_values_snoc; [|done..].
      eapply all_values_store_le; [|done].
      apply store_le_prefix. by destruct Hg1. }
    assert (Hstep : ∀ st', fills arr (λ mem x, all_values mem T x) st2 st' →
                           fills arr (λ mem x, all_values mem T x) st st').
    { intros st'. eapply (fills_push arr _ st st1 st2 st' a v); try done.
      - intros mem mem' x. apply all_values_store_le.
      - intros mem x. by apply all_values_homogeneous. }
    apply returns_bind.
    eapply returns_keeps; [apply skip_whitespace_and_comments_keeps |].
    intros [it3 end3] st3 Hs3. apply returns_bind, returns_gets.
    assert (Harr3 : store st3 !! arr = Some (array (a ++ [v]))).
    { destruct Hs3 as [-> _]. simpl.
      apply list_lookup_insert_eq. by eapply lookup_lt_Some. }
    assert (Hall3 : all_values (store st3) T (a ++ [v])).
    { by destruct Hs3 as [-> _]. }
    case_match.
    { apply returns_ret. apply Hstep.
      eapply fills_same_l; [done |].
      eapply fills_start; [done.. | reflexivity]. }
    apply returns_bind.
    eapply returns_keeps; [apply skip_whitespace_and_comments_keeps |].
    intros [it4 end4] st4 Hs4.
    eapply returns_mono.
    { apply (IHvl T arr _ _ st4 (a ++ [v]) HT).
      - by destruct Hs4 as [-> _].
      - by destruct Hs4 as [-> _]. }
    intros ? st' Hf. simpl in Hf. apply Hstep.
    eapply fills_same_l; [done |]. by eapply fills_same_l.
  - (* parse_nested_array *)
    intros it end_ st. simpl. apply returns_bind, returns_new.
    apply returns_bind. eapply returns_mono.
    { apply (IHnl _ _ _ _ []); simpl.
      - by rewrite lookup_app_r, Nat.sub_diag by lia.
      - intros p Hp. by apply elem_of_nil in Hp. }
    intros [it1 end1] st' Hf. apply returns_ret. simpl.
    apply fills_grows_alloc in Hf as [Hg (a & Ha & _)]. eauto.
  - (* parse_nested_array_loop *)
    intros arr it end_ st a Harr Hall. simpl.
    apply returns_bind, returns_gets. case_match; cycle 1.
    { apply returns_ret. eapply fills_start; [done.. | reflexivity]. }
    apply returns_bind. eapply returns_mono; [apply IHa |].
    intros [v [it1 end1]] st1 [Hg1 (x & Hx)]. simpl in Hx.
    apply returns_bind, returns_writing. intros mem2 Hpush.
    apply push_back_inv in Hpush as (a1 & Ha1 & ->).
    assert (Harr1 : store st1 !! arr = Some (array a)).
    { destruct Hg1 as ([k ->] & _). by apply lookup_app_l_Some. }
    assert (a1 = a) as -> by congruence.
    set (st2 := set_store (<[arr := array (a ++ [v])]> (store st1)) st1).
    assert (Hall2 : all_arrays (store st2) (a ++ [v])).
    { eapply all_arrays_store_le; [by apply store_le_push |].
      eapply all_arrays_snoc; [|done].
      eapply all_arrays_store_le; [|done].
      apply store_le_prefix. by destruct Hg1. }
    assert (Hstep : ∀ st', fills arr all_arrays st2 st' →
                           fills arr all_arrays st st').
    { intros st'. eapply (fills_push arr _ st st1 st2 st' a v); try done.
      - apply all_arrays_store_le.
      - apply all_arrays_homogeneous. }
    apply returns_bind.
    eapply returns_keeps; [apply skip_whitespace_and_comments_keeps |].
    intros [it3 end3] st3 Hs3. apply returns_bind, returns_gets.
    assert (Harr3 : store st3 !! arr = Some (array (a ++ [v]))).
    { destruct Hs3 as [-> _]. simpl.
      apply list_lookup_insert_eq. by eapply lookup_lt_Some. }
    assert (Hall3 : all_arrays (store st3) (a ++ [v])).
    { by destruct Hs3 as [-> _]. }
    case_match.
    { apply returns_ret. apply Hstep.
      eapply fills_same_l; [done |].
      eapply fills_start; [done.. | reflexivity]. }
    apply returns_bind.
    eapply returns_keeps; [apply skip_whitespace_and_comments_keeps |].
    intros [it4 end4] st4 Hs4.
    eapply returns_mono.
    { apply (IHnl arr _ _ st4 (a ++ [v])).
      - by destruct Hs4 as [-> _].
      - by destruct Hs4 as [-> _]. }
    intros ? st' Hf. simpl in Hf. apply Hstep.
    eapply fills_same_l; [done |]. by eapply fills_same_l.
Qed.

Lemma parse_value_keeps (regex : bool) (budget it end_ : nat) :
  keeps grows (Parser.parse_value regex budget it end_).
Proof. apply value_family. Qed.
#[export] Hint Resolve parse_value_keeps : keeps.

(** ** Table headers and assignments *)

Lemma contains_inv (mem : memory) (t : ptr) (key : string) (c : bool) :
  Table.contains mem t key = Ret c →
  ∃ m, mem !! t = Some (table m)
       ∧ c = match m !! key with Some _ => true | None => false end.
Proof.
  unfold Table.contains.
  destruct (Table.map_of mem t) as [m| | |] eqn:Hm; simpl; try done.
  intros [= <-]. exists m. split; [by apply map_of_inv | done].
Qed.

Lemma insert_inv (mem : memory) (t : ptr) (key : string) (v : ptr)
    (mem' : memory) :
  Table.insert mem t key v = Ret mem' →
  ∃ m, mem !! t = Some (table m) ∧ mem' = <[t := table (<[key := v]> m)]> mem.
Proof.
  unfold Table.insert.
  destruct (Table.map_of mem t) as [m| | |] eqn:Hm; simpl; try done.
  intros [= <-]. exists m. split; [by apply map_of_inv | done].
Qed.

Lemma table_array_push_back_inv (mem : memory) (b t : ptr) (mem' : memory) :
  TableArray.push_back mem b t = Ret mem' →
  ∃ a, mem !! b = Some (table_array a)
       ∧ mem' = <[b := table_array (a ++ [t])]> mem.
Proof.
  unfold TableArray.push_back, TableArray.get, load.
  destruct (mem !! b) as [[]|]; simpl; try done. intros [= <-]. eauto.
Qed.

Lemma evolves_update (st : state) (p : ptr) (n n' : base) :
  store st !! p = Some n → node_le n n' → is_array n = false →
  evolves st (set_store (<[p := n']> (store st)) st).
Proof.
  intros Hp Hle Hn. split_and!; simpl.
  - by eapply store_le_update.
  - done.
  - by eapply arrays_ok_update.
Qed.

(** Giving a table a key it does not have yet. *)
Lemma evolves_insert_absent (st : state) (t : ptr) (m : gmap string ptr)
    (key : string) (v : ptr) (mem' : memory) :
  store st !! t = Some (table m) → m !! key = None →
  Table.insert (store st) t key v = Ret mem' →
  evolves st (set_store mem' st).
Proof.
  intros Ht Hk Hi. apply insert_inv in Hi as (m' & Hm' & ->).
  assert (m' = m) as -> by congruence.
  eapply evolves_update; [done | | done]. simpl. by apply insert_subseteq.
Qed.

Lemma writing_push_back_keeps (b t : ptr) :
  keeps evolves (writing (λ mem, TableArray.push_back mem b t)).
Proof.
  intros st. apply returns_writing. intros mem Hp.
  apply table_array_push_back_inv in Hp as (a & Ha & ->).
  eapply evolves_update; [done | | done]. simpl. by apply prefix_app_r.
Qed.
#[export] Hint Resolve writing_push_back_keeps : keeps.

(** Allocating a node and storing it under a key that the table [t] does not
    contain. *)
Lemma create_keeps {A} (t : ptr) (key : string) (n : base) (k : M A)
    (st : state) :
  (∀ a, n = array a → a = []) →
  Table.contains (store st) t key = Ret false →
  keeps evolves k →
  returns
    (let* p := new n in
     let* _ := writing (λ mem, Table.insert mem t key p) in
     k) st (λ _ st', evolves st st').
Proof.
  intros Hn Hc Hk. apply contains_inv in Hc as (m & Hm & Hc).
  destruct (m !! key) eqn:Hkey; [done |].
  apply returns_bind, returns_new, returns_bind, returns_writing.
  intros mem Hi.
  set (st1 := set_store (store st ++ [n]) st).
  assert (H1 : evolves st st1) by (by apply grows_evolves, grows_alloc).
  assert (H2 : evolves st1 (set_store mem st1)).
  { eapply evolves_insert_absent; [| done | done].
    simpl. by apply lookup_app_l_Some. }
  eapply returns_keeps; [done |]. intros _ st' H3.
  etrans; [done |]. by etrans.
Qed.

Lemma single_table_walk_keeps (budget it kg_end : nat) (curr_table : ptr) :
  keeps evolves (Parser.single_table_walk budget it kg_end curr_table).
Proof.
  revert it curr_table.
  induction budget as [|budget IH]; intros it curr_table st; simpl.
  { case_match; [by apply returns_ret | apply returns_exhausted]. }
  case_match; [by apply returns_ret |].
  apply returns_bind, returns_gets. case_match;
    [apply returns_throw_parse_exception |].
  apply returns_bind, returns_reading. intros c Hc. destruct c.
  - eapply (returns_keeps evolves); [| done]. keeps_auto.
  - apply create_keeps; [by intros ? [=] | done |]. keeps_auto.
Qed.
#[export] Hint Resolve single_table_walk_keeps : keeps.

Lemma table_array_walk_keeps (budget it kg_end : nat) (curr_table : ptr) :
  keeps evolves (Parser.table_array_walk budget it kg_end curr_table).
Proof.
  revert it curr_table.
  induction budget as [|budget IH]; intros it curr_table st; simpl.
  { case_match; [by apply returns_ret | apply returns_exhausted]. }
  case_match; [by apply returns_ret |].
  apply returns_bind, returns_gets. case_match;
    [apply returns_throw_parse_exception |].
  apply returns_bind, returns_reading. intros c Hc. destruct c.
  - eapply (returns_keeps evolves); [| done]. keeps_auto.
  - case_match.
    + apply create_keeps; [by intros ? [= <-] | done |]. keeps_auto.
    + apply create_keeps; [by intros ? [=] | done |]. keeps_auto.
Qed.
#[export] Hint Resolve table_array_walk_keeps : keeps.

Lemma keeps_set_tables (name : string) :
  keeps evolves (λ st, Ret (tt, set_tables ({[name]} ∪ tables_ st) st)).
Proof.
  intros st a st' [= <- <-]. split_and!; simpl.
  - apply store_le_refl.
  - set_solver.
  - done.
Qed.
#[export] Hint Resolve keeps_set_tables : keeps.

Lemma parse_table_keeps (it end_ : nat) (curr_table : ptr) :
  keeps evolves (Parser.parse_table it end_ curr_table).
Proof.
  unfold Parser.parse_table, Parser.parse_single_table,
    Parser.parse_table_array.
  keeps_auto.
Qed.
#[export] Hint Resolve parse_table_keeps : keeps.

Lemma parse_key_value_keeps (regex : bool) (it end_ : nat) (curr_table : ptr) :
  keeps evolves (Parser.parse_key_value regex it end_ curr_table).
Proof.
  intros st. unfold Parser.parse_key_value. apply returns_bind.
  eapply returns_keeps; [apply parse_key_keeps |].
  intros [key it1] st1 Hs1. apply returns_bind, returns_reading.
  intros c Hc. destruct c; [apply returns_throw_parse_exception |].
  apply contains_inv in Hc as (m & Hm & Hc).
  destruct (m !! key) eqn:Hkey; [done |].
  apply returns_bind, returns_gets. case_match;
    [apply returns_throw_parse_exception |].
  apply returns_bind, returns_gets, returns_bind.
  eapply returns_keeps; [apply parse_value_keeps |].
  intros [v [it2 end2]] st2 Hg2. apply returns_bind, returns_writing.
  intros mem Hi.
  assert (H3 : evolves st2 (set_store mem st2)).
  { eapply evolves_insert_absent; [| done | done].
    destruct Hg2 as ([k ->] & _). by apply lookup_app_l_Some. }
  eapply (returns_keeps same_store).
  { keeps_auto. }
  intros _ st' H4.
  etrans; [by apply same_store_evolves |].
  etrans; [by apply grows_evolves |]. etrans; [done |].
  by apply same_store_evolves.
Qed.
#[export] Hint Resolve parse_key_value_keeps : keeps.

Lemma parse_line_keeps (regex : bool) (root curr_table : ptr) :
  keeps evolves (Parser.parse_line regex root curr_table).
Proof. unfold Parser.parse_line. keeps_auto. Qed.
#[export] Hint Resolve parse_line_keeps : keeps.

Lemma turn_keeps (regex : bool) (root curr_table : ptr) :
  keeps evolves (turn regex root curr_table).
Proof. unfold turn. keeps_auto. Qed.

Lemma parse_loop_keeps (regex : bool) (budget : nat) (root curr_table : ptr) :
  keeps evolves (Parser.parse_loop regex budget root curr_table).
Proof.
  revert curr_table. induction budget as [|budget IH]; intros curr_table;
    simpl; keeps_auto.
Qed.

(** ** Iterators over a line *)

Lemma deref_shift (c : ascii) (s : string) (it : nat) :
  deref (String c s) (S it) = deref s it.
Proof. reflexivity. Qed.

Lemma find_if_n_shift (p : ascii → bool) (c : ascii) (s : string) (it n : nat) :
  find_if_n p (String c s) (S it) n = S (find_if_n p s it n).
Proof.
  revert it. induction n as [|n IH]; intros it; simpl; [done |].
  rewrite deref_shift. destruct (p (deref s it)); [done |]. apply IH.
Qed.

Lemma find_if_shift (p : ascii → bool) (c : ascii) (s : string)
    (it end_ : nat) :
  find_if p (String c s) (S it) (S end_) = S (find_if p s it end_).
Proof. unfold find_if. simpl. apply find_if_n_shift. Qed.

Lemma find_shift (x c : ascii) (s : string) (it end_ : nat) :
  find x (String c s) (S it) (S end_) = S (find x s it end_).
Proof. apply find_if_shift. Qed.

Lemma substr_shift (c : ascii) (s : string) (it end_ : nat) :
  substr (String c s) (S it) (S end_) = substr s it end_.
Proof. reflexivity. Qed.

Lemma find_if_n_bounds (p : ascii → bool) (s : string) (it n : nat) :
  it ≤ find_if_n p s it n ≤ it + n.
Proof.
  revert it. induction n as [|n IH]; intros it; simpl; [lia |].
  destruct (p (deref s it)); [lia |]. specialize (IH (S it)). lia.
Qed.

Lemma find_if_bounds (p : ascii → bool) (s : string) (it end_ : nat) :
  it ≤ end_ → it ≤ find_if p s it end_ ≤ end_.
Proof.
  intros H. unfold find_if. pose proof (find_if_n_bounds p s it (end_ - it)).
  lia.
Qed.

Lemma find_if_n_found (p : ascii → bool) (s : string) (it n : nat) :
  find_if_n p s it n < it + n → p (deref s (find_if_n p s it n)) = true.
Proof.
  revert it. induction n as [|n IH]; intros it; simpl; [lia |].
  destruct (p (deref s it)) eqn:Hp; [done |]. intros H. apply IH. lia.
Qed.

Lemma append_cons (c : ascii) (a b : string) :
  String c a +:+ b = String c (a +:+ b).
Proof. reflexivity. Qed.

(** Scanning over a text none of whose characters satisfies [p]. *)
Lemma find_if_n_app (p : ascii → bool) (a rest : string) (n : nat) :
  (∀ c, occurs c a = true → p c = false) →
  find_if_n p (a +:+ rest) 0 (String.length a + n)
  = String.length a + find_if_n p rest 0 n.
Proof.
  induction a as [|c a IH]; intros Hp; [done |].
  rewrite append_cons. cbn [String.length Nat.add find_if_n].
  unfold deref at 1. cbn [String.get].
  rewrite Hp by (simpl; by rewrite Ascii.eqb_refl).
  rewrite find_if_n_shift, IH; [done |].
  intros x Hx. apply Hp. simpl. rewrite Hx. by destruct (Ascii.eqb c x).
Qed.

Lemma occurs_eqb (x : ascii) (a : string) :
  occurs x a = false → ∀ c, occurs c a = true → Ascii.eqb x c = false.
Proof.
  intros Hx c Hc. destruct (Ascii.eqb_spec x c) as [->|]; [congruence | done].
Qed.

Lemma length_append (a b : string) :
  String.length (a +:+ b) = String.length a + String.length b.
Proof.
  induction a as [|c a IH]; [done |]. rewrite append_cons. simpl.
  by rewrite IH.
Qed.

Lemma substring_append (a b : string) :
  String.substring 0 (String.length a) (a +:+ b) = a.
Proof.
  induction a as [|c a IH]; [by destruct b |]. rewrite append_cons. simpl.
  by rewrite IH.
Qed.

Lemma deref_append_r (a b : string) (i : nat) :
  deref (a +:+ b) (String.length a + i) = deref b i.
Proof.
  induction a as [|c a IH]; [done |]. rewrite append_cons. simpl.
  by rewrite deref_shift.
Qed.

(** The parts the header loops cut the range [[it, kg_end)] into are the
    parts [split] finds in its text. *)
Lemma split_parts_find0 (s : string) (e : nat) :
  let dot := find_if_n (Ascii.eqb ".") s 0 e in
  (dot = e →
   split_parts (String.substring 0 e s) "." = [String.substring 0 e s])
  ∧ (dot < e →
     split_parts (String.substring 0 e s) "."
     = String.substring 0 dot s
       :: split_parts (String.substring (S dot) (e - S dot) s) ".").
Proof.
  revert s. induction e as [|e IH]; intros s.
  { simpl. split; [by destruct s | lia]. }
  destruct s as [|c s].
  { split; [done |]. intros Hd.
    apply (find_if_n_found (Ascii.eqb ".") EmptyString 0 (S e)) in Hd.
    unfold deref in Hd. by destruct (find_if_n _ _ _ _). }
  assert (Hdot : find_if_n (Ascii.eqb ".") (String c s) 0 (S e)
                 = if Ascii.eqb c "." then 0
                   else S (find_if_n (Ascii.eqb ".") s 0 e)).
  { cbn [find_if_n]. unfold deref at 1. cbn [String.get].
    rewrite (Ascii.eqb_sym "." c). by rewrite find_if_n_shift. }
  cbv zeta. rewrite Hdot. cbn [String.substring split_parts].
  destruct (Ascii.eqb c ".") eqn:Hc.
  - split; [lia |]. intros _. cbn. by rewrite Nat.sub_0_r.
  - destruct (IH s) as [IH1 IH2]. split.
    + intros [= Hd]. by rewrite IH1.
    + intros Hd. rewrite IH2 by lia. done.
Qed.

Lemma split_parts_find (line : string) (it kg_end : nat) :
  it ≤ kg_end →
  let dot := find "." line it kg_end in
  (dot = kg_end →
   split_parts (substr line it kg_end) "." = [substr line it kg_end])
  ∧ (dot < kg_end →
     split_parts (substr line it kg_end) "."
     = substr line it dot :: split_parts (substr line (S dot) kg_end) ".").
Proof.
  revert line kg_end. induction it as [|it IH]; intros line kg_end Hle.
  - unfold find, find_if, substr. rewrite !Nat.sub_0_r.
    apply split_parts_find0.
  - destruct kg_end as [|kg_end]; [lia |]. destruct line as [|c line].
    + unfold find, find_if, substr. simpl. split; [done |]. intros Hd.
      assert (Hd' : find_if_n (Ascii.eqb ".") EmptyString (S it)
                      (kg_end - it) < S it + (kg_end - it)) by lia.
      apply find_if_n_found in Hd'. unfold deref in Hd'.
      by destruct (find_if_n _ _ _ _).
    + rewrite find_shift, !substr_shift. cbn zeta.
      destruct (IH line kg_end ltac:(lia)) as [IH1 IH2]. split.
      * intros [= Hd]. by apply IH1.
      * intros Hd. rewrite substr_shift. apply IH2. lia.
Qed.

(** ** Header lines *)

Section header_lines.
Context (name : string) (Hname : plain name).

Let n := String.length name.

Lemma plain_first :
  ∃ c rest, name = String c rest ∧ Ascii.eqb c "[" = false
            ∧ Ascii.eqb c "]" = false.
Proof using Hname.
  destruct Hname as (Hne & Ho & Hc). destruct name as [|c rest]; [done |].
  exists c, rest. simpl in Ho, Hc.
  apply orb_false_elim in Ho as [Ho _]. apply orb_false_elim in Hc as [Hc _].
  done.
Qed.

Lemma single_header_length :
  String.length (single_header name) = S (S n).
Proof. unfold single_header. simpl. rewrite length_append. simpl. lia. Qed.

Lemma array_header_length :
  String.length (array_header name) = S (S (S (S n))).
Proof. unfold array_header. simpl. rewrite length_append. simpl. lia. Qed.

Lemma find_in_name (x : ascii) (post : string) (k : nat) :
  occurs x name = false →
  find x (name +:+ post) 0 (n + k) = n + find x post 0 k.
Proof.
  intros Hx. unfold find, find_if. rewrite !Nat.sub_0_r.
  apply find_if_n_app. by apply occurs_eqb.
Qed.

Lemma single_header_no_bracket :
  find "[" (single_header name) 1 (S (S n)) = S (S n).
Proof using Hname.
  unfold single_header. rewrite find_shift.
  replace (S n) with (n + 1) by lia.
  rewrite find_in_name by apply Hname. cbn. lia.
Qed.

Lemma single_header_kg_end :
  find "]" (single_header name) 1 (S (S n)) = S n.
Proof using Hname.
  unfold single_header. rewrite find_shift.
  replace (S n) with (n + 1) at 1 by lia.
  rewrite find_in_name by apply Hname. cbn. lia.
Qed.

Lemma single_header_name : substr (single_header name) 1 (S n) = name.
Proof.
  unfold single_header. rewrite substr_shift. unfold substr.
  rewrite Nat.sub_0_r. apply substring_append.
Qed.

Lemma single_header_second :
  Ascii.eqb (deref (single_header name) 1) "[" = false.
Proof using Hname.
  destruct plain_first as (c & rest & -> & Hc & _). done.
Qed.

Lemma array_header_no_bracket :
  find "[" (array_header name) 2 (S (S (S (S n)))) = S (S (S (S n))).
Proof using Hname.
  unfold array_header. rewrite !find_shift.
  replace (S (S n)) with (n + 2) by lia.
  rewrite find_in_name by apply Hname. cbn. lia.
Qed.

Lemma array_header_kg_end :
  find "]" (array_header name) 2 (S (S (S (S n)))) = S (S n).
Proof using Hname.
  unfold array_header. rewrite !find_shift.
  replace (S (S n)) with (n + 2) at 1 by lia.
  rewrite find_in_name by apply Hname. cbn. lia.
Qed.

Lemma array_header_name : substr (array_header name) 2 (S (S n)) = name.
Proof.
  unfold array_header. rewrite !substr_shift. unfold substr.
  rewrite Nat.sub_0_r. apply substring_append.
Qed.

Lemma array_header_closing :
  deref (array_header name) (S (S (S n))) = "]"%char.
Proof.
  unfold array_header. rewrite !deref_shift.
  replace (S n) with (n + 1) by lia. by rewrite deref_append_r.
Qed.

Lemma array_header_no_dot :
  occurs "." name = false →
  find "." (array_header name) 2 (S (S n)) = S (S n).
Proof.
  intros Hd. unfold array_header. rewrite !find_shift.
  replace n with (n + 0) at 1 by lia.
  rewrite find_in_name by done. cbn. lia.
Qed.

Lemma plain_not_empty : String.eqb name EmptyString = false.
Proof using Hname. apply String.eqb_neq, Hname. Qed.

Lemma plain_length : n ≠ 0.
Proof using Hname.
  destruct plain_first as (c & rest & Heq & _). subst n. by rewrite Heq.
Qed.

End header_lines.

(** ** Turns on header lines *)

Lemma turn_delivered (regex : bool) (root c : ptr) (st : state) (l : string)
    (rest : list string) :
  input_ st = l :: rest →
  turn regex root c st = Parser.parse_line regex root c (delivered l rest st).
Proof. intros H. unfold turn, bind, getline. by rewrite H. Qed.

Lemma header_dispatch (regex : bool) (root c : ptr) (st : state)
    (s : string) (k : nat) :
  line_ st = String "[" s → String.length s = S k →
  Parser.parse_line regex root c st
  = (if Ascii.eqb (deref s 0) "["
     then Parser.parse_table_array 1 (S (S k)) root
     else Parser.parse_single_table 1 (S (S k)) root) (counted st).
Proof.
  intros Hline Hlen.
  unfold Parser.parse_line, Parser.parse_table, bind, next_line_number, gets.
  cbn [line_]. rewrite Hline. cbn [String.length]. rewrite Hlen.
  change (Parser.consume_whitespace (String "[" s) 0 (S (S k))) with 0.
  cbn [Nat.eqb orb].
  change (deref (String "[" s) 0) with "["%char.
  change (Ascii.eqb "[" "#") with false. change (Ascii.eqb "[" "[") with true.
  cbn beta match. cbn [line_]. rewrite deref_shift.
  unfold counted. by rewrite Hline.
Qed.

Lemma parse_line_single_header (regex : bool) (root c : ptr) (st : state)
    (name : string) :
  plain name → line_ st = single_header name →
  Parser.parse_line regex root c st
  = Parser.parse_single_table 1 (S (S (String.length name))) root (counted st).
Proof.
  intros Hname Hline.
  rewrite (header_dispatch regex root c st _ (String.length name) Hline).
  - pose proof (single_header_second name Hname) as H.
    unfold single_header in H. rewrite deref_shift in H. by rewrite H.
  - rewrite length_append. simpl. lia.
Qed.

Lemma parse_line_array_header (regex : bool) (root c : ptr) (st : state)
    (name : string) :
  line_ st = array_header name →
  Parser.parse_line regex root c st
  = Parser.parse_table_array 1 (S (S (S (S (String.length name))))) root
      (counted st).
Proof.
  intros Hline.
  rewrite (header_dispatch regex root c st _ (S (S (String.length name)))
             Hline).
  - done.
  - simpl. rewrite length_append. simpl. lia.
Qed.

Lemma parse_single_table_duplicate (root : ptr) (st : state) (name : string) :
  plain name → line_ st = single_header name → name ∈ tables_ st →
  Parser.parse_single_table 1 (S (S (String.length name))) root st
  = Throw (parse_exception "Duplicate table" (Some (line_number_ st))).
Proof.
  intros Hname Hline Hin.
  unfold Parser.parse_single_table, bind, gets, Parser.throw_parse_exception.
  rewrite Hline, (single_header_no_bracket name Hname), Nat.eqb_refl.
  cbn [negb]. rewrite (single_header_kg_end name Hname).
  pose proof (plain_length name Hname) as Hn.
  destruct (String.length name) as [|n] eqn:Hlen; [done |].
  cbn [Nat.eqb]. rewrite <- Hlen, (single_header_name name).
  by rewrite bool_decide_eq_true_2.
Qed.

(** A single-table header that is handled without an exception leaves its
    name in [tables_]. *)
Lemma parse_single_table_registers (it end_ : nat) (curr_table : ptr)
    (st : state) :
  returns (Parser.parse_single_table it end_ curr_table) st
    (λ _ st', substr (line_ st) it (find "]" (line_ st) it end_) ∈ tables_ st').
Proof.
  unfold Parser.parse_single_table.
  apply returns_bind, returns_gets. case_match;
    [apply returns_throw_parse_exception |].
  case_match; [apply returns_throw_parse_exception |].
  apply returns_bind, returns_gets. case_match;
    [apply returns_throw_parse_exception |].
  case_match; [apply returns_throw |].
  apply returns_bind. intros [] st1 [= <-].
  eapply (returns_keeps evolves).
  { keeps_auto. }
  intros _ st' (_ & Ht & _). simpl in Ht. set_solver.
Qed.

Lemma turns_evolves (regex : bool) (root : ptr) (cs cs' : ptr * state) :
  turns regex root cs cs' → evolves cs.2 cs'.2.
Proof.
  induction 1 as [|c st c' st' cs'' _ Ht _ IH]; [done |].
  etrans; [| exact IH]. by eapply turn_keeps.
Qed.

(** The last turn of the loop of [parse_table_array], on the part [part] that
    ends the name: the table-array under [part] (made first when the key is
    new) gets a fresh empty table, which becomes the current table. *)
Lemma table_array_walk_last (budget it kg_end : nat) (curr : ptr) (st : state) :
  (it =? kg_end) = false →
  find "." (line_ st) it kg_end = kg_end →
  String.eqb (substr (line_ st) it kg_end) EmptyString = false →
  Parser.table_array_walk (S budget) it kg_end curr st
  = last_part curr (substr (line_ st) it kg_end) st.
Proof.
  intros Hit Hdot Hpart. unfold last_part.
  cbn [Parser.table_array_walk]. rewrite Hit.
  unfold bind at 1. unfold gets at 1. cbn beta iota zeta.
  rewrite Hdot, Hpart, Nat.eqb_refl. cbn [negb].
  assert (Hend : ∀ t, Parser.table_array_walk budget kg_end kg_end t = ret t).
  { intros t. destruct budget; simpl; by rewrite Nat.eqb_refl. }
  unfold bind.
  repeat match goal with
    | |- context [Nat.eqb ?x ?x] => rewrite (Nat.eqb_refl x)
    | |- context [Parser.table_array_walk _ ?k ?k ?t] => rewrite (Hend t)
    | |- match ?c with _ => _ end = match ?c with _ => _ end =>
        destruct c as [[? ?]| | |]; try done
    | |- (if ?b then _ else _) _ = (if ?b then _ else _) _ =>
        destruct b; try done
    end.
  all: destruct (reading _ _) as [[? ?]| | |]; try done; by rewrite Hend.
Qed.

Lemma parse_table_array_single_part (root : ptr) (st : state) (name : string) :
  plain name → occurs "." name = false → line_ st = array_header name →
  Parser.parse_table_array 1 (S (S (S (S (String.length name))))) root st
  = Parser.table_array_walk (String.length name) 2
      (S (S (String.length name))) root st.
Proof.
  intros Hname Hdot Hline.
  unfold Parser.parse_table_array, bind, gets. rewrite Hline.
  rewrite (array_header_no_bracket name Hname), Nat.eqb_refl. cbn [negb].
  rewrite (array_header_kg_end name Hname).
  rewrite (proj2 (Nat.eqb_neq _ _)) by lia.
  pose proof (plain_length name Hname) as Hn.
  rewrite (proj2 (Nat.eqb_neq 2 _)) by lia.
  rewrite (array_header_closing name). cbn [negb Ascii.eqb].
  change (Ascii.eqb "]" "]") with true. cbn [negb].
  by replace (S (S (String.length name)) - 2) with (String.length name) by lia.
Qed.

(** The turn of the main loop on the line [[[name]]], for a name of one
    part. *)
Lemma turn_array_header (regex : bool) (root c : ptr) (st : state)
    (name : string) (rest : list string) :
  plain name → occurs "." name = false →
  input_ st = array_header name :: rest →
  turn regex root c st
  = last_part root name (counted (delivered (array_header name) rest st)).
Proof.
  intros Hname Hdot Hin. rewrite (turn_delivered _ _ _ _ _ _ Hin).
  set (st1 := delivered (array_header name) rest st).
  rewrite (parse_line_array_header regex root c st1 name eq_refl).
  rewrite (parse_table_array_single_part root (counted st1) name Hname Hdot
             eq_refl).
  pose proof (plain_length name Hname) as Hn.
  destruct (String.length name) as [|n] eqn:Hlen; [done |].
  rewrite table_array_walk_last; cbn [line_ counted st1 delivered].
  - by rewrite <- Hlen, (array_header_name name).
  - done.
  - rewrite <- Hlen. by apply array_header_no_dot.
  - rewrite <- Hlen, (array_header_name name). by apply plain_not_empty.
Qed.

Lemma back_inv (mem : memory) (b t : ptr) :
  TableArray.back mem b = Ret t →
  ∃ a, mem !! b = Some (table_array a) ∧ last a = Some t.
Proof.
  unfold TableArray.back, TableArray.get, load.
  destruct (mem !! b) as [[]|]; simpl; try done.
  destruct (last array_) eqn:Hl; [|done]. intros [= <-]. eauto.
Qed.

(** After [last_part] the key leads to a table-array. *)
Lemma last_part_returns (curr : ptr) (part : string) (st : state) :
  returns (last_part curr part) st
    (λ _ st', ∃ m arr ts,
       store st' !! curr = Some (table m) ∧ m !! part = Some arr
       ∧ store st' !! arr = Some (table_array ts)).
Proof.
  unfold last_part. apply returns_bind, returns_reading. intros c Hc.
  apply contains_inv in Hc as (m & Hm & Hc).
  assert (Hlt : curr < length (store st)) by (by eapply lookup_lt_Some).
  destruct (m !! part) as [b|] eqn:Hpart; subst c.
  - apply returns_bind, returns_reading. intros b' Hb'.
    apply get_inv in Hb' as (m' & Hm' & Hb').
    assert (m' = m) as -> by congruence. assert (b' = b) as -> by congruence.
    apply returns_bind, returns_reading. intros n Hn.
    destruct n as [| |a|]; cbn [is_table_array negb];
      try apply returns_throw_parse_exception.
    unfold load in Hn. destruct (store st !! b) eqn:Hb; [|done].
    injection Hn as ->.
    apply returns_bind, returns_new, returns_bind, returns_writing.
    intros mem Hp. apply table_array_push_back_inv in Hp as (a' & Ha' & ->).
    apply returns_reading. intros t _. cbn [store set_store].
    assert (b ≠ curr) by congruence.
    assert (b < length (store st)) by (by eapply lookup_lt_Some).
    exists m, b, (a' ++ [length (store st)]). split_and!.
    + rewrite list_lookup_insert_ne by done. by apply lookup_app_l_Some.
    + done.
    + apply list_lookup_insert_eq. rewrite length_app. lia.
  - apply returns_bind, returns_new, returns_bind, returns_writing.
    intros mem Hi. apply insert_inv in Hi as (m' & Hm' & ->).
    cbn [store set_store] in Hm'.
    rewrite lookup_app_l in Hm' by done.
    assert (m' = m) as -> by congruence.
    apply returns_bind, returns_reading. intros arr Harr.
    apply get_inv in Harr as (m1 & Hm1 & Harr). cbn [store set_store] in Hm1.
    rewrite list_lookup_insert_eq in Hm1 by (rewrite length_app; lia).
    injection Hm1 as <-. rewrite lookup_insert_eq in Harr.
    injection Harr as <-.
    apply returns_bind, returns_new, returns_bind, returns_writing.
    intros mem Hp. apply table_array_push_back_inv in Hp as (a' & Ha' & ->).
    apply returns_reading. intros t _. cbn [store set_store].
    eexists _, (length (store st)), _. split_and!.
    + rewrite list_lookup_insert_ne by lia.
      apply lookup_app_l_Some. apply list_lookup_insert_eq.
      rewrite length_app. lia.
    + apply lookup_insert_eq.
    + apply list_lookup_insert_eq. rewrite !length_app, length_insert,
        length_app. simpl. lia.
Qed.

Lemma bind_eq {A B} (c : M A) (k : A → M B) (st st' : state) (a : A) :
  c st = Ret (a, st') → bind c k st = k a st'.
Proof. intros H. unfold bind. by rewrite H. Qed.

Lemma reading_eq {A} (f : memory → outcome A) (st : state) (a : A) :
  f (store st) = Ret a → reading f st = Ret (a, st).
Proof. intros H. unfold reading. by rewrite H. Qed.

Lemma writing_eq (f : memory → outcome memory) (st : state) (mem : memory) :
  f (store st) = Ret mem → writing f st = Ret (tt, set_store mem st).
Proof. intros H. unfold writing. by rewrite H. Qed.

Lemma contains_eq (mem : memory) (t : ptr) (m : gmap string ptr)
    (key : string) :
  mem !! t = Some (table m) →
  Table.contains mem t key
  = Ret (match m !! key with Some _ => true | None => false end).
Proof. intros H. unfold Table.contains. by rewrite (map_of_table _ _ _ H). Qed.

Lemma get_eq (mem : memory) (t : ptr) (m : gmap string ptr) (key : string)
    (b : ptr) :
  mem !! t = Some (table m) → m !! key = Some b → Table.get mem t key = Ret b.
Proof.
  intros H Hk. unfold Table.get. rewrite (map_of_table _ _ _ H). simpl.
  by rewrite Hk.
Qed.

Lemma load_eq (mem : memory) (p : ptr) (n : base) :
  mem !! p = Some n → load mem p = Ret n.
Proof. intros H. unfold load. by rewrite H. Qed.

Lemma table_array_get_eq (mem : memory) (b : ptr) (a : list ptr) :
  mem !! b = Some (table_array a) → TableArray.get mem b = Ret a.
Proof. intros H. unfold TableArray.get. by rewrite (load_eq _ _ _ H). Qed.

Lemma table_array_push_back_eq (mem : memory) (b : ptr) (a : list ptr)
    (t : ptr) :
  mem !! b = Some (table_array a) →
  TableArray.push_back mem b t = Ret (<[b := table_array (a ++ [t])]> mem).
Proof.
  intros H. unfold TableArray.push_back.
  by rewrite (table_array_get_eq _ _ _ H).
Qed.

Lemma table_array_back_eq (mem : memory) (b : ptr) (a : list ptr) (t : ptr) :
  mem !! b = Some (table_array (a ++ [t])) → TableArray.back mem b = Ret t.
Proof.
  intros H. unfold TableArray.back. rewrite (table_array_get_eq _ _ _ H).
  simpl. by rewrite last_snoc.
Qed.

(** [last_part] on a key that already leads to a table-array. *)
Lemma last_part_appends (curr : ptr) (part : string) (st : state)
    (m : gmap string ptr) (arr : ptr) (ts : list ptr) :
  store st !! curr = Some (table m) → m !! part = Some arr →
  store st !! arr = Some (table_array ts) →
  last_part curr part st
  = Ret (length (store st),
         set_store (<[arr := table_array (ts ++ [length (store st)])]>
                      (store st ++ [table ∅])) st).
Proof.
  intros Hm Hpart Harr.
  assert (Hlt : arr < length (store st)) by (by eapply lookup_lt_Some).
  unfold last_part.
  rewrite (bind_eq _ _ st st true)
    by (apply reading_eq; by rewrite (contains_eq _ _ _ _ Hm), Hpart).
  rewrite (bind_eq _ _ st st arr) by (by apply reading_eq, (get_eq _ _ m)).
  rewrite (bind_eq _ _ st st (table_array ts)) by (by apply reading_eq, load_eq).
  cbn [is_table_array negb].
  rewrite (bind_eq _ _ st _ (length (store st))) by reflexivity.
  erewrite bind_eq; cycle 1.
  { apply writing_eq. apply (table_array_push_back_eq _ _ ts).
    simpl. by apply lookup_app_l_Some. }
  apply reading_eq. eapply table_array_back_eq. simpl.
  apply list_lookup_insert_eq. rewrite length_app. lia.
Qed.

Lemma store_le_table (mem mem' : memory) (t : ptr) (m : gmap string ptr) :
  store_le mem mem' → mem !! t = Some (table m) →
  ∃ m', mem' !! t = Some (table m') ∧ m ⊆ m'.
Proof.
  intros Hle Ht. destruct (Hle _ _ Ht) as (n' & Hn' & Hnle).
  destruct n'; simpl in Hnle; try done. eauto.
Qed.

Lemma store_le_table_array (mem mem' : memory) (b : ptr) (a : list ptr) :
  store_le mem mem' → mem !! b = Some (table_array a) →
  ∃ a', mem' !! b = Some (table_array a') ∧ a `prefix_of` a'.
Proof.
  intros Hle Hb. destruct (Hle _ _ Hb) as (n' & Hn' & Hnle).
  destruct n'; simpl in Hnle; try done. eauto.
Qed.

Lemma get_table_array_eq (mem : memory) (t : ptr) (m : gmap string ptr)
    (key : string) (b : ptr) (a : list ptr) :
  mem !! t = Some (table m) → m !! key = Some b →
  mem !! b = Some (table_array a) →
  Table.get_table_array mem t key = Ret (Some b).
Proof.
  intros Ht Hk Hb. unfold Table.get_table_array, as_table_array.
  rewrite (contains_eq _ _ _ _ Ht), Hk. simpl.
  rewrite (get_eq _ _ _ _ _ Ht Hk). simpl. by rewrite (load_eq _ _ _ Hb).
Qed.

(** In a run of the main loop, a header [[name]] that comes after an equal
    header has been handled is refused as a duplicate table; a header
    [[[name]]] (a name of one part) that comes after an equal header has been
    handled appends a new empty table to the table-array under [name]. *)
Lemma repeated_header_turns (regex : bool) (root : ptr) (name : string)
    (c1 c2 c3 : ptr) (st1 st2 st3 : state) (rest1 rest3 : list string) :
  plain name →
  turns regex root (c2, st2) (c3, st3) →
  (input_ st1 = single_header name :: rest1 →
   turn regex root c1 st1 = Ret (c2, st2) →
   input_ st3 = single_header name :: rest3 →
   turn regex root c3 st3
   = Throw (parse_exception "Duplicate table" (Some (S (line_number_ st3)))))
  ∧ (occurs "." name = false →
     input_ st1 = array_header name :: rest1 →
     turn regex root c1 st1 = Ret (c2, st2) →
     input_ st3 = array_header name :: rest3 →
     ∃ arr ts st4,
       Table.get_table_array (store st3) root name = Ret (Some arr)
       ∧ TableArray.get (store st3) arr = Ret ts
       ∧ turn regex root c3 st3 = Ret (length (store st3), st4)
       ∧ store st4 !! length (store st3) = Some (table ∅)
       ∧ TableArray.get (store st4) arr = Ret (ts ++ [length (store st3)])
       ∧ Table.get_table_array (store st4) root name = Ret (Some arr)).
Proof.
  intros Hname Hturns. apply turns_evolves in Hturns as (Hle & Hsub & _).
  cbn [snd] in Hle, Hsub. split.
  - intros Hin1 Hturn1 Hin3.
    assert (Hreg : name ∈ tables_ st2).
    { rewrite (turn_delivered _ _ _ _ _ _ Hin1) in Hturn1.
      rewrite (parse_line_single_header regex root c1
                 (delivered (single_header name) rest1 st1) name Hname
                 eq_refl) in Hturn1.
      apply parse_single_table_registers in Hturn1.
      cbn [line_ counted delivered] in Hturn1.
      by rewrite (single_header_kg_end name Hname),
        (single_header_name name) in Hturn1. }
    rewrite (turn_delivered _ _ _ _ _ _ Hin3).
    rewrite (parse_line_single_header regex root c3
               (delivered (single_header name) rest3 st3) name Hname eq_refl).
    rewrite (parse_single_table_duplicate root
               (counted (delivered (single_header name) rest3 st3)) name
               Hname eq_refl); [done |].
    cbn [tables_ counted delivered]. set_solver.
  - intros Hdot Hin1 Hturn1 Hin3.
    rewrite (turn_array_header _ _ _ _ _ _ Hname Hdot Hin1) in Hturn1.
    apply last_part_returns in Hturn1 as (m & arr & ts & Hm & Harr & Hts).
    destruct (store_le_table _ _ _ _ Hle Hm) as (m3 & Hm3 & Hsub3).
    destruct (store_le_table_array _ _ _ _ Hle Hts) as (ts3 & Hts3 & _).
    pose proof (lookup_weaken _ _ _ _ Harr Hsub3) as Harr3.
    assert (Hlt : arr < length (store st3)) by (by eapply lookup_lt_Some).
    assert (Hroot : root < length (store st3)) by (by eapply lookup_lt_Some).
    exists arr, ts3. eexists. split_and!.
    + by eapply get_table_array_eq.
    + by apply table_array_get_eq.
    + rewrite (turn_array_header _ _ _ _ _ _ Hname Hdot Hin3).
      rewrite (last_part_appends root name
                 (counted (delivered (array_header name) rest3 st3))
                 m3 arr ts3 Hm3 Harr3 Hts3).
      reflexivity.
    + cbn [store set_store counted delivered].
      rewrite list_lookup_insert_ne by lia.
      by rewrite lookup_app_r, Nat.sub_diag by lia.
    + cbn [store set_store counted delivered]. apply table_array_get_eq.
      apply list_lookup_insert_eq. rewrite length_app. lia.
    + cbn [store set_store counted delivered].
      eapply (get_table_array_eq _ _ m3); [| done |].
      * rewrite list_lookup_insert_ne by congruence.
        by apply lookup_app_l_Some.
      * apply list_lookup_insert_eq. rewrite length_app. lia.
Qed.

(** ** The stream only gets shorter *)

Global Instance shrinks_preorder : PreOrder shrinks.
Proof.
  split.
  - intros st. unfold shrinks. lia.
  - intros st1 st2 st3. unfold shrinks. lia.
Qed.

Lemma keeps_shrinks_new (n : base) : keeps shrinks (new n).
Proof. intros st. apply returns_new. unfold shrinks. simpl. lia. Qed.

Lemma keeps_shrinks_writing (f : memory → outcome memory) :
  keeps shrinks (writing f).
Proof.
  intros st. apply returns_writing. intros mem _. unfold shrinks. simpl. lia.
Qed.

Lemma keeps_shrinks_getline : keeps shrinks getline.
Proof.
  intros st b st'. unfold getline, shrinks.
  destruct (input_ st) eqn:E; intros [= <- <-]; simpl; rewrite ?E; simpl; lia.
Qed.

Lemma keeps_shrinks_next_line_number : keeps shrinks next_line_number.
Proof. intros st b st' [= <- <-]. unfold shrinks. simpl. lia. Qed.

Lemma keeps_shrinks_set_tables (f : state → gset string) :
  keeps shrinks (λ st, Ret (tt, set_tables (f st) st)).
Proof. intros st a st' [= <- <-]. unfold shrinks. simpl. lia. Qed.

Lemma keeps_shrinks_skip_lines (input : list string) (start end_ : nat)
    (st : state) :
  length input ≤ length (input_ st) →
  returns (Parser.skip_lines input start end_) st (λ _ st', shrinks st st').
Proof.
  revert start end_ st.
  induction input as [|l input IH]; intros start end_ st Hlen; simpl;
    unfold returns; case_match; try done.
  - intros a st' [= <- <-]. reflexivity.
  - intros a st' Hs. apply IH in Hs; [| simpl; lia].
    unfold shrinks in *. simpl in *. lia.
  - intros a st' [= <- <-]. reflexivity.
Qed.

Lemma keeps_shrinks_skip (start end_ : nat) :
  keeps shrinks (Parser.skip_whitespace_and_comments start end_).
Proof. intros st. by apply keeps_shrinks_skip_lines. Qed.

#[export] Hint Resolve keeps_shrinks_new keeps_shrinks_writing
  keeps_shrinks_getline keeps_shrinks_next_line_number
  keeps_shrinks_set_tables keeps_shrinks_skip : keeps.

Lemma string_literal_loop_shrinks (budget it end_ : nat) (val : string) :
  keeps shrinks (Parser.string_literal_loop budget it end_ val).
Proof.
  revert it val. induction budget as [|budget IH]; intros it val; simpl;
    unfold Parser.parse_escape_code; keeps_auto.
Qed.
#[export] Hint Resolve string_literal_loop_shrinks : keeps.

Lemma value_family_shrinks (regex : bool) (budget : nat) :
  (∀ it end_, keeps shrinks (Parser.parse_value regex budget it end_))
  ∧ (∀ it end_, keeps shrinks (Parser.parse_array regex budget it end_))
  ∧ (∀ T it end_,
       keeps shrinks (Parser.parse_value_array regex budget T it end_))
  ∧ (∀ T arr it end_,
       keeps shrinks (Parser.parse_value_array_loop regex budget T arr it end_))
  ∧ (∀ it end_, keeps shrinks (Parser.parse_nested_array regex budget it end_))
  ∧ (∀ arr it end_,
       keeps shrinks (Parser.parse_nested_array_loop regex budget arr it end_)).
Proof.
  induction budget as [|budget (IHv & IHa & IHva & IHvl & IHna & IHnl)].
  { split_and!; intros; simpl; apply keeps_exhausted; apply _. }
  split_and!; intros; simpl;
    unfold Parser.determine_value_type, Parser.parse_string,
      Parser.string_literal, Parser.parse_date, Parser.parse_number,
      Parser.parse_int, Parser.parse_float, Parser.parse_bool,
      Parser.as_value;
    keeps_auto.
Qed.

Lemma single_table_walk_shrinks (budget it kg_end : nat) (curr : ptr) :
  keeps shrinks (Parser.single_table_walk budget it kg_end curr).
Proof.
  revert it curr. induction budget as [|budget IH]; intros it curr; simpl;
    keeps_auto.
Qed.

Lemma table_array_walk_shrinks (budget it kg_end : nat) (curr : ptr) :
  keeps shrinks (Parser.table_array_walk budget it kg_end curr).
Proof.
  revert it curr. induction budget as [|budget IH]; intros it curr; simpl;
    keeps_auto.
Qed.
#[export] Hint Resolve single_table_walk_shrinks table_array_walk_shrinks
  : keeps.

Lemma parse_line_shrinks (regex : bool) (root curr : ptr) :
  keeps shrinks (Parser.parse_line regex root curr).
Proof.
  pose proof (value_family_shrinks regex) as Hv.
  unfold Parser.parse_line, Parser.parse_table, Parser.parse_single_table,
    Parser.parse_table_array, Parser.parse_key_value, Parser.parse_key,
    Parser.parse_quoted_key, Parser.parse_bare_key, Parser.string_literal,
    Parser.eol_or_comment.
  keeps_auto. apply Hv.
Qed.

(** A turn of the main loop takes at least its line from the stream. *)
Lemma turn_consumes (regex : bool) (root c c' : ptr) (st st' : state) :
  input_ st ≠ [] → turn regex root c st = Ret (c', st') →
  length (input_ st') < length (input_ st).
Proof.
  intros Hin Hturn. destruct (input_ st) as [|l rest] eqn:Hinput; [done |].
  rewrite (turn_delivered _ _ _ _ _ _ Hinput) in Hturn.
  apply parse_line_shrinks in Hturn. unfold shrinks in Hturn.
  simpl in *. lia.
Qed.

(** The loop of [parse] performs the turns one after the other. *)
Lemma parse_loop_turns (regex : bool) (root : ptr) (cs cs' : ptr * state) :
  turns regex root cs cs' →
  ∀ budget, length (input_ cs.2) ≤ budget →
    ∃ budget', length (input_ cs'.2) ≤ budget'
      ∧ Parser.parse_loop regex budget root cs.1 cs.2
        = Parser.parse_loop regex budget' root cs'.1 cs'.2.
Proof.
  induction 1 as [cs|c st c' st' cs'' Hin Hturn _ IH]; intros budget Hb.
  { by exists budget. }
  cbn [fst snd] in *. pose proof (turn_consumes _ _ _ _ _ _ Hin Hturn) as Hlt.
  destruct budget as [|budget]; [lia |].
  destruct (IH budget ltac:(lia)) as (budget' & Hb' & Heq).
  exists budget'. split; [done |]. rewrite <- Heq.
  destruct (input_ st) as [|l rest] eqn:Hinput; [done |].
  rewrite (turn_delivered _ _ _ _ _ _ Hinput) in Hturn.
  cbn [Parser.parse_loop]. unfold bind at 1, getline at 1. rewrite Hinput.
  unfold bind at 1. fold (delivered l rest st). by rewrite Hturn.
Qed.

Lemma parse_loop_throws (regex : bool) (root c : ptr) (st : state)
    (e : exception) (budget : nat) :
  input_ st ≠ [] → length (input_ st) ≤ budget →
  turn regex root c st = Throw e →
  Parser.parse_loop regex budget root c st = Throw e.
Proof.
  intros Hin Hb Hturn. destruct (input_ st) as [|l rest] eqn:Hinput; [done |].
  rewrite (turn_delivered _ _ _ _ _ _ Hinput) in Hturn.
  destruct budget as [|budget]; [simpl in Hb; lia |].
  cbn [Parser.parse_loop]. unfold bind at 1, getline at 1. rewrite Hinput.
  unfold bind at 1. fold (delivered l rest st). by rewrite Hturn.
Qed.

(** An exception in a turn that the loop reaches is the outcome of
    [parse]. *)
Lemma parse_stream_throws (regex : bool) (stream : string) (c : ptr)
    (st : state) (e : exception) :
  turns regex 0 (0, entering_loop stream) (c, st) →
  input_ st ≠ [] → turn regex 0 c st = Throw e →
  parse_stream regex stream = Throw e.
Proof.
  intros Hturns Hin Hturn. unfold parse_stream, Parser.parse.
  rewrite (bind_eq _ _ (parser stream) (entering_loop stream) 0)
    by reflexivity.
  rewrite (bind_eq _ _ (entering_loop stream) (entering_loop stream)
             (length (input_ (entering_loop stream)))) by reflexivity.
  destruct (parse_loop_turns _ _ _ _ Hturns
              (length (input_ (entering_loop stream))) ltac:(done))
    as (budget' & Hb' & Heq).
  cbn [fst snd] in *. unfold bind at 1. rewrite Heq.
  by rewrite (parse_loop_throws _ _ _ _ e budget' Hin Hb' Hturn).
Qed.

(** C3: while a document is parsed, a header [[name]] that comes after an
    equal header has been handled is refused as a duplicate table, at its own
    line, and that exception is the outcome of the parse; a header
    [[[name]]] (a name of one part) that comes after an equal header has been
    handled is accepted: the table-array under [name] keeps its tables and
    gets one new empty table at its end, which becomes the current table. *)
Theorem repeated_headers (regex : bool) (stream : string) (name : string)
    (c1 c2 c3 : ptr) (st1 st2 st3 : state) (rest1 rest3 : list string) :
  plain name →
  turns regex 0 (0, entering_loop stream) (c1, st1) →
  turns regex 0 (c2, st2) (c3, st3) →
  (input_ st1 = single_header name :: rest1 →
   turn regex 0 c1 st1 = Ret (c2, st2) →
   input_ st3 = single_header name :: rest3 →
   turn regex 0 c3 st3
   = Throw (parse_exception "Duplicate table" (Some (S (line_number_ st3))))
   ∧ parse_stream regex stream
     = Throw (parse_exception "Duplicate table"
                              (Some (S (line_number_ st3)))))
  ∧ (occurs "." name = false →
     input_ st1 = array_header name :: rest1 →
     turn regex 0 c1 st1 = Ret (c2, st2) →
     input_ st3 = array_header name :: rest3 →
     ∃ arr ts st4,
       Table.get_table_array (store st3) 0 name = Ret (Some arr)
       ∧ TableArray.get (store st3) arr = Ret ts
       ∧ turn regex 0 c3 st3 = Ret (length (store st3), st4)
       ∧ store st4 !! length (store st3) = Some (table ∅)
       ∧ TableArray.get (store st4) arr = Ret (ts ++ [length (store st3)])
       ∧ Table.get_table_array (store st4) 0 name = Ret (Some arr)).
Proof.
  intros Hname Hreach Hturns.
  destruct (repeated_header_turns regex 0 name c1 c2 c3 st1 st2 st3 rest1
              rest3 Hname Hturns) as [Hsingle Harray].
  split; [| exact Harray].
  intros Hin1 Hturn1 Hin3.
  pose proof (Hsingle Hin1 Hturn1 Hin3) as Hdup. split; [exact Hdup |].
  eapply (parse_stream_throws regex stream c3 st3); [| by rewrite Hin3 | done].
  clear Hdup Hsingle Harray.
  assert (Hstep : turns regex 0 (c1, st1) (c2, st2)).
  { eapply turns_step; [by rewrite Hin1 | exact Hturn1 | apply turns_refl]. }
  assert (Htrans : ∀ x y z, turns regex 0 x y → turns regex 0 y z →
                            turns regex 0 x z).
  { intros x y z Hxy. induction Hxy; [done |]. intros Hyz.
    eapply turns_step; eauto. }
  eauto.
Qed.

(** ** The header walk and the resolver *)

Lemma store_le_kind (mem mem' : memory) (b : ptr) (n n' : base) :
  store_le mem mem' → mem !! b = Some n → mem' !! b = Some n' →
  is_table n = is_table n' ∧ is_table_array n = is_table_array n'.
Proof.
  intros Hle Hb Hb'. destruct (Hle _ _ Hb) as (n2 & Hn2 & Hnle).
  assert (n2 = n') as -> by congruence.
  destruct n, n'; simpl in *; done.
Qed.

Lemma descend_app (mem : memory) (t : ptr) (parts : list string)
    (last_key : string) :
  Table.descend mem t (parts ++ [last_key])
  = let! t' := Table.descend mem t parts in
    match t' with
    | Some t' => Table.get_table mem t' last_key
    | None => Ret None
    end.
Proof.
  revert t. induction parts as [|p parts IH]; intros t; simpl.
  - by destruct (Table.get_table mem t last_key) as [[]| | |].
  - destruct (Table.get_table mem t p) as [[t'|]| | |]; simpl; done.
Qed.

Lemma get_table_eq (mem : memory) (t : ptr) (m m' : gmap string ptr)
    (key : string) (b : ptr) :
  mem !! t = Some (table m) → m !! key = Some b → mem !! b = Some (table m') →
  Table.get_table mem t key = Ret (Some b).
Proof.
  intros Ht Hk Hb. unfold Table.get_table.
  rewrite (contains_eq _ _ _ _ Ht), Hk. simpl.
  rewrite (get_eq _ _ _ _ _ Ht Hk). simpl. by rewrite (load_eq _ _ _ Hb).
Qed.

(** What [get_table_qualified] finds is what descending through all the
    parts of the key finds. *)
Lemma get_table_qualified_descend (mem : memory) (t : ptr) (key : string)
    (t' : ptr) :
  Table.get_table_qualified mem t key = Ret (Some t') →
  Table.descend mem t (split_parts key ".") = Ret (Some t').
Proof.
  unfold Table.get_table_qualified.
  destruct (Table.contains_qualified mem t key) as [[]| | |]; try done.
  simpl. destruct (Table.get_qualified mem t key) as [b| | |] eqn:Hq; try done.
  simpl. unfold load. destruct (mem !! b) as [n|] eqn:Hb; [|done]. simpl.
  destruct n as [| | |mb]; try done. simpl. intros [= <-].
  unfold Table.get_qualified, Table.resolve_qualified in Hq.
  rewrite split_parts_correct in Hq. simpl in Hq.
  destruct (reverse (split_parts key ".")) as [|last_key rev_parts] eqn:Hrev;
    [done |].
  apply (f_equal reverse) in Hrev. rewrite reverse_involutive in Hrev.
  rewrite reverse_cons in Hrev. rewrite Hrev, descend_app.
  destruct (Table.descend mem t (reverse rev_parts)) as [[tl|]| | |];
    try done.
  simpl in *.
  destruct (Table.map_of mem tl) as [m| | |] eqn:Hm; try done. simpl in Hq.
  destruct (m !! last_key) as [b'|] eqn:Hl; [|done]. simpl in Hq.
  injection Hq as ->. apply map_of_inv in Hm. by eapply get_table_eq.
Qed.

Lemma get_table_store_le (mem mem' : memory) (t : ptr) (m : gmap string ptr)
    (key : string) (b c : ptr) (n : base) :
  store_le mem mem' →
  mem !! t = Some (table m) → m !! key = Some b → mem !! b = Some n →
  Table.get_table mem' t key = Ret (Some c) →
  c = b ∧ is_table n = true.
Proof.
  intros Hle Ht Hk Hb Hg.
  apply get_table_Some_inv in Hg as (m' & mc & Ht' & Hk' & Hc).
  destruct (store_le_table _ _ _ _ Hle Ht) as (m2 & Hm2 & Hsub).
  assert (m2 = m') as -> by congruence.
  pose proof (lookup_weaken _ _ _ _ Hk Hsub) as Hk2.
  assert (c = b) as -> by congruence. split; [done |].
  by destruct (store_le_kind _ _ _ _ _ Hle Hb Hc) as [-> _].
Qed.

Lemma reading_inv {A} (f : memory → outcome A) (st st' : state) (a : A) :
  reading f st = Ret (a, st') → st' = st ∧ f (store st) = Ret a.
Proof.
  unfold reading. destruct (f (store st)); simpl; try done.
  by intros [= <- <-].
Qed.

Lemma writing_inv (f : memory → outcome memory) (st st' : state) (u : unit) :
  writing f st = Ret (u, st') →
  ∃ mem, f (store st) = Ret mem ∧ st' = set_store mem st.
Proof.
  unfold writing. destruct (f (store st)) as [mem| | |]; simpl; try done.
  intros [= _ <-]. eauto.
Qed.

Lemma bind_inv {A B} (c : M A) (k : A → M B) (st st' : state) (b : B) :
  bind c k st = Ret (b, st') →
  ∃ a st1, c st = Ret (a, st1) ∧ k a st1 = Ret (b, st').
Proof.
  unfold bind. destruct (c st) as [[a st1]| | |]; try done. eauto.
Qed.

Lemma substr_empty (line : string) (it : nat) : substr line it it = EmptyString.
Proof.
  unfold substr. rewrite Nat.sub_diag. revert line.
  induction it as [|it IH]; intros [|c line]; simpl; try done.
Qed.

Lemma split_parts_nonempty (s : string) (c : ascii) : split_parts s c ≠ [].
Proof.
  induction s as [|x s IH]; simpl; [done |].
  destruct (Ascii.eqb x c); [done |]. by destruct (split_parts s c).
Qed.

Lemma single_table_walk_end (budget kg_end : nat) (curr : ptr) :
  Parser.single_table_walk budget kg_end kg_end curr = ret curr.
Proof. destruct budget; simpl; by rewrite Nat.eqb_refl. Qed.

(** One turn of the loop of [parse_single_table] that does not throw: the
    table reached has the part as a key, and the walk goes on from the node
    under it. *)
Lemma single_table_walk_step (budget it kg_end : nat) (curr : ptr)
    (st : state) (t : ptr) (st' : state) :
  (it =? kg_end) = false →
  Parser.single_table_walk (S budget) it kg_end curr st = Ret (t, st') →
  let dot := find "." (line_ st) it kg_end in
  let part := substr (line_ st) it dot in
  part ≠ EmptyString
  ∧ ∃ next st_a m_a b n_a,
      line_ st_a = line_ st
      ∧ store st_a !! curr = Some (table m_a)
      ∧ m_a !! part = Some b
      ∧ store st_a !! b = Some n_a
      ∧ (is_table n_a = true → next = b)
      ∧ Parser.single_table_walk budget
          (if negb (dot =? kg_end) then S dot else dot) kg_end next st_a
        = Ret (t, st').
Proof.
  intros Hit Hwalk. cbn [Parser.single_table_walk] in Hwalk.
  rewrite Hit in Hwalk. unfold bind at 1, gets at 1 in Hwalk.
  cbv zeta in *.
  destruct (String.eqb_spec
              (substr (line_ st) it (find "." (line_ st) it kg_end))
              EmptyString) as [|Hpart]; [done |].
  split; [done |].
  apply bind_inv in Hwalk as (c & st0 & Hc & Hwalk).
  apply reading_inv in Hc as [-> Hc].
  apply contains_inv in Hc as (m & Hm & ->).
  destruct (m !! _) as [b|] eqn:Hb.
  - apply bind_inv in Hwalk as (b' & st0 & Hb' & Hwalk).
    apply reading_inv in Hb' as [-> Hb'].
    rewrite (get_eq _ _ _ _ _ Hm Hb) in Hb'. injection Hb' as <-.
    apply bind_inv in Hwalk as (n & st0 & Hn & Hwalk).
    apply reading_inv in Hn as [-> Hn].
    unfold load in Hn. destruct (store st !! b) as [n'|] eqn:Hn'; [|done].
    injection Hn as ->.
    destruct (is_table n) eqn:Hkind.
    + exists b, st, m, b, n. by split_and!.
    + destruct (is_table_array n); [|done].
      apply bind_inv in Hwalk as (t0 & st0 & Ht0 & Hwalk).
      apply reading_inv in Ht0 as [-> Ht0].
      exists t0, st, m, b, n. split_and!; try done. by rewrite Hkind.
  - apply bind_inv in Hwalk as (t0 & st1 & Ht0 & Hwalk).
    injection Ht0 as <- <-.
    apply bind_inv in Hwalk as (u & st2 & Hins & Hwalk).
    apply writing_inv in Hins as (mem & Hins & ->).
    apply insert_inv in Hins as (m' & Hm' & ->).
    cbn [store set_store] in *.
    assert (Hlt : curr < length (store st)) by (by eapply lookup_lt_Some).
    rewrite lookup_app_l in Hm' by done.
    assert (m' = m) as -> by congruence.
    apply bind_inv in Hwalk as (t' & st3 & Ht' & Hwalk).
    apply reading_inv in Ht' as [-> Ht'].
    apply get_inv in Ht' as (m1 & Hm1 & Ht'). cbn [store set_store] in Hm1.
    rewrite list_lookup_insert_eq in Hm1 by (rewrite length_app; lia).
    injection Hm1 as <-. rewrite lookup_insert_eq in Ht'. injection Ht' as <-.
    do 2 eexists.
    exists (<[substr (line_ st) it (find "." (line_ st) it kg_end)
              := length (store st)]> m), (length (store st)), (table ∅).
    split_and!; [| | | | | exact Hwalk]; cbn [store set_store line_].
    + done.
    + apply list_lookup_insert_eq. rewrite length_app. lia.
    + apply lookup_insert_eq.
    + rewrite list_lookup_insert_ne by lia.
      by rewrite lookup_app_r, Nat.sub_diag by lia.
    + done.
Qed.

(** The table a walk ends in is the one that descending through the parts of
    the name reaches, in any later store that reaches a table at all. *)
Lemma single_table_walk_lookup (kg_end budget : nat) :
  ∀ (it : nat) (curr : ptr) (st : state) (t : ptr) (st' : state),
    Parser.single_table_walk budget it kg_end curr st = Ret (t, st') →
    it ≤ kg_end →
    ∀ (mem : memory) (t' : ptr),
      store_le (store st') mem →
      last (split_parts (substr (line_ st) it kg_end) ".") ≠ Some EmptyString →
      Table.descend mem curr (split_parts (substr (line_ st) it kg_end) ".")
      = Ret (Some t') →
      t' = t.
Proof.
  induction budget as [|budget IH]; intros it curr st t st' Hwalk Hle mem t'
    Hmem Hlast Hd.
  { simpl in Hwalk. destruct (it =? kg_end) eqn:Hit; [|done].
    apply Nat.eqb_eq in Hit as ->. by rewrite substr_empty in Hlast. }
  destruct (it =? kg_end) eqn:Hit.
  { apply Nat.eqb_eq in Hit as ->. by rewrite substr_empty in Hlast. }
  apply Nat.eqb_neq in Hit as Hne.
  apply single_table_walk_step in Hwalk
    as (Hpart & next & st_a & m_a & b & n_a & Hline & Hcurr & Hb & Hn & Hnext
        & Hwalk); [| done].
  assert (Hle_a : store_le (store st_a) mem).
  { eapply store_le_trans; [| exact Hmem].
    by eapply (single_table_walk_keeps budget _ kg_end next st_a). }
  destruct (split_parts_find (line_ st) it kg_end Hle) as [Hend Hmore].
  pose proof (find_if_bounds (Ascii.eqb ".") (line_ st) it kg_end Hle) as Hdot.
  fold (find "." (line_ st) it kg_end) in Hdot.
  destruct (decide (find "." (line_ st) it kg_end = kg_end)) as [Heq | Hlt].
  - rewrite Hend in Hd by done. rewrite Heq in *. rewrite Nat.eqb_refl in Hwalk.
    cbn [negb] in Hwalk. rewrite single_table_walk_end in Hwalk.
    injection Hwalk as <- <-. cbn [Table.descend] in Hd.
    destruct (Table.get_table mem curr _) as [[c'|]| | |] eqn:Hg; try done.
    simpl in Hd. injection Hd as <-.
    destruct (get_table_store_le _ _ _ _ _ _ _ _ Hle_a Hcurr Hb Hn Hg)
      as [-> Hk]. symmetry. by apply Hnext.
  - rewrite Hmore in Hd, Hlast by lia.
    rewrite (proj2 (Nat.eqb_neq _ _) Hlt) in Hwalk. cbn [negb] in Hwalk.
    cbn [Table.descend] in Hd.
    destruct (Table.get_table mem curr _) as [[c'|]| | |] eqn:Hg; try done.
    simpl in Hd.
    destruct (get_table_store_le _ _ _ _ _ _ _ _ Hle_a Hcurr Hb Hn Hg)
      as [-> Hk].
    rewrite <- (Hnext Hk) in Hd.
    eapply (IH _ _ _ _ _ Hwalk); [lia | done | | by rewrite Hline].
    rewrite Hline.
    destruct (split_parts (substr (line_ st) (S _) kg_end) ".") eqn:Hsp;
      [by apply split_parts_nonempty in Hsp | done].
Qed.

Lemma parse_single_table_inv (it end_ : nat) (curr : ptr) (st : state)
    (t : ptr) (st' : state) :
  Parser.parse_single_table it end_ curr st = Ret (t, st') →
  let kg_end := find "]" (line_ st) it end_ in
  it ≤ end_
  ∧ ∃ st1,
      Parser.single_table_walk (kg_end - it) it kg_end curr
        (set_tables ({[table_name (line_ st) it end_]} ∪ tables_ st) st)
      = Ret (t, st1)
      ∧ store st' = store st1.
Proof.
  unfold Parser.parse_single_table. intros H.
  apply bind_inv in H as (line & st0 & [= <- <-] & H).
  destruct (negb (find "[" (line_ st) it end_ =? end_)) eqn:Hob; [done |].
  apply negb_false_iff, Nat.eqb_eq in Hob.
  destruct (it =? find "]" (line_ st) it end_); [done |].
  apply bind_inv in H as (ts & st0 & [= <- <-] & H).
  destruct (bool_decide _); [done |].
  destruct (negb _); [done |].
  apply bind_inv in H as ([] & st0 & [= <-] & H).
  apply bind_inv in H as (t0 & st1 & Hwalk & H).
  destruct (find "]" (line_ st) it end_ =? end_); [done |].
  apply bind_inv in H as ([] & st2 & Heol & [= <- <-]).
  apply eol_or_comment_keeps in Heol as [Hs _].
  cbv zeta. split.
  - pose proof (find_if_n_bounds (Ascii.eqb "[") (line_ st) it (end_ - it)).
    unfold find, find_if in Hob. lia.
  - exists st1. by split.
Qed.



(** ** Arrays *)

Lemma parse_stream_arrays_ok (regex : bool) (stream : string) (d : document) :
  parse_stream regex stream = Ret d → arrays_ok (nodes d).
Proof.
  unfold parse_stream, Parser.parse. intros H.
  destruct (bind _ _ _) as [[r st']| | |] eqn:Hp; try done.
  injection H as <-. cbn [nodes fst snd].
  apply bind_inv in Hp as (root & st1 & [= <- <-] & Hp).
  apply bind_inv in Hp as (budget & st2 & [= <- <-] & Hp).
  apply bind_inv in Hp as ([] & st3 & Hloop & Hp).
  apply bind_inv in Hp as ([] & st4 & [= <-] & [= <- <-]).
  apply parse_loop_keeps in Hloop as (_ & _ & Hok). apply Hok.
  intros p a Hp. destruct p; simpl in Hp; done.
Qed.

(** C2: an integer followed by a boolean is not refused by the rule on the
    kinds of the elements. [parse_bool] reads up to white space or a comment,
    takes the closing bracket into the word, and throws that the boolean is
    invalid before the kinds are compared. *)
Theorem integer_then_boolean :
  parse_stream true "x = [1, true]"
  = Throw (parse_exception "Attempted to parse invalid boolean value" (Some 1))
  ∧ parse_stream false "x = [1, true]"
    = Throw (parse_exception "Attempted to parse invalid boolean value"
                             (Some 1)).
Proof. split; vm_compute; reflexivity. Qed.

(** The other mixtures are refused by that rule: a boolean that white space
    follows, a float, a string and an array after an integer, and a date
    after a string. *)
Lemma other_mixtures_rejected (regex : bool) :
  ∀ doc, doc ∈ ["x = [1, true ]"; "x = [1, 2.5]"; with_quotes "x = [1, 'a']";
                "x = [1, [2]]";
                with_quotes "x = ['a', 1979-05-27T07:32:00Z]"] →
         parse_stream regex doc
         = Throw (parse_exception "Arrays must be heterogeneous" (Some 1)).
Proof.
  intros doc Hdoc. repeat (apply elem_of_cons in Hdoc as [-> | Hdoc]);
    [..| by apply elem_of_nil in Hdoc];
    destruct regex; vm_compute; reflexivity.
Qed.

(** C7: an array of booleans is refused: [parse_array] has no case for
    [parse_type::BOOL]. *)
Theorem boolean_array_rejected (regex : bool) :
  parse_stream regex "x = [true, false]"
  = Throw (parse_exception "Unable to parse array" (Some 1)).
Proof. destruct regex; vm_compute; reflexivity. Qed.

(** Arrays of the four other kinds of scalars are accepted. *)
Lemma other_arrays_accepted (regex : bool) :
  ∀ doc, doc ∈ [with_quotes "x = ['a', 'b']"; "x = [1, -2]"; "x = [1.5, 2.5]";
                "x = [1979-05-27T07:32:00Z, 1980-01-01T00:00:00Z]"] →
         ∃ d a v w, parse_stream regex doc = Ret d
                    ∧ Table.get_array (nodes d) (root d) "x" = Ret (Some a)
                    ∧ Array.get (nodes d) a = Ret [v; w].
Proof.
  intros doc Hdoc. repeat (apply elem_of_cons in Hdoc as [-> | Hdoc]);
    [..| by apply elem_of_nil in Hdoc];
    destruct regex; do 4 eexists; split_and!; vm_compute; reflexivity.
Qed.

(** C6: the exception for white space in a table name is built without the
    line number, unlike every other exception of the parser. *)
Theorem table_name_with_whitespace (regex : bool) :
  parse_stream regex "[a b]"
  = Throw (parse_exception "Table name a b cannot have whitespace" None)
  ∧ what (parse_exception "Table name a b cannot have whitespace" None)
    = "Table name a b cannot have whitespace".
Proof. destruct regex; split; vm_compute; reflexivity. Qed.

(** ** The budgets are enough *)

Lemma total_ret {A} (a : A) (st : state) (Q : A → state → Prop) :
  Q a st → total (ret a) st Q.
Proof. done. Qed.

Lemma total_bind {A B} (c : M A) (k : A → M B) (st : state)
    (Q : B → state → Prop) :
  total c st (λ a st', total (k a) st' Q) → total (bind c k) st Q.
Proof. unfold total, bind. by destruct (c st) as [[a st1]| | |]. Qed.

Lemma total_mono {A} (c : M A) (st : state) (Q Q' : A → state → Prop) :
  total c st Q → (∀ a st', Q a st' → Q' a st') → total c st Q'.
Proof. unfold total. destruct (c st) as [[a st1]| | |]; eauto. Qed.

Lemma total_gets {A} (f : state → A) (st : state) (Q : A → state → Prop) :
  Q (f st) st → total (gets f) st Q.
Proof. done. Qed.

Lemma total_throw {A} (err : string) (st : state) (Q : A → state → Prop) :
  total (Parser.throw_parse_exception err) st Q.
Proof. done. Qed.

Lemma total_new (n : base) (st : state) (Q : ptr → state → Prop) :
  Q (length (store st)) (set_store (store st ++ [n]) st) → total (new n) st Q.
Proof. done. Qed.

Lemma total_steady {A} (c : M A) (st : state) (Q : A → state → Prop) :
  steady c → returns c st Q → total c st Q.
Proof.
  intros Hs Hr. unfold total. specialize (Hs st).
  destruct (c st) as [[a st1]| | |] eqn:Hc; try done. by apply Hr.
Qed.

Lemma total_not_exhausted {A} (c : M A) (st : state) (Q : A → state → Prop) :
  total c st Q → c st ≠ Exhausted.
Proof. unfold total. by destruct (c st) as [[a st1]| | |]. Qed.

Lemma steady_ret {A} (a : A) : steady (ret a).
Proof. done. Qed.

Lemma steady_bind {A B} (c : M A) (k : A → M B) :
  steady c → (∀ a, steady (k a)) → steady (bind c k).
Proof.
  intros Hc Hk st. unfold bind. specialize (Hc st).
  destruct (c st) as [[a st1]| | |]; try done. apply Hk.
Qed.

Lemma steady_gets {A} (f : state → A) : steady (gets f).
Proof. done. Qed.

Lemma steady_throw {A} (e : exception) : steady (@throw A e).
Proof. done. Qed.

Lemma steady_throw_parse_exception {A} (err : string) :
  steady (@Parser.throw_parse_exception A err).
Proof. done. Qed.

Lemma steady_undefined {A} : steady (@undefined A).
Proof. done. Qed.

Lemma steady_new (n : base) : steady (new n).
Proof. done. Qed.

Lemma steady_reading {A} (f : memory → outcome A) :
  (∀ mem, f mem ≠ Exhausted) → steady (reading f).
Proof.
  intros Hf st. unfold reading. specialize (Hf (store st)).
  by destruct (f (store st)).
Qed.

Lemma steady_writing (f : memory → outcome memory) :
  (∀ mem, f mem ≠ Exhausted) → steady (writing f).
Proof.
  intros Hf st. unfold writing. specialize (Hf (store st)).
  by destruct (f (store st)).
Qed.

Lemma steady_lift {A} (o : outcome A) :
  o ≠ Exhausted → steady (λ st, let! a := o in Ret (a, st)).
Proof. intros Ho st. by destruct o. Qed.

Lemma steady_state {A} (f : state → A * state) : steady (λ st, Ret (f st)).
Proof. done. Qed.

(** The operations on the store have no budget. *)
Ltac store_steady :=
  intros;
  unfold Table.contains, Table.get, Table.insert, Table.map_of,
    TableArray.back, TableArray.push_back, TableArray.get,
    Array.push_back, Array.get, as_, load, stoll, stoi, stod, obind;
  repeat case_match; simpl; done.

Lemma contains_steady (t : ptr) (key : string) (mem : memory) :
  Table.contains mem t key ≠ Exhausted.
Proof. store_steady. Qed.

Lemma get_steady (t : ptr) (key : string) (mem : memory) :
  Table.get mem t key ≠ Exhausted.
Proof. store_steady. Qed.

Lemma insert_steady (t : ptr) (key : string) (v : ptr) (mem : memory) :
  Table.insert mem t key v ≠ Exhausted.
Proof. store_steady. Qed.

Lemma load_steady (p : ptr) (mem : memory) : load mem p ≠ Exhausted.
Proof. store_steady. Qed.

Lemma back_steady (b : ptr) (mem : memory) : TableArray.back mem b ≠ Exhausted.
Proof. store_steady. Qed.

Lemma table_array_push_back_steady (b t : ptr) (mem : memory) :
  TableArray.push_back mem b t ≠ Exhausted.
Proof. store_steady. Qed.

Lemma array_push_back_steady (b t : ptr) (mem : memory) :
  Array.push_back mem b t ≠ Exhausted.
Proof. store_steady. Qed.

Lemma as_steady (T : value_type) (v : ptr) (mem : memory) :
  as_ T mem v ≠ Exhausted.
Proof. store_steady. Qed.

Lemma stoll_steady (v : string) : stoll v ≠ Exhausted.
Proof. store_steady. Qed.

Lemma stod_steady (v : string) : stod v ≠ Exhausted.
Proof. store_steady. Qed.

Lemma stoi_steady (v : string) : stoi v ≠ Exhausted.
Proof. store_steady. Qed.

Lemma date_fields_steady (regex : bool) (s : string) :
  Parser.date_fields regex s ≠ Exhausted.
Proof.
  unfold Parser.date_fields. destruct regex; [| by case_match].
  generalize (if regex_match s date_pattern
              then [substr s 0 4; substr s 5 7; substr s 8 10;
                    substr s 11 13; substr s 14 16; substr s 17 19]
              else replicate 6 EmptyString).
  intros gs. induction gs as [|g gs IH]; [done |].
  pose proof (stoi_steady g) as Hg. destruct (stoi g); simpl; try done.
  match type of IH with ?c ≠ _ => by destruct c end.
Qed.

Create HintDb steady.
#[export] Hint Resolve contains_steady get_steady insert_steady load_steady
  back_steady table_array_push_back_steady array_push_back_steady as_steady
  stoll_steady stod_steady date_fields_steady : steady.

Ltac steady_step :=
  lazymatch goal with
  | |- steady (ret _) => apply steady_ret
  | |- steady (bind _ _) => apply steady_bind; [| intros ?]
  | |- steady (gets _) => apply steady_gets
  | |- steady (throw _) => apply steady_throw
  | |- steady (Parser.throw_parse_exception _) =>
      apply steady_throw_parse_exception
  | |- steady undefined => apply steady_undefined
  | |- steady (new _) => apply steady_new
  | |- steady (reading _) => apply steady_reading; intros ?; auto with steady
  | |- steady (writing _) => apply steady_writing; intros ?; auto with steady
  | |- steady (if ?b then _ else _) => destruct b
  | |- steady (match ?x with _ => _ end) => destruct x
  | |- steady (λ st, let! a := _ in Ret (a, st)) =>
      apply steady_lift; auto with steady
  | |- steady (λ st, Ret _) => apply steady_state
  | |- steady _ => solve [auto with steady]
  end.

Ltac steady_auto := cbv zeta; repeat (steady_step; cbv zeta).

Lemma eol_or_comment_steady (it end_ : nat) :
  steady (Parser.eol_or_comment it end_).
Proof. unfold Parser.eol_or_comment. steady_auto. Qed.

Lemma determine_value_type_steady (regex : bool) (it end_ : nat) :
  steady (Parser.determine_value_type regex it end_).
Proof. unfold Parser.determine_value_type. steady_auto. Qed.

Lemma parse_escape_code_steady (it end_ : nat) :
  steady (Parser.parse_escape_code it end_).
Proof. unfold Parser.parse_escape_code. steady_auto. Qed.

Lemma parse_bool_steady (it end_ : nat) : steady (Parser.parse_bool it end_).
Proof. unfold Parser.parse_bool. steady_auto. Qed.

Lemma parse_number_steady (it end_ : nat) :
  steady (Parser.parse_number it end_).
Proof.
  unfold Parser.parse_number, Parser.parse_int, Parser.parse_float.
  steady_auto.
Qed.

Lemma parse_date_steady (regex : bool) (it end_ : nat) :
  steady (Parser.parse_date regex it end_).
Proof. unfold Parser.parse_date. steady_auto. Qed.

Lemma skip_lines_steady (input : list string) (start end_ : nat) :
  steady (Parser.skip_lines input start end_).
Proof.
  revert start end_. induction input as [|l input IH]; intros start end_ st;
    simpl; case_match; try done. apply IH.
Qed.

Lemma skip_whitespace_and_comments_steady (start end_ : nat) :
  steady (Parser.skip_whitespace_and_comments start end_).
Proof. intros st. apply skip_lines_steady. Qed.

#[export] Hint Resolve eol_or_comment_steady determine_value_type_steady
  parse_escape_code_steady parse_bool_steady parse_number_steady
  parse_date_steady skip_whitespace_and_comments_steady : steady.

(** ** The functions that stay on their line *)

#[export] Instance same_line_preorder : PreOrder same_line.
Proof.
  split; [by intros st |].
  intros st1 st2 st3 [H1 H2] [H3 H4]. split; congruence.
Qed.

Lemma keeps_same_line_new (n : base) : keeps same_line (new n).
Proof. intros st. by apply returns_new. Qed.

Lemma keeps_same_line_writing (f : memory → outcome memory) :
  keeps same_line (writing f).
Proof. intros st. apply returns_writing. by intros mem _. Qed.

#[export] Hint Resolve keeps_same_line_new keeps_same_line_writing : keeps.

Lemma string_literal_loop_same_line (budget it end_ : nat) (val : string) :
  keeps same_line (Parser.string_literal_loop budget it end_ val).
Proof.
  revert it val. induction budget as [|budget IH]; intros it val; simpl;
    unfold Parser.parse_escape_code; keeps_auto.
Qed.
#[export] Hint Resolve string_literal_loop_same_line : keeps.

Lemma parse_string_same_line (it end_ : nat) :
  keeps same_line (Parser.parse_string it end_).
Proof. unfold Parser.parse_string, Parser.string_literal. keeps_auto. Qed.

Lemma parse_number_same_line (it end_ : nat) :
  keeps same_line (Parser.parse_number it end_).
Proof.
  unfold Parser.parse_number, Parser.parse_int, Parser.parse_float.
  keeps_auto.
Qed.

Lemma parse_bool_same_line (it end_ : nat) :
  keeps same_line (Parser.parse_bool it end_).
Proof. unfold Parser.parse_bool. keeps_auto. Qed.

Lemma parse_date_same_line (regex : bool) (it end_ : nat) :
  keeps same_line (Parser.parse_date regex it end_).
Proof. unfold Parser.parse_date. keeps_auto. Qed.

(** ** Where the iterators stand *)

Lemma deref_end (s : string) (it : nat) :
  String.length s ≤ it → deref s it = "000"%char.
Proof.
  revert it. induction s as [|c s IH]; intros it H; [by destruct it |].
  destruct it as [|it]; simpl in H; [lia |]. rewrite deref_shift.
  apply IH. lia.
Qed.

Lemma deref_in_line (s : string) (it : nat) :
  deref s it ≠ "000"%char → it < String.length s.
Proof.
  intros H. destruct (decide (it < String.length s)); [done |].
  destruct H. apply deref_end. lia.
Qed.

Lemma find_if_first (p : ascii → bool) (s : string) (it end_ : nat) :
  it < end_ → p (deref s it) = false → it < find_if p s it end_.
Proof.
  intros Hlt Hp. unfold find_if.
  destruct (end_ - it) as [|n] eqn:Hn; [lia |]. simpl. rewrite Hp.
  pose proof (find_if_n_bounds p s (S it) n). lia.
Qed.

Lemma substring_length_le (s : string) (p n : nat) :
  String.length (String.substring p n s) ≤ n.
Proof.
  revert p n. induction s as [|c s IH]; intros [|p] [|n]; simpl; try lia.
  - specialize (IH 0 n). lia.
  - apply (IH p 0).
  - apply (IH p (S n)).
Qed.

Lemma regex_match_length (s : string) (pattern : list (option ascii)) :
  regex_match s pattern = true → String.length s = length pattern.
Proof.
  revert s. induction pattern as [|[x|] pattern IH]; intros [|c s]; simpl;
    try done; intros [_ H]%andb_prop; f_equal; by apply IH.
Qed.

Lemma is_date_length (regex : bool) (line : string) (it end_ : nat) :
  Parser.is_date regex line it end_ = true →
  it < find_if Parser.not_date_char line it end_.
Proof.
  unfold Parser.is_date. intros H.
  assert (String.length
            (substr line it (find_if Parser.not_date_char line it end_)) = 20)
    as Hlen.
  { destruct regex.
    - by apply regex_match_length in H.
    - repeat apply andb_prop in H as [H _]. by apply Nat.eqb_eq in H. }
  pose proof (substring_length_le line it
                (find_if Parser.not_date_char line it end_ - it)) as Hle.
  unfold substr in Hlen. lia.
Qed.

(** What [determine_value_type] has seen when it answers. *)
Lemma determine_value_type_inv (regex : bool) (it end_ : nat) (st : state) :
  returns (Parser.determine_value_type regex it end_) st
    (λ type st',
       st' = st
       ∧ match type with
         | Parser.STRING => deref (line_ st) it = "034"%char
         | Parser.DATE => Parser.is_date regex (line_ st) it end_ = true
         | Parser.INT | Parser.FLOAT =>
             is_number (deref (line_ st) it)
             || Ascii.eqb (deref (line_ st) it) "-" = true
         | Parser.BOOL =>
             Ascii.eqb (deref (line_ st) it) "t"
             || Ascii.eqb (deref (line_ st) it) "f" = true
         | Parser.ARRAY => deref (line_ st) it = "["%char
         end).
Proof.
  unfold Parser.determine_value_type. apply returns_bind, returns_gets.
  repeat case_match; try apply returns_throw_parse_exception.
  all: apply returns_ret; (split; [done |]); try done;
    try by apply Ascii.eqb_eq.
  unfold Parser.determine_number_type. by destruct (_ && _).
Qed.

Lemma total_leaf {A} (c : M (A * nat)) (st : state) (it end_ : nat) :
  steady c → keeps same_line c →
  returns c st (λ r _, it < r.2 ≤ end_) →
  total c st (λ r st', advances st it end_ r.2 st').
Proof.
  intros Hs Hk Hr. apply total_steady; [done |].
  intros r st' Hc. split; [by eapply Hk | by eapply Hr].
Qed.

Lemma string_literal_loop_total (budget it end_ : nat) (val : string)
    (st : state) :
  it ≤ end_ → end_ - it ≤ budget →
  total (Parser.string_literal_loop budget it end_ val) st
    (λ r _, it < r.2 ≤ end_).
Proof.
  revert it val. induction budget as [|budget IH]; intros it val Hle Hb;
    simpl; destruct (it =? end_) eqn:Hit; try apply total_throw;
    apply Nat.eqb_neq in Hit; [lia |].
  apply total_bind, total_gets. repeat case_match.
  - unfold Parser.parse_escape_code.
    apply total_bind, total_bind, total_gets.
    destruct (S it =? end_) eqn:Hit'; [apply total_throw |].
    apply Nat.eqb_neq in Hit'.
    apply total_bind.
    assert (∀ v : ascii,
      total (ret v) st (λ a st', total (ret (a, S (S it))) st'
        (λ a0 st'0, total (let (c, it0) := a0 in
           Parser.string_literal_loop budget it0 end_
             (val +:+ String c EmptyString)) st'0
           (λ r _, it < r.2 ≤ end_)))) as Hv.
    { intros v. apply total_ret, total_ret.
      eapply total_mono; [apply IH; lia |]. simpl. lia. }
    repeat case_match; try apply Hv; apply total_throw.
  - apply total_ret. simpl.
    pose proof (find_if_bounds (λ c, negb (is_blank c)) (line_ st) (S it) end_).
    unfold Parser.consume_whitespace. lia.
  - eapply total_mono; [apply IH; lia |]. simpl. lia.
Qed.

Lemma parse_string_total (it end_ : nat) (st : state) :
  it < end_ →
  total (Parser.parse_string it end_) st
    (λ r st', advances st it end_ r.2 st').
Proof.
  intros Hlt.
  assert (total (Parser.parse_string it end_) st (λ r _, it < r.2 ≤ end_))
    as Ht.
  { unfold Parser.parse_string, Parser.string_literal. apply total_bind.
    eapply total_mono; [apply string_literal_loop_total; lia |].
    intros [s it'] st' H. simpl in *. apply total_bind, total_new, total_ret.
    simpl. lia. }
  pose proof (parse_string_same_line it end_ st) as Hk.
  unfold total, returns in *.
  destruct (Parser.parse_string it end_ st) as [[r st']| | |]; try done.
  split; [by eapply Hk | done].
Qed.

Lemma parse_date_total (regex : bool) (it end_ : nat) (st : state) :
  it ≤ end_ → Parser.is_date regex (line_ st) it end_ = true →
  total (Parser.parse_date regex it end_) st
    (λ r st', advances st it end_ r.2 st').
Proof.
  intros Hle Hd. apply total_leaf; [auto with steady |
    apply parse_date_same_line |].
  unfold Parser.parse_date. apply returns_bind, returns_gets.
  apply returns_bind, returns_lift. intros fs _.
  apply is_date_length in Hd.
  pose proof (find_if_bounds Parser.not_date_char (line_ st) it end_ Hle).
  repeat case_match; try apply returns_undefined.
  apply returns_bind, returns_new, returns_ret. simpl. lia.
Qed.

Lemma parse_number_total (it end_ : nat) (st : state) :
  it < end_ →
  is_number (deref (line_ st) it) || Ascii.eqb (deref (line_ st) it) "-"
  = true →
  total (Parser.parse_number it end_) st
    (λ r st', advances st it end_ r.2 st').
Proof.
  intros Hlt Hc. apply total_leaf; [auto with steady |
    apply parse_number_same_line |].
  unfold Parser.parse_number. apply returns_bind, returns_gets.
  set (start := if Ascii.eqb (deref (line_ st) it) "-" then S it else it).
  set (check_it := find_if (λ c, negb (is_number c)) (line_ st) start end_).
  assert (it < check_it ≤ end_) as Hcheck.
  { subst check_it start. destruct (Ascii.eqb (deref (line_ st) it) "-").
    - pose proof (find_if_bounds (λ c, negb (is_number c)) (line_ st)
                    (S it) end_). lia.
    - rewrite orb_false_r in Hc.
      pose proof (find_if_first (λ c, negb (is_number c)) (line_ st) it end_
                    Hlt) as Hf.
      pose proof (find_if_bounds (λ c, negb (is_number c)) (line_ st) it end_).
      simpl in Hf. rewrite Hc in Hf. specialize (Hf eq_refl). lia. }
  assert (∀ stop (p : nat → nat → M (ptr * nat)), it < stop ≤ end_ →
    returns (p it stop) st (λ r _, r.2 = stop) →
    returns (p it stop) st (λ r _, it < r.2 ≤ end_)) as Hstop.
  { intros stop p Hs Hr. eapply returns_mono; [apply Hr |]. simpl.
    intros r _ ->. done. }
  destruct (negb (check_it =? end_) && _) eqn:Hdot.
  - apply andb_prop in Hdot as [Hne%negb_true_iff%Nat.eqb_neq _].
    destruct (S check_it =? end_) eqn:Hend;
      [apply returns_throw_parse_exception |].
    apply Nat.eqb_neq in Hend.
    pose proof (find_if_bounds (λ c, negb (is_number c)) (line_ st)
                  (S check_it) end_).
    apply (Hstop _ Parser.parse_float); [lia |].
    unfold Parser.parse_float. apply returns_bind, returns_gets.
    apply returns_bind, returns_lift. intros d _.
    by apply returns_bind, returns_new, returns_ret.
  - apply (Hstop _ Parser.parse_int); [lia |].
    unfold Parser.parse_int. apply returns_bind, returns_gets.
    apply returns_bind, returns_lift. intros d _.
    by apply returns_bind, returns_new, returns_ret.
Qed.

Lemma parse_bool_total (it end_ : nat) (st : state) :
  it < end_ →
  Ascii.eqb (deref (line_ st) it) "t" || Ascii.eqb (deref (line_ st) it) "f"
  = true →
  total (Parser.parse_bool it end_) st
    (λ r st', advances st it end_ r.2 st').
Proof.
  intros Hlt Hc. apply total_leaf; [auto with steady |
    apply parse_bool_same_line |].
  unfold Parser.parse_bool. apply returns_bind, returns_gets.
  assert (it < find_if (λ c, is_blank c || Ascii.eqb c "#") (line_ st) it end_
          ≤ end_) as Hb.
  { pose proof (find_if_bounds (λ c, is_blank c || Ascii.eqb c "#") (line_ st)
                  it end_).
    pose proof (find_if_first (λ c, is_blank c || Ascii.eqb c "#") (line_ st)
                  it end_ Hlt) as Hf.
    assert (is_blank (deref (line_ st) it)
            || Ascii.eqb (deref (line_ st) it) "#" = false) as Hp.
    { apply orb_prop in Hc as [->%Ascii.eqb_eq | ->%Ascii.eqb_eq]; done. }
    specialize (Hf Hp). lia. }
  repeat case_match; try apply returns_throw_parse_exception;
    by apply returns_bind, returns_new, returns_ret.
Qed.

(** ** The characters still to be read *)

Lemma total_reading {A} (f : memory → outcome A) (st : state)
    (Q : A → state → Prop) :
  f (store st) ≠ Exhausted →
  (∀ a, f (store st) = Ret a → Q a st) → total (reading f) st Q.
Proof.
  intros He H. unfold total, reading.
  destruct (f (store st)) eqn:Hf; simpl; try done. eauto.
Qed.

Lemma total_writing (f : memory → outcome memory) (st : state)
    (Q : unit → state → Prop) :
  f (store st) ≠ Exhausted →
  (∀ mem, f (store st) = Ret mem → Q tt (set_store mem st)) →
  total (writing f) st Q.
Proof.
  intros He H. unfold total, writing.
  destruct (f (store st)) eqn:Hf; simpl; try done. eauto.
Qed.

Lemma total_undefined {A} (st : state) (Q : A → state → Prop) :
  total undefined st Q.
Proof. done. Qed.

Lemma total_throw_exception {A} (e : exception) (st : state)
    (Q : A → state → Prop) :
  total (throw e) st Q.
Proof. done. Qed.

Ltac total_step :=
  lazymatch goal with
  | |- total (ret _) _ _ => apply total_ret
  | |- total (bind _ _) _ _ => apply total_bind
  | |- total (gets _) _ _ => apply total_gets
  | |- total (Parser.throw_parse_exception _) _ _ => apply total_throw
  | |- total (throw _) _ _ => apply total_throw_exception
  | |- total undefined _ _ => apply total_undefined
  | |- total (new _) _ _ => apply total_new
  | |- total (reading _) _ _ =>
      apply total_reading; [auto with steady | intros ? _]
  | |- total (writing _) _ _ =>
      apply total_writing; [auto with steady | intros ? _]
  | |- total (if ?b then _ else _) _ _ => destruct b eqn:?
  end.

Ltac total_auto := cbv beta iota zeta; repeat (total_step; cbv beta iota zeta).

Lemma advances_remaining (st st' : state) (it end_ it' : nat) :
  in_line st it end_ → advances st it end_ it' st' →
  in_line st' it' end_ ∧ remaining st' it' < remaining st it.
Proof.
  unfold in_line, advances, same_line, remaining.
  intros [-> Hle] [[-> ->] Hit]. split; [split; [done | lia] | lia].
Qed.

Lemma skip_lines_remaining (input : list string) (start end_ : nat)
    (st : state) :
  input = input_ st → in_line st start end_ →
  returns (Parser.skip_lines input start end_) st
    (λ r st', in_line st' r.1 r.2 ∧ r.1 < r.2
              ∧ remaining st' r.1 ≤ remaining st start).
Proof.
  revert start end_ st.
  assert (∀ start end_ st r st',
    in_line st start end_ → (start =? end_) = false →
    Ret ((start, end_), st) = Ret (r, st') →
    in_line st' r.1 r.2 ∧ r.1 < r.2 ∧ remaining st' r.1 ≤ remaining st start)
    as Hstay.
  { intros start end_ st r st' [Hend Hle] Hc%Nat.eqb_neq [= <- <-]. simpl.
    split_and!; [done | lia | lia]. }
  induction input as [|l input IH]; intros start end_ st Hin Hline r st';
    simpl; destruct (_ || _) eqn:Hc; try done;
    try (apply orb_false_elim in Hc as [Hc _]; by apply Hstay).
  intros Hskip. apply IH in Hskip as (H1 & H2 & H3); [| done |].
  - split_and!; [done.. |].
    etrans; [apply H3 |]. unfold remaining. simpl. rewrite <- Hin. simpl. lia.
  - split; [done |].
    pose proof (find_if_bounds (λ c, negb (is_blank c)) l 0
                  (String.length l)).
    unfold Parser.consume_whitespace. simpl. lia.
Qed.

Lemma skip_whitespace_and_comments_total (start end_ : nat) (st : state) :
  in_line st start end_ →
  total (Parser.skip_whitespace_and_comments start end_) st
    (λ r st', in_line st' r.1 r.2 ∧ r.1 < r.2
              ∧ remaining st' r.1 ≤ remaining st start).
Proof.
  intros [Hend Hle]. apply total_steady; [auto with steady |].
  pose proof (find_if_bounds (λ c, negb (is_blank c)) (line_ st) start end_
                Hle) as Hb.
  eapply returns_mono.
  { apply (skip_lines_remaining (input_ st)
             (Parser.consume_whitespace (line_ st) start end_) end_ st);
      [done |]. split; [done |]. unfold Parser.consume_whitespace. lia. }
  intros r st' (H1 & H2 & H3). split_and!; [done.. |].
  etrans; [apply H3 |]. unfold remaining, Parser.consume_whitespace. lia.
Qed.

(** Every call in the family of [parse_value] and every turn of its loops
    reads a character, so a budget of four times the characters left is
    enough. *)
Lemma value_family_total (regex : bool) (budget : nat) :
  (∀ it end_ st, in_line st it end_ → 4 * remaining st it + 2 ≤ budget →
     total (Parser.parse_value regex budget it end_) st
       (λ r st', in_line st' r.2.1 r.2.2
                 ∧ remaining st' r.2.1 < remaining st it))
  ∧ (∀ it end_ st, in_line st it end_ → it < end_ →
       4 * remaining st it + 1 ≤ budget →
       total (Parser.parse_array regex budget it end_) st
         (λ r st', in_line st' r.2.1 r.2.2
                   ∧ remaining st' r.2.1 < remaining st it))
  ∧ (∀ T it end_ st, in_line st it end_ → 4 * remaining st it + 4 ≤ budget →
       total (Parser.parse_value_array regex budget T it end_) st
         (λ r st', in_line st' r.2.1 r.2.2
                   ∧ remaining st' r.2.1 ≤ remaining st it))
  ∧ (∀ T arr it end_ st, in_line st it end_ →
       4 * remaining st it + 3 ≤ budget →
       total (Parser.parse_value_array_loop regex budget T arr it end_) st
         (λ r st', in_line st' r.1 r.2 ∧ remaining st' r.1 ≤ remaining st it))
  ∧ (∀ it end_ st, in_line st it end_ → 4 * remaining st it + 4 ≤ budget →
       total (Parser.parse_nested_array regex budget it end_) st
         (λ r st', in_line st' r.2.1 r.2.2
                   ∧ remaining st' r.2.1 ≤ remaining st it))
  ∧ (∀ arr it end_ st, in_line st it end_ →
       4 * remaining st it + 3 ≤ budget →
       total (Parser.parse_nested_array_loop regex budget arr it end_) st
         (λ r st', in_line st' r.1 r.2 ∧ remaining st' r.1 ≤ remaining st it)).
Proof.
  induction budget as [|budget (IHv & IHa & IHva & IHvl & IHna & IHnl)].
  { split_and!; intros; lia. }
  assert (Hleaf : ∀ (c : M (ptr * nat)) it end_ st,
    in_line st it end_ →
    total c st (λ r st', advances st it end_ r.2 st') →
    total (let* (v, it) := c in ret (v, (it, end_))) st
      (λ r st', in_line st' r.2.1 r.2.2
                ∧ remaining st' r.2.1 < remaining st it)).
  { intros c it end_ st Hin Hc. apply total_bind.
    eapply total_mono; [apply Hc |]. intros [v it'] st' Hadv.
    apply total_ret. simpl. by eapply advances_remaining. }
  assert (Hin_line : ∀ st it end_ (c : ascii),
    in_line st it end_ → deref (line_ st) it = c → c ≠ "000"%char →
    it < end_).
  { intros st it end_ c [-> _] <- Hc. by apply deref_in_line. }
  split_and!.
  - (* parse_value *)
    intros it end_ st Hin Hb. simpl. apply total_bind.
    apply total_steady; [auto with steady |].
    eapply returns_mono; [apply determine_value_type_inv |].
    intros type st' [-> Htype]. destruct type.
    + apply Hleaf; [done |]. apply parse_string_total.
      by eapply Hin_line.
    + apply Hleaf; [done |]. apply parse_date_total; [apply Hin | done].
    + apply Hleaf; [done |]. apply parse_number_total; [| done].
      destruct Hin as [-> _]. apply deref_in_line. intros Heq.
      by rewrite Heq in Htype.
    + apply Hleaf; [done |]. apply parse_number_total; [| done].
      destruct Hin as [-> _]. apply deref_in_line. intros Heq.
      by rewrite Heq in Htype.
    + apply Hleaf; [done |]. apply parse_bool_total; [| done].
      destruct Hin as [-> _]. apply deref_in_line. intros Heq.
      by rewrite Heq in Htype.
    + apply IHa; [done | by eapply Hin_line | lia].
  - (* parse_array *)
    intros it end_ st Hin Hlt Hb. simpl. apply total_bind.
    assert (remaining st (S it) < remaining st it) as Hnext.
    { destruct Hin as [-> _]. unfold remaining. lia. }
    eapply total_mono.
    { apply skip_whitespace_and_comments_total. destruct Hin. split; [done | lia]. }
    intros [it2 end2] st2 (Hin2 & Hlt2 & Hrem2). simpl in Hin2, Hlt2, Hrem2.
    apply total_bind, total_gets. case_match.
    { apply total_bind, total_new, total_ret.
      unfold in_line, remaining in *. simpl. lia. }
    apply total_bind. apply total_steady; [auto with steady |].
    eapply returns_mono; [apply determine_value_type_inv |].
    intros type st' [-> _].
    destruct type; try apply total_throw;
      (eapply total_mono; [first [apply IHva | apply IHna]; [done | lia] |]);
      intros r st' [H1 H2]; (split; [done | lia]).
  - (* parse_value_array *)
    intros T it end_ st Hin Hb. simpl. apply total_bind, total_new.
    apply total_bind. eapply total_mono.
    { apply IHvl; [apply Hin | unfold remaining in *; simpl in *; lia]. }
    intros [it1 end1] st1 [Hin1 Hrem1]. apply total_ret.
    unfold in_line, remaining in *. simpl in *. case_match; simpl.
    + apply negb_true_iff, Nat.eqb_neq in H. lia.
    + lia.
  - (* parse_value_array_loop *)
    intros T arr it end_ st Hin Hb. simpl. apply total_bind, total_gets.
    case_match; [| apply total_ret; simpl; split; [done | lia]].
    apply total_bind. eapply total_mono; [by apply IHv; [| lia] |].
    intros [v [it1 end1]] st1 [Hin1 Hrem1]. simpl in Hin1, Hrem1.
    apply total_bind. unfold Parser.as_value.
    apply total_reading; [auto with steady |]. intros [p|] _;
      [| apply total_throw].
    apply total_bind, total_writing; [auto with steady |]. intros mem _.
    apply total_bind. eapply total_mono.
    { apply skip_whitespace_and_comments_total. apply Hin1. }
    intros [it2 end2] st2 (Hin2 & Hlt2 & Hrem2). simpl in Hin2, Hlt2, Hrem2.
    assert (remaining st2 it2 ≤ remaining st1 it1) as Hrem2' by done.
    apply total_bind, total_gets. case_match; [apply total_ret; simpl; split; [done | lia] |].
    apply total_bind.
    assert (remaining st2 (S it2) < remaining st2 it2) as Hnext.
    { destruct Hin2 as [-> _]. unfold remaining. lia. }
    eapply total_mono.
    { apply skip_whitespace_and_comments_total.
      destruct Hin2. split; [done | lia]. }
    intros [it3 end3] st3 (Hin3 & Hlt3 & Hrem3). simpl in Hin3, Hlt3, Hrem3.
    eapply total_mono; [apply IHvl; [done | lia] |].
    intros r st' [H1 H2]. split; [done | lia].
  - (* parse_nested_array *)
    intros it end_ st Hin Hb. simpl. apply total_bind, total_new.
    apply total_bind. eapply total_mono.
    { apply IHnl; [apply Hin | unfold remaining in *; simpl in *; lia]. }
    intros [it1 end1] st1 [Hin1 Hrem1]. apply total_ret.
    unfold in_line, remaining in *. simpl in *. case_match; simpl.
    + apply negb_true_iff, Nat.eqb_neq in H. lia.
    + lia.
  - (* parse_nested_array_loop *)
    intros arr it end_ st Hin Hb. simpl. apply total_bind, total_gets.
    case_match; [| apply total_ret; simpl; split; [done | lia]].
    apply andb_prop in H as [Hne%negb_true_iff%Nat.eqb_neq _].
    apply total_bind. eapply total_mono.
    { apply IHa; [done | destruct Hin; lia | lia]. }
    intros [v [it1 end1]] st1 [Hin1 Hrem1]. simpl in Hin1, Hrem1.
    apply total_bind, total_writing; [auto with steady |]. intros mem _.
    apply total_bind. eapply total_mono.
    { apply skip_whitespace_and_comments_total. apply Hin1. }
    intros [it2 end2] st2 (Hin2 & Hlt2 & Hrem2). simpl in Hin2, Hlt2, Hrem2.
    assert (remaining st2 it2 ≤ remaining st1 it1) as Hrem2' by done.
    apply total_bind, total_gets. case_match; [apply total_ret; simpl; split; [done | lia] |].
    apply total_bind.
    assert (remaining st2 (S it2) < remaining st2 it2) as Hnext.
    { destruct Hin2 as [-> _]. unfold remaining. lia. }
    eapply total_mono.
    { apply skip_whitespace_and_comments_total.
      destruct Hin2. split; [done | lia]. }
    intros [it3 end3] st3 (Hin3 & Hlt3 & Hrem3). simpl in Hin3, Hlt3, Hrem3.
    eapply total_mono; [apply IHnl; [done | lia] |].
    intros r st' [H1 H2]. split; [done | lia].
Qed.

(** ** The lines of a document *)

Lemma total_and {A} (c : M A) (st : state) (Q Q' : A → state → Prop) :
  total c st Q → returns c st Q' → total c st (λ a st', Q a st' ∧ Q' a st').
Proof.
  unfold total, returns. intros Ht Hr.
  destruct (c st) as [[a st']| | |]; try done. split; [done | by apply Hr].
Qed.

Lemma total_next_line_number (st : state) (Q : unit → state → Prop) :
  Q tt (mk_state (store st) (input_ st) (line_ st) (S (line_number_ st))
                 (tables_ st)) →
  total next_line_number st Q.
Proof. done. Qed.

Lemma total_set_tables (f : state → gset string) (st : state)
    (Q : unit → state → Prop) :
  Q tt (set_tables (f st) st) →
  total (λ st, Ret (tt, set_tables (f st) st)) st Q.
Proof. done. Qed.

Lemma eol_or_comment_total (it end_ : nat) (st : state) :
  total (Parser.eol_or_comment it end_) st (λ _ _, True).
Proof. by apply total_steady; [auto with steady |]. Qed.

(** Every turn of the loop of a header takes a part of the name, which is
    not empty. *)
Lemma walk_turn (line : string) (it kg_end budget : nat) :
  it ≤ kg_end → kg_end - it ≤ S budget → (it =? kg_end) = false →
  String.eqb (substr line it (find "." line it kg_end)) EmptyString = false →
  let dot := find "." line it kg_end in
  let it' := if negb (dot =? kg_end) then S dot else dot in
  it' ≤ kg_end ∧ kg_end - it' ≤ budget.
Proof.
  intros Hle Hb Hit%Nat.eqb_neq Hpart dot it'.
  pose proof (find_if_bounds (Ascii.eqb ".") line it kg_end Hle) as Hdot.
  fold (find "." line it kg_end) in Hdot. fold dot in Hdot.
  assert (dot ≠ it) as Hne.
  { intros Heq. subst dot. rewrite Heq, substr_empty in Hpart. done. }
  subst it'. destruct (dot =? kg_end) eqn:Hend; simpl; [lia |].
  apply Nat.eqb_neq in Hend. lia.
Qed.

Lemma single_table_walk_total (kg_end budget : nat) :
  ∀ (it : nat) (curr : ptr) (st : state),
    it ≤ kg_end → kg_end - it ≤ budget →
    total (Parser.single_table_walk budget it kg_end curr) st (λ _ _, True).
Proof.
  induction budget as [|budget IH]; intros it curr st Hle Hb; simpl;
    destruct (it =? kg_end) eqn:Hit; try (by apply total_ret).
  { apply Nat.eqb_neq in Hit. lia. }
  apply total_bind, total_gets. cbv beta zeta.
  destruct (String.eqb _ _) eqn:Hpart; [apply total_throw |].
  destruct (walk_turn (line_ st) it kg_end budget Hle Hb Hit Hpart)
    as [Hle' Hb'].
  total_auto; by apply IH.
Qed.

Lemma table_array_walk_total (kg_end budget : nat) :
  ∀ (it : nat) (curr : ptr) (st : state),
    it ≤ kg_end → kg_end - it ≤ budget →
    total (Parser.table_array_walk budget it kg_end curr) st (λ _ _, True).
Proof.
  induction budget as [|budget IH]; intros it curr st Hle Hb; simpl;
    destruct (it =? kg_end) eqn:Hit; try (by apply total_ret).
  { apply Nat.eqb_neq in Hit. lia. }
  apply total_bind, total_gets. cbv beta zeta.
  destruct (String.eqb _ _) eqn:Hpart; [apply total_throw |].
  destruct (walk_turn (line_ st) it kg_end budget Hle Hb Hit Hpart)
    as [Hle' Hb'].
  total_auto; by apply IH.
Qed.

Lemma find_after (c : ascii) (line : string) (it end_ : nat) :
  it ≤ find c line it end_.
Proof. apply find_if_n_bounds. Qed.

Lemma parse_single_table_total (it end_ : nat) (curr : ptr) (st : state) :
  total (Parser.parse_single_table it end_ curr) st (λ _ _, True).
Proof.
  unfold Parser.parse_single_table. total_auto.
  apply total_set_tables. apply total_bind.
  eapply total_mono.
  { apply single_table_walk_total; [apply find_after | done]. }
  intros t st' _. total_auto. eapply total_mono; [apply eol_or_comment_total |].
  intros _ st'' _. by apply total_ret.
Qed.

Lemma parse_table_array_total (it end_ : nat) (curr : ptr) (st : state) :
  total (Parser.parse_table_array it end_ curr) st (λ _ _, True).
Proof.
  unfold Parser.parse_table_array. total_auto.
  apply table_array_walk_total; [apply find_after | done].
Qed.

Lemma parse_table_total (it end_ : nat) (curr : ptr) (st : state) :
  total (Parser.parse_table it end_ curr) st (λ _ _, True).
Proof.
  unfold Parser.parse_table. total_auto.
  - apply parse_table_array_total.
  - apply parse_single_table_total.
Qed.

Lemma parse_bare_key_steady (it end_ : nat) :
  steady (Parser.parse_bare_key it end_).
Proof. unfold Parser.parse_bare_key. steady_auto. Qed.

Lemma parse_bare_key_same_line (it end_ : nat) :
  keeps same_line (Parser.parse_bare_key it end_).
Proof. unfold Parser.parse_bare_key. keeps_auto. Qed.

Lemma parse_key_total (it end_ : nat) (st : state) :
  end_ = String.length (line_ st) →
  total (Parser.parse_key it end_) st (λ _ st', same_line st st').
Proof.
  intros Hend. unfold Parser.parse_key. apply total_bind, total_gets.
  cbv beta zeta. destruct (Ascii.eqb _ _) eqn:Hq.
  - apply Ascii.eqb_eq in Hq.
    assert (Parser.consume_whitespace (line_ st) it end_ < end_) as Hlt.
    { subst end_. apply deref_in_line. by rewrite Hq. }
    unfold Parser.parse_quoted_key, Parser.string_literal.
    eapply total_mono.
    { apply total_and; [apply string_literal_loop_total; lia |].
      apply string_literal_loop_same_line. }
    by intros r st' [_ H].
  - apply total_steady; [apply parse_bare_key_steady |].
    apply parse_bare_key_same_line.
Qed.

Lemma parse_key_value_total (regex : bool) (it end_ : nat) (curr : ptr)
    (st : state) :
  end_ = String.length (line_ st) →
  total (Parser.parse_key_value regex it end_ curr) st (λ _ _, True).
Proof.
  intros Hend. unfold Parser.parse_key_value. apply total_bind.
  eapply total_mono; [by apply parse_key_total |].
  intros [key it1] st1 [Hline Hinput]. total_auto.
  apply negb_false_iff, Ascii.eqb_eq in Heqb0.
  assert (it1 < end_) as Hlt.
  { subst end_. rewrite <- Hline. apply deref_in_line. by rewrite Heqb0. }
  pose proof (find_if_bounds (λ c, negb (is_blank c)) (line_ st1) (S it1) end_
                Hlt) as Hcw.
  fold (Parser.consume_whitespace (line_ st1) (S it1) end_) in Hcw.
  eapply total_mono.
  { apply value_family_total.
    - split; [congruence | lia].
    - unfold Parser.value_budget, remaining. lia. }
  intros [v [it2 end2]] st2 _. total_auto. apply eol_or_comment_total.
Qed.

Lemma parse_line_total (regex : bool) (root curr : ptr) (st : state) :
  total (Parser.parse_line regex root curr) st (λ _ _, True).
Proof.
  unfold Parser.parse_line. apply total_bind, total_next_line_number.
  total_auto; [done | apply parse_table_total |].
  eapply total_mono; [by apply parse_key_value_total |].
  intros _ st' _. by apply total_ret.
Qed.

Lemma parse_loop_total (regex : bool) (root : ptr) (budget : nat) :
  ∀ (curr : ptr) (st : state),
    length (input_ st) ≤ budget →
    total (Parser.parse_loop regex budget root curr) st (λ _ _, True).
Proof.
  induction budget as [|budget IH]; intros curr st Hb; simpl;
    apply total_bind; unfold total at 1, getline;
    destruct (input_ st) as [|l rest] eqn:Hinput; simpl in Hb;
    try (by apply total_ret); [lia |].
  apply total_bind. eapply total_mono.
  { apply total_and; [apply parse_line_total | apply parse_line_shrinks]. }
  intros c st' [_ Hs]. apply IH. unfold shrinks in Hs. simpl in Hs. lia.
Qed.

Lemma parse_total (regex : bool) (st : state) :
  total (Parser.parse regex) st (λ _ _, True).
Proof.
  unfold Parser.parse. total_auto. eapply total_mono.
  { by apply parse_loop_total. }
  intros _ st' _. apply total_bind, total_set_tables. by apply total_ret.
Qed.

(** X9: the parser comes to an end on every document. Every call in the
    family of [parse_value] and every turn of a loop reads at least one
    character or line, so that the budgets of the loops, which are
    bookkeeping only, never run out: [parse_stream] returns a document,
    throws or meets undefined behaviour as the source does. *)
Theorem parse_stream_budget (regex : bool) (stream : string) :
  parse_stream regex stream ≠ Exhausted.
Proof.
  pose proof (parse_total regex (parser stream)) as H.
  unfold parse_stream, total in *.
  by destruct (Parser.parse regex (parser stream)) as [[r st]| | |].
Qed.

(** ** The exception without a line *)

Lemma located_ret {A} (a : A) : throws_located (ret a).
Proof. done. Qed.

Lemma located_bind {A B} (c : M A) (k : A → M B) :
  throws_located c → (∀ a, throws_located (k a)) → throws_located (bind c k).
Proof.
  intros Hc Hk st e. unfold bind.
  destruct (c st) as [[a st1]|e1| |] eqn:Hst; try done; [apply Hk |].
  intros [= <-]. by eapply Hc.
Qed.

Lemma located_gets {A} (f : state → A) : throws_located (gets f).
Proof. done. Qed.

Lemma located_throw_parse_exception {A} (err : string) :
  throws_located (@Parser.throw_parse_exception A err).
Proof. by intros st e [= <-]. Qed.

Lemma located_throw {A} (e : exception) :
  located e → throws_located (@throw A e).
Proof. by intros He st e' [= <-]. Qed.

Lemma located_undefined {A} : throws_located (@undefined A).
Proof. done. Qed.

Lemma located_exhausted {A} : throws_located (@exhausted A).
Proof. done. Qed.

Lemma located_new (n : base) : throws_located (new n).
Proof. done. Qed.

Lemma located_state {A} (f : state → A * state) :
  throws_located (λ st, Ret (f st)).
Proof. done. Qed.

Lemma located_reading {A} (f : memory → outcome A) :
  (∀ mem e, f mem = Throw e → located e) → throws_located (reading f).
Proof.
  intros Hf st e. unfold reading. specialize (Hf (store st)).
  destruct (f (store st)); simpl; try done. intros [= <-]. by apply Hf.
Qed.

Lemma located_writing (f : memory → outcome memory) :
  (∀ mem e, f mem = Throw e → located e) → throws_located (writing f).
Proof.
  intros Hf st e. unfold writing. specialize (Hf (store st)).
  destruct (f (store st)); simpl; try done. intros [= <-]. by apply Hf.
Qed.

Lemma located_lift {A} (o : outcome A) :
  (∀ e, o = Throw e → located e) →
  throws_located (λ st, let! a := o in Ret (a, st)).
Proof. intros Ho st e. destruct o; simpl; try done. intros [= <-]. by apply Ho. Qed.

(** The operations on the store and the conversions throw exceptions of the
    standard library only. *)
Ltac store_located :=
  intros;
  unfold Table.contains, Table.get, Table.insert, Table.map_of,
    TableArray.back, TableArray.push_back, TableArray.get,
    Array.push_back, Array.get, as_, load, stoll, stoi, stod, obind in *;
  repeat case_match; simplify_eq; done.

Lemma contains_located (t : ptr) (key : string) (mem : memory) (e : exception) :
  Table.contains mem t key = Throw e → located e.
Proof. store_located. Qed.

Lemma get_located (t : ptr) (key : string) (mem : memory) (e : exception) :
  Table.get mem t key = Throw e → located e.
Proof. store_located. Qed.

Lemma insert_located (t : ptr) (key : string) (v : ptr) (mem : memory)
    (e : exception) :
  Table.insert mem t key v = Throw e → located e.
Proof. store_located. Qed.

Lemma load_located (p : ptr) (mem : memory) (e : exception) :
  load mem p = Throw e → located e.
Proof. store_located. Qed.

Lemma back_located (b : ptr) (mem : memory) (e : exception) :
  TableArray.back mem b = Throw e → located e.
Proof. store_located. Qed.

Lemma table_array_push_back_located (b t : ptr) (mem : memory)
    (e : exception) :
  TableArray.push_back mem b t = Throw e → located e.
Proof. store_located. Qed.

Lemma array_push_back_located (b t : ptr) (mem : memory) (e : exception) :
  Array.push_back mem b t = Throw e → located e.
Proof. store_located. Qed.

Lemma as_located (T : value_type) (v : ptr) (mem : memory) (e : exception) :
  as_ T mem v = Throw e → located e.
Proof. store_located. Qed.

Lemma stoll_located (v : string) (e : exception) :
  stoll v = Throw e → located e.
Proof. store_located. Qed.

Lemma stoi_located (v : string) (e : exception) :
  stoi v = Throw e → located e.
Proof. store_located. Qed.

Lemma stod_located (v : string) (e : exception) :
  stod v = Throw e → located e.
Proof. store_located. Qed.

Lemma date_fields_located (regex : bool) (s : string) (e : exception) :
  Parser.date_fields regex s = Throw e → located e.
Proof.
  unfold Parser.date_fields. destruct regex; [| by case_match].
  generalize (if regex_match s date_pattern
              then [substr s 0 4; substr s 5 7; substr s 8 10;
                    substr s 11 13; substr s 14 16; substr s 17 19]
              else replicate 6 EmptyString).
  intros gs. induction gs as [|g gs IH]; [done |].
  pose proof (stoi_located g) as Hg. destruct (stoi g); simpl; try done.
  - match type of IH with ?c = _ → _ => destruct c end; try done.
  - intros [= <-]. by apply Hg.
Qed.

Create HintDb located.
#[export] Hint Resolve contains_located get_located insert_located
  load_located back_located table_array_push_back_located
  array_push_back_located as_located stoll_located stod_located
  date_fields_located : located.

Ltac located_step :=
  lazymatch goal with
  | |- throws_located (ret _) => apply located_ret
  | |- throws_located (bind _ _) => apply located_bind; [| intros ?]
  | |- throws_located (gets _) => apply located_gets
  | |- throws_located (throw _) =>
      apply located_throw; first [done | by eexists]
  | |- throws_located (Parser.throw_parse_exception _) =>
      apply located_throw_parse_exception
  | |- throws_located undefined => apply located_undefined
  | |- throws_located exhausted => apply located_exhausted
  | |- throws_located (new _) => apply located_new
  | |- throws_located (reading _) =>
      apply located_reading; intros ? ?; eauto with located
  | |- throws_located (writing _) =>
      apply located_writing; intros ? ?; eauto with located
  | |- throws_located (if ?b then _ else _) => destruct b
  | |- throws_located (match ?x with _ => _ end) => destruct x
  | |- throws_located (λ st, let! a := _ in Ret (a, st)) =>
      apply located_lift; intros ?; eauto with located
  | |- throws_located (λ st, Ret _) => apply located_state
  | |- throws_located _ => solve [auto with located]
  end.

Ltac located_auto := cbv zeta; repeat (located_step; cbv zeta).

Lemma string_literal_loop_located (budget it end_ : nat) (val : string) :
  throws_located (Parser.string_literal_loop budget it end_ val).
Proof.
  revert it val. induction budget as [|budget IH]; intros it val; simpl;
    unfold Parser.parse_escape_code; located_auto.
Qed.
#[export] Hint Resolve string_literal_loop_located : located.

Lemma skip_lines_located (input : list string) (start end_ : nat) :
  throws_located (Parser.skip_lines input start end_).
Proof.
  revert start end_. induction input as [|l input IH]; intros start end_ st e;
    simpl; case_match; try done; [by intros [= <-] | apply IH].
Qed.

Lemma skip_whitespace_and_comments_located (start end_ : nat) :
  throws_located (Parser.skip_whitespace_and_comments start end_).
Proof. intros st. apply skip_lines_located. Qed.
#[export] Hint Resolve skip_whitespace_and_comments_located : located.

Lemma value_family_located (regex : bool) (budget : nat) :
  (∀ it end_, throws_located (Parser.parse_value regex budget it end_))
  ∧ (∀ it end_, throws_located (Parser.parse_array regex budget it end_))
  ∧ (∀ T it end_,
       throws_located (Parser.parse_value_array regex budget T it end_))
  ∧ (∀ T arr it end_,
       throws_located
         (Parser.parse_value_array_loop regex budget T arr it end_))
  ∧ (∀ it end_,
       throws_located (Parser.parse_nested_array regex budget it end_))
  ∧ (∀ arr it end_,
       throws_located (Parser.parse_nested_array_loop regex budget arr it end_)).
Proof.
  induction budget as [|budget (IHv & IHa & IHva & IHvl & IHna & IHnl)].
  { split_and!; intros; simpl; apply located_exhausted. }
  split_and!; intros; simpl;
    unfold Parser.determine_value_type, Parser.parse_string,
      Parser.string_literal, Parser.parse_date, Parser.parse_number,
      Parser.parse_int, Parser.parse_float, Parser.parse_bool,
      Parser.as_value;
    located_auto.
Qed.

Lemma single_table_walk_located (budget it kg_end : nat) (curr : ptr) :
  throws_located (Parser.single_table_walk budget it kg_end curr).
Proof.
  revert it curr. induction budget as [|budget IH]; intros it curr; simpl;
    located_auto.
Qed.

Lemma table_array_walk_located (budget it kg_end : nat) (curr : ptr) :
  throws_located (Parser.table_array_walk budget it kg_end curr).
Proof.
  revert it curr. induction budget as [|budget IH]; intros it curr; simpl;
    located_auto.
Qed.
#[export] Hint Resolve single_table_walk_located table_array_walk_located
  : located.

Lemma parse_line_located (regex : bool) (root curr : ptr) :
  throws_located (Parser.parse_line regex root curr).
Proof.
  pose proof (value_family_located regex) as Hv.
  unfold Parser.parse_line, Parser.parse_table, Parser.parse_single_table,
    Parser.parse_table_array, Parser.parse_key_value, Parser.parse_key,
    Parser.parse_quoted_key, Parser.parse_bare_key, Parser.string_literal,
    Parser.eol_or_comment, next_line_number.
  located_auto. apply Hv.
Qed.

Lemma parse_loop_located (regex : bool) (budget : nat) (root curr : ptr) :
  throws_located (Parser.parse_loop regex budget root curr).
Proof.
  revert curr. induction budget as [|budget IH]; intros curr; simpl;
    (apply located_bind; [by intros st e; unfold getline; case_match |]);
    intros more; located_auto. apply parse_line_located.
Qed.

Lemma parse_located (regex : bool) : throws_located (Parser.parse regex).
Proof. unfold Parser.parse. located_auto. apply parse_loop_located. Qed.

(** X10: whatever the document, a parse error without a line number is the
    one for white space in a table name: every other exception of the parser
    is thrown with the number of the line being read. *)
Theorem parse_stream_located (regex : bool) (stream : string) (e : exception) :
  parse_stream regex stream = Throw e → located e.
Proof.
  unfold parse_stream. intros H.
  destruct (Parser.parse regex (parser stream)) as [[r st]|e'| |] eqn:Hp;
    try done.
  simpl in H. injection H as <-. by eapply parse_located.
Qed.

(** ** Instances of the general statements *)

Lemma get_qualified_dotted_witness :
  Table.get_qualified abc_store 0 (dotted "a" "b" "c") = Ret 3.
Proof.
  apply (proj1 (get_qualified_dotted abc_store 0 "a" "b" "c"
                  eq_refl eq_refl eq_refl) 1 2 3);
    vm_compute; reflexivity.
Defined.

Lemma typed_lookups_miss_witness :
  (∃ w, Table.get abc_store 0 "z" = Throw (out_of_range w))
  ∧ Table.get_table abc_store 0 "z" = Ret None
  ∧ Table.get_array abc_store 0 "a" = Ret None.
Proof.
  destruct (typed_lookups_miss abc_store 0 (<["a" := 1]> ∅) "z" eq_refl)
    as (Habsent & _).
  destruct (typed_lookups_miss abc_store 0 (<["a" := 1]> ∅) "a" eq_refl)
    as (_ & Hkind & _).
  destruct (Habsent ltac:(vm_compute; reflexivity)) as (Hget & Htab & _).
  destruct (Hkind 1 (table (<["b" := 2]> ∅))
              ltac:(vm_compute; reflexivity) eq_refl) as (_ & Harr & _).
  split_and!; [exact Hget | exact Htab | exact (Harr eq_refl)].
Defined.

Lemma insert_replaces_witness :
  ∃ mem', Table.insert abc_store 0 "a" 3 = Ret mem'
          ∧ Table.get mem' 0 "a" = Ret 3.
Proof.
  destruct (insert_replaces abc_store 0 (<["a" := 1]> ∅) "a" 1 3 eq_refl
              ltac:(vm_compute; reflexivity)) as ((mem' & Hi & Hg & _) & _).
  exists mem'. by split.
Defined.

Lemma repeated_headers_witness :
  parse_stream true "[a]
[a]" = Throw (parse_exception "Duplicate table" (Some 2)).
Proof.
  pose (st1 := entering_loop "[a]
[a]").
  destruct (turn true 0 0 st1) as [[c2 st2]| | |] eqn:Hturn1;
    try (vm_compute in Hturn1; discriminate).
  assert (Hst2 : input_ st2 = ["[a]"] ∧ line_number_ st2 = 1).
  { vm_compute in Hturn1. injection Hturn1 as <- <-. by split. }
  destruct Hst2 as [Hin2 Hline2].
  destruct (repeated_headers true "[a]
[a]" "a" 0 c2 c2 st1 st2 st2 ["[a]"] []
              ltac:(by split_and!) (turns_refl _ _ _) (turns_refl _ _ _))
    as [Hsingle _].
  destruct (Hsingle eq_refl Hturn1 Hin2) as [_ Hparse].
  rewrite Hline2 in Hparse. exact Hparse.
Defined.


(** * Further properties *)

(** ** [split] and qualified keys *)

Lemma join_cons (c : ascii) (part : string) (parts : list string) :
  parts ≠ [] → join c (part :: parts) = part +:+ String c (join c parts).
Proof. by destruct parts. Qed.

Lemma split_parts_join (value : string) (c : ascii) :
  join c (split_parts value c) = value.
Proof.
  induction value as [|x value IH]; [done |]. cbn [split_parts].
  pose proof (split_parts_nonempty value c) as Hne.
  destruct (Ascii.eqb x c) eqn:Hx.
  - apply Ascii.eqb_eq in Hx as ->. rewrite join_cons by done.
    by rewrite IH.
  - destruct (split_parts value c) as [|p ps] eqn:Hs; [done |].
    destruct ps as [|p' ps].
    + simpl in *. by rewrite IH.
    + rewrite join_cons in * by done. rewrite append_cons. by rewrite IH.
Qed.

Lemma split_parts_separator_free (value : string) (c : ascii) :
  Forall (λ part, occurs c part = false) (split_parts value c).
Proof.
  induction value as [|x value IH]; simpl; [by repeat constructor |].
  destruct (Ascii.eqb x c) eqn:Hx; [by constructor |].
  destruct (split_parts value c) as [|p ps].
  { repeat constructor. simpl. by rewrite Hx. }
  inversion IH as [|? ? Hp Hps]; subst. constructor; [| done].
  simpl. by rewrite Hx.
Qed.

Lemma split_parts_length (value : string) (c : ascii) :
  length (split_parts value c) = S (count_char c value).
Proof.
  induction value as [|x value IH]; [done |]. simpl.
  destruct (Ascii.eqb x c); simpl; [by rewrite IH |].
  destruct (split_parts value c) as [|p ps]; simpl in *; lia.
Qed.

(** X1: [split] cuts a string at every separator and loses nothing: the
    parts, written with the separator between them, are the string again;
    no part holds a separator; and there is one part more than there are
    separators, so that an empty string gives one empty part. *)
Theorem split_join (value : string) (separator : ascii) :
  ∃ parts,
    Table.split value separator = Ret parts
    ∧ join separator parts = value
    ∧ Forall (λ part, occurs separator part = false) parts
    ∧ length parts = S (count_char separator value).
Proof.
  exists (split_parts value separator). split_and!.
  - apply split_parts_correct.
  - apply split_parts_join.
  - apply split_parts_separator_free.
  - apply split_parts_length.
Qed.

Lemma resolve_qualified_parts (mem : memory) (t : ptr) (key : string)
    (with_p : bool) (last_key : string) (parts : list string) :
  split_parts key "." = parts ++ [last_key] →
  Table.resolve_qualified mem t key with_p
  = let! t := Table.descend mem t parts in
    match t with
    | None =>
        if negb with_p then Ret (false, None)
        else Throw (out_of_range (key +:+ " is not a valid key"))
    | Some t =>
        let! m := Table.map_of mem t in
        if negb with_p then
          Ret (match m !! last_key with Some _ => true | None => false end,
               None)
        else
          match m !! last_key with
          | Some b => Ret (true, Some b)
          | None => Throw (out_of_range "unordered_map::at")
          end
    end.
Proof.
  intros Hs. unfold Table.resolve_qualified.
  rewrite split_parts_correct, Hs. simpl.
  by rewrite reverse_snoc, reverse_involutive.
Qed.

Lemma split_parts_snoc (key : string) (c : ascii) :
  ∃ parts last_key, split_parts key c = parts ++ [last_key].
Proof.
  pose proof (split_parts_nonempty key c) as Hne.
  destruct (split_parts key c) as [|p ps] using rev_ind; [done |]. eauto.
Qed.

(** X2: qualified keys are resolved part by part. A key without a dot is
    looked up as [get] and [contains] do; a key [a.rest] whose first part
    [a] leads to a table is resolved as [rest] from that table; and when [a]
    does not lead to a table, the key is not contained and [get_qualified]
    throws [std::out_of_range], naming the whole key. *)
Theorem get_qualified_unfolds (mem : memory) (t : ptr) (a rest k : string) :
  occurs "." a = false → occurs "." k = false →
  Table.get_qualified mem t k = Table.get mem t k
  ∧ Table.contains_qualified mem t k = Table.contains mem t k
  ∧ (∀ t', Table.get_table mem t a = Ret (Some t') →
       Table.contains_qualified mem t (a +:+ String "." rest)
       = Table.contains_qualified mem t' rest
       ∧ ∀ n, Table.get_qualified mem t (a +:+ String "." rest) = Ret n
              ↔ Table.get_qualified mem t' rest = Ret n)
  ∧ (Table.get_table mem t a = Ret None →
       Table.contains_qualified mem t (a +:+ String "." rest) = Ret false
       ∧ Table.get_qualified mem t (a +:+ String "." rest)
         = Throw (out_of_range
                    ((a +:+ String "." rest) +:+ " is not a valid key"))).
Proof.
  intros Ha Hk.
  destruct (split_parts_snoc rest ".") as (parts & last_key & Hrest).
  assert (split_parts (a +:+ String "." rest) "." = (a :: parts) ++ [last_key])
    as Hkey by (by rewrite split_parts_app, Hrest).
  assert (split_parts k "." = [] ++ [k]) as Hone
    by (by rewrite split_parts_no_separator).
  unfold Table.get_qualified, Table.contains_qualified.
  rewrite !(resolve_qualified_parts _ _ _ _ _ _ Hkey),
    !(resolve_qualified_parts _ _ _ _ _ _ Hone). split_and!.
  - simpl. unfold Table.get.
    destruct (Table.map_of mem t) as [m| | |]; simpl; try done.
    by destruct (m !! k).
  - simpl. unfold Table.contains.
    by destruct (Table.map_of mem t) as [m| | |].
  - intros t' Ht'. rewrite !(resolve_qualified_parts _ _ _ _ _ _ Hrest).
    cbn [Table.descend]. rewrite Ht'. cbn [obind]. split; [done |].
    intros n.
    destruct (Table.descend mem t' parts) as [[t2|]| | |]; simpl; try done.
  - intros Hnone. cbn [Table.descend]. by rewrite Hnone.
Qed.

(** ** Inserting simple elements *)

(** X3: a simple element put into a table by [insert<T>] is read back as it
    was given by [get(key)->as<T>()->get()], while [as<U>] for any other type
    gives [nullptr] on the node found; the key is contained afterwards, the
    other keys of the table and the other nodes are as before. *)
Theorem insert_value_read_back (mem : memory) (t : ptr) (m : gmap string ptr)
    (key : string) (val : datum) :
  mem !! t = Some (table m) →
  ∃ mem',
    Table.insert_value mem t key val = Ret mem'
    ∧ Table.contains mem' t key = Ret true
    ∧ read_as (type_of val) mem' t key = Ret (Some val)
    ∧ (∀ T, T ≠ type_of val → read_as T mem' t key = Ret None)
    ∧ (∀ key', key' ≠ key → Table.get mem' t key' = Table.get mem t key')
    ∧ (∀ p n, p ≠ t → mem !! p = Some n → mem' !! p = Some n).
Proof.
  intros Ht.
  assert (t < length mem) as Hlt by (by eapply lookup_lt_Some).
  set (v := length mem).
  set (mem' := <[t := table (<[key := v]> m)]> (mem ++ [value val])).
  assert (mem' !! t = Some (table (<[key := v]> m))) as Ht'.
  { subst mem'. apply list_lookup_insert_eq. rewrite length_app. lia. }
  assert (mem' !! v = Some (value val)) as Hv.
  { subst mem' v. rewrite list_lookup_insert_ne by lia.
    by rewrite lookup_app_r, Nat.sub_diag by lia. }
  assert (Table.get mem' t key = Ret v) as Hget.
  { apply (get_eq _ _ _ _ _ Ht'). apply lookup_insert_eq. }
  exists mem'. split_and!.
  - unfold Table.insert_value, make_shared, Table.insert.
    rewrite (map_of_table _ _ m); [done |]. by apply lookup_app_l_Some.
  - rewrite (contains_eq _ _ _ _ Ht'). by rewrite lookup_insert_eq.
  - unfold read_as, as_, value_get. rewrite Hget. simpl.
    rewrite (load_eq _ _ _ Hv). simpl. rewrite decide_True by done. simpl.
    by rewrite (load_eq _ _ _ Hv).
  - intros T HT. unfold read_as, as_. rewrite Hget. simpl.
    rewrite (load_eq _ _ _ Hv). simpl. by rewrite decide_False.
  - intros key' Hne. unfold Table.get.
    rewrite (map_of_table _ _ _ Ht'), (map_of_table _ _ _ Ht). simpl.
    by rewrite lookup_insert_ne.
  - intros p n Hp Hn. subst mem'. rewrite list_lookup_insert_ne by done.
    by apply lookup_app_l_Some.
Qed.

Lemma insert_value_read_back_witness :
  ∃ mem', Table.insert_value abc_store 0 "n" (d_bool true) = Ret mem'
          ∧ read_as t_bool mem' 0 "n" = Ret (Some (d_bool true)).
Proof.
  destruct (insert_value_read_back abc_store 0 (<["a" := 1]> ∅) "n" (d_bool true)
              eq_refl) as (mem' & Hi & _ & Hg & _).
  exists mem'. by split.
Defined.

(** ** Arrays as vectors of values or of arrays *)

Lemma transform_fmap {B} (op : ptr → outcome B) (f : ptr → B) (a : list ptr) :
  (∀ v, v ∈ a → op v = Ret (f v)) → Array.transform op a = Ret (f <$> a).
Proof.
  induction a as [|v a IH]; intros H; simpl; [done |].
  rewrite (H v) by set_solver. simpl. rewrite IH by set_solver. done.
Qed.

Lemma array_get_eq (mem : memory) (p : ptr) (a : list ptr) :
  mem !! p = Some (array a) → Array.get mem p = Ret a.
Proof. intros H. unfold Array.get. by rewrite (load_eq _ _ _ H). Qed.

(** X4: the typed views of an array. On an array whose elements are all
    values of type [T], [array_of<T>] gives every element and no null
    pointer, while [array_of] for another type and [nested_array] give null
    pointers only; on an array of arrays it is the other way round. Every
    array of a parsed document is of one of these two kinds, so that one of
    [array_of<T>], for a type [T] the parser builds arrays of, and
    [nested_array] gives all its elements. *)
Theorem arrays_convert (regex : bool) :
  (∀ mem p a T,
     mem !! p = Some (array a) → all_values mem T a →
     Array.array_of T mem p = Ret (Some <$> a)
     ∧ (∀ T', T' ≠ T → Array.array_of T' mem p = Ret ((λ _, None) <$> a))
     ∧ Array.nested_array mem p = Ret ((λ _, None) <$> a))
  ∧ (∀ mem p a,
       mem !! p = Some (array a) → all_arrays mem a →
       Array.nested_array mem p = Ret (Some <$> a)
       ∧ ∀ T, Array.array_of T mem p = Ret ((λ _, None) <$> a))
  ∧ (∀ stream d p a,
       parse_stream regex stream = Ret d → nodes d !! p = Some (array a) →
       (∃ T, element_type T
             ∧ Array.array_of T (nodes d) p = Ret (Some <$> a))
       ∨ Array.nested_array (nodes d) p = Ret (Some <$> a)).
Proof.
  assert (Hvalues : ∀ mem p a T,
    mem !! p = Some (array a) → all_values mem T a →
    Array.array_of T mem p = Ret (Some <$> a)
    ∧ (∀ T', T' ≠ T → Array.array_of T' mem p = Ret ((λ _, None) <$> a))
    ∧ Array.nested_array mem p = Ret ((λ _, None) <$> a)).
  { intros mem p a T Hp Hall. unfold Array.array_of, Array.nested_array.
    rewrite (array_get_eq _ _ _ Hp). simpl. split_and!.
    - apply transform_fmap. intros v Hv.
      destruct (Hall v Hv) as (d & Hd & HT). unfold as_.
      rewrite (load_eq _ _ _ Hd). simpl. by rewrite decide_True.
    - intros T' HT'. apply transform_fmap. intros v Hv.
      destruct (Hall v Hv) as (d & Hd & HT). unfold as_.
      rewrite (load_eq _ _ _ Hd). simpl. rewrite decide_False; congruence.
    - apply transform_fmap. intros v Hv.
      destruct (Hall v Hv) as (d & Hd & HT). by rewrite (load_eq _ _ _ Hd). }
  assert (Harrays : ∀ mem p a,
    mem !! p = Some (array a) → all_arrays mem a →
    Array.nested_array mem p = Ret (Some <$> a)
    ∧ ∀ T, Array.array_of T mem p = Ret ((λ _, None) <$> a)).
  { intros mem p a Hp Hall. unfold Array.array_of, Array.nested_array.
    rewrite (array_get_eq _ _ _ Hp). simpl. split.
    - apply transform_fmap. intros v Hv.
      destruct (Hall v Hv) as (a' & Ha'). by rewrite (load_eq _ _ _ Ha').
    - intros T. apply transform_fmap. intros v Hv.
      destruct (Hall v Hv) as (a' & Ha'). unfold as_.
      by rewrite (load_eq _ _ _ Ha'). }
  split_and!; [done.. |].
  intros stream d p a Hparse Hp.
  destruct (parse_stream_arrays_ok _ _ _ Hparse p a Hp)
    as [(T & HT & Hall) | Hall].
  - left. exists T. split; [done |]. by apply Hvalues.
  - right. by apply Harrays.
Qed.

Lemma arrays_convert_witness :
  ∃ d p a,
    parse_stream true "x = [1, 2]" = Ret d
    ∧ nodes d !! p = Some (array a)
    ∧ ((∃ T, element_type T
             ∧ Array.array_of T (nodes d) p = Ret (Some <$> a))
       ∨ Array.nested_array (nodes d) p = Ret (Some <$> a)).
Proof.
  eexists _, 1, _. split; [vm_compute; reflexivity |].
  split; [vm_compute; reflexivity |].
  eapply (proj2 (proj2 (arrays_convert true)) "x = [1, 2]");
    vm_compute; reflexivity.
Defined.

(** ** What earlier lines defined *)

(** [parse] as the loop on the lines of the stream. *)
Lemma parse_stream_inv (regex : bool) (stream : string) (d : document) :
  parse_stream regex stream = Ret d →
  ∃ st, Parser.parse_loop regex (length (input_ (entering_loop stream))) 0 0
          (entering_loop stream) = Ret (tt, st)
        ∧ root d = 0 ∧ nodes d = store st.
Proof.
  unfold parse_stream, Parser.parse. intros H.
  destruct (bind _ _ _) as [[r st']| | |] eqn:Hp; try done.
  injection H as <-. cbn [nodes root fst snd].
  apply bind_inv in Hp as (root & st1 & [= <- <-] & Hp).
  apply bind_inv in Hp as (budget & st2 & [= <- <-] & Hp).
  apply bind_inv in Hp as ([] & st3 & Hloop & Hp).
  apply bind_inv in Hp as ([] & st4 & [= <-] & [= <- <-]).
  exists st3. by split_and!.
Qed.

Lemma store_le_get (mem mem' : memory) (t : ptr) (key : string) (b : ptr) :
  store_le mem mem' → Table.get mem t key = Ret b → Table.get mem' t key = Ret b.
Proof.
  intros Hle (m & Ht & Hk)%get_inv.
  destruct (store_le_table _ _ _ _ Hle Ht) as (m' & Ht' & Hsub).
  eapply get_eq; [done |]. by eapply lookup_weaken.
Qed.

Lemma store_le_value (mem mem' : memory) (p : ptr) (d : datum) :
  store_le mem mem' → mem !! p = Some (value d) → mem' !! p = Some (value d).
Proof.
  intros Hle Hp. destruct (Hle _ _ Hp) as (n' & Hn' & Hnle).
  destruct n'; simpl in Hnle; try done. by subst.
Qed.

Lemma store_le_array (mem mem' : memory) (p : ptr) (a : list ptr) :
  store_le mem mem' → mem !! p = Some (array a) →
  ∃ a', mem' !! p = Some (array a') ∧ a `prefix_of` a'.
Proof.
  intros Hle Hp. destruct (Hle _ _ Hp) as (n' & Hn' & Hnle).
  destruct n'; simpl in Hnle; try done. eauto.
Qed.

Lemma array_get_inv (mem : memory) (p : ptr) (a : list ptr) :
  Array.get mem p = Ret a → mem !! p = Some (array a).
Proof.
  unfold Array.get, load. destruct (mem !! p) as [[]|]; simpl; try done.
  by intros [= <-].
Qed.

Lemma table_array_get_inv (mem : memory) (p : ptr) (a : list ptr) :
  TableArray.get mem p = Ret a → mem !! p = Some (table_array a).
Proof.
  unfold TableArray.get, load. destruct (mem !! p) as [[]|]; simpl; try done.
  by intros [= <-].
Qed.

Lemma read_as_Some_inv (T : value_type) (mem : memory) (t : ptr) (key : string)
    (d : datum) :
  read_as T mem t key = Ret (Some d) →
  ∃ b, Table.get mem t key = Ret b ∧ mem !! b = Some (value d) ∧ type_of d = T.
Proof.
  unfold read_as.
  destruct (Table.get mem t key) as [b|[]| |] eqn:Hg; simpl; try done.
  unfold as_, value_get, load.
  destruct (mem !! b) as [[d'| | |]|] eqn:Hb; simpl; try done.
  destruct (decide (type_of d' = T)); simpl; [| done].
  rewrite Hb. simpl. intros [= <-]. eauto.
Qed.

Lemma read_as_eq (T : value_type) (mem : memory) (t : ptr) (key : string)
    (b : ptr) (d : datum) :
  Table.get mem t key = Ret b → mem !! b = Some (value d) → type_of d = T →
  read_as T mem t key = Ret (Some d).
Proof.
  intros Hg Hb HT. unfold read_as, as_, value_get. rewrite Hg. simpl.
  rewrite (load_eq _ _ _ Hb). simpl. rewrite decide_True by done. simpl.
  by rewrite (load_eq _ _ _ Hb).
Qed.

(** X5: a line of a document never takes back what the lines before it
    defined. What can be read from the tree after some lines have been handled
    is read, unchanged, from the document that [parse] returns: a key keeps
    its node and a simple element its datum, and arrays and table-arrays
    keep their elements, in their places. *)
Theorem earlier_lines_stand (regex : bool) (stream : string) (c : ptr)
    (st : state) (d : document) :
  turns regex 0 (0, entering_loop stream) (c, st) →
  parse_stream regex stream = Ret d →
  (∀ t key b, Table.get (store st) t key = Ret b →
              Table.get (nodes d) t key = Ret b)
  ∧ (∀ T t key val, read_as T (store st) t key = Ret (Some val) →
                    read_as T (nodes d) t key = Ret (Some val))
  ∧ (∀ p a, Array.get (store st) p = Ret a →
            ∃ a', Array.get (nodes d) p = Ret a' ∧ a `prefix_of` a')
  ∧ (∀ p a, TableArray.get (store st) p = Ret a →
            ∃ a', TableArray.get (nodes d) p = Ret a' ∧ a `prefix_of` a').
Proof.
  intros Hturns (stf & Hloop & _ & Hnodes)%parse_stream_inv.
  destruct (parse_loop_turns _ _ _ _ Hturns _ (le_n _))
    as (budget' & _ & Heq).
  cbn [fst snd] in Heq. rewrite Heq in Hloop.
  apply parse_loop_keeps in Hloop as (Hle & _). rewrite Hnodes.
  split_and!.
  - intros t key b. by apply store_le_get.
  - intros T t key val (b & Hg & Hb & HT)%read_as_Some_inv.
    eapply read_as_eq; [by eapply store_le_get | by eapply store_le_value | done].
  - intros p a Hp%array_get_inv.
    destruct (store_le_array _ _ _ _ Hle Hp) as (a' & Ha' & Hpre).
    exists a'. split; [by apply array_get_eq | done].
  - intros p a Hp%table_array_get_inv.
    destruct (store_le_table_array _ _ _ _ Hle Hp) as (a' & Ha' & Hpre).
    exists a'. split; [by apply table_array_get_eq | done].
Qed.

Lemma earlier_lines_stand_witness :
  ∃ d, parse_stream true "a = 1
a2 = 2" = Ret d
       ∧ read_as t_int64 (nodes d) 0 "a" = Ret (Some (d_int64 1)).
Proof.
  pose (stream := "a = 1
a2 = 2").
  destruct (turn true 0 0 (entering_loop stream)) as [[c st]| | |] eqn:Hturn;
    try (vm_compute in Hturn; discriminate).
  destruct (parse_stream true stream) as [d| | |] eqn:Hparse;
    try (vm_compute in Hparse; discriminate).
  exists d. split; [done |].
  assert (turns true 0 (0, entering_loop stream) (c, st)) as Hturns.
  { eapply turns_step; [| exact Hturn | apply turns_refl].
    vm_compute. discriminate. }
  destruct (earlier_lines_stand true stream c st d Hturns Hparse)
    as (_ & Has & _).
  apply Has. vm_compute in Hturn. injection Hturn as <- <-.
  vm_compute. reflexivity.
Defined.

(** ** Documents without content *)

Lemma parse_line_blank_or_comment (regex : bool) (root c : ptr) (st : state) :
  blank_or_comment (line_ st) = true →
  Parser.parse_line regex root c st = Ret (c, counted st).
Proof.
  intros H. unfold Parser.parse_line, bind, next_line_number, gets.
  fold (counted st). cbn [line_ counted]. unfold blank_or_comment in H.
  by rewrite H.
Qed.

Lemma parse_loop_blank_or_comment (regex : bool) (root : ptr)
    (lines : list string) :
  forallb blank_or_comment lines = true →
  ∀ budget c st,
    input_ st = lines → length lines ≤ budget →
    ∃ st', Parser.parse_loop regex budget root c st = Ret (tt, st')
           ∧ store st' = store st.
Proof.
  induction lines as [|l lines IH]; intros Hall budget c st Hin Hb.
  { exists st. split; [| done].
    destruct budget; simpl; unfold bind, getline; by rewrite Hin. }
  simpl in Hall. apply andb_prop in Hall as [Hl Hall].
  destruct budget as [|budget]; [simpl in Hb; lia |].
  destruct (IH Hall budget c (counted (delivered l lines st)) eq_refl
              ltac:(simpl in Hb; lia)) as (st' & Hloop & Hstore).
  exists st'. split; [| done].
  cbn [Parser.parse_loop]. unfold bind at 1, getline at 1. rewrite Hin.
  fold (delivered l lines st). unfold bind at 1.
  by rewrite (parse_line_blank_or_comment regex root c (delivered l lines st)).
Qed.

(** X6: a document in which every line is blank or a comment (the empty
    document among them) parses to an empty root table. *)
Theorem parse_without_content (regex : bool) (stream : string) :
  forallb blank_or_comment (stream_lines stream) = true →
  parse_stream regex stream = Ret (mk_document 0 [table ∅]).
Proof.
  intros Hall.
  destruct (parse_loop_blank_or_comment regex 0 _ Hall
              (length (stream_lines stream)) 0 (entering_loop stream)
              eq_refl (le_n _)) as (st' & Hloop & Hstore).
  unfold parse_stream, Parser.parse.
  rewrite (bind_eq _ _ (parser stream) (entering_loop stream) 0)
    by reflexivity.
  rewrite (bind_eq _ _ (entering_loop stream) (entering_loop stream)
             (length (input_ (entering_loop stream)))) by reflexivity.
  cbn [entering_loop input_ parser set_store] in *.
  rewrite (bind_eq _ _ _ _ _ Hloop). unfold bind, ret. simpl.
  by rewrite Hstore.
Qed.

Lemma parse_without_content_witness :
  parse_stream true "# a comment

  	# another, after white space" = Ret (mk_document 0 [table ∅]).
Proof. apply parse_without_content. vm_compute. reflexivity. Defined.

(** ** Keys without quotes *)

Lemma find_if_n_before (p : ascii → bool) (s : string) (it n i : nat) :
  it ≤ i < find_if_n p s it n → p (deref s i) = false.
Proof.
  revert it. induction n as [|n IH]; intros it Hi; simpl in Hi; [lia |].
  destruct (p (deref s it)) eqn:Hp; [lia |].
  destruct (decide (i = it)) as [-> | Hne]; [done |]. apply (IH (S it)). lia.
Qed.

Lemma find_if_before (p : ascii → bool) (s : string) (it end_ i : nat) :
  it ≤ i < find_if p s it end_ → p (deref s i) = false.
Proof. apply find_if_n_before. Qed.

Lemma substr_length (s : string) (a b : nat) :
  a ≤ b → b ≤ String.length s → String.length (substr s a b) = b - a.
Proof.
  unfold substr. revert a b.
  induction s as [|x s IH]; intros a b Hab Hb; simpl in Hb.
  { assert (b = 0) as -> by lia. assert (a = 0) as -> by lia. done. }
  destruct a as [|a].
  - rewrite Nat.sub_0_r. destruct b as [|b]; [done |]. simpl.
    specialize (IH 0 b). rewrite Nat.sub_0_r in IH. rewrite IH; lia.
  - destruct b as [|b]; [lia |]. rewrite substring_shift.
    change (S b - S a) with (b - a). apply IH; lia.
Qed.

Lemma substring_nothing (s : string) (n : nat) :
  String.substring n 0 s = EmptyString.
Proof. revert n. induction s as [|x s IH]; intros [|n]; simpl; done. Qed.

Lemma occurs_substr (c : ascii) (s : string) (a b : nat) :
  (∀ i, a ≤ i < b → Ascii.eqb (deref s i) c = false) →
  occurs c (substr s a b) = false.
Proof.
  unfold substr. revert a b.
  induction s as [|x s IH]; intros a b H.
  { destruct a; by destruct (b - _). }
  destruct a as [|a].
  - rewrite Nat.sub_0_r. destruct b as [|b]; [done |].
    pose proof (H 0 ltac:(lia)) as H0.
    change (deref (String x s) 0) with x in H0. simpl. rewrite H0. simpl.
    specialize (IH 0 b). rewrite Nat.sub_0_r in IH. apply IH.
    intros i Hi. apply (H (S i)). lia.
  - destruct b as [|b]; [by rewrite substring_nothing |].
    rewrite substring_shift. change (S b - S a) with (b - a).
    apply IH. intros i Hi.
    apply (H (S i)). lia.
Qed.

Lemma consume_backwards_whitespace_n_bounds (n : nat) (line : string)
    (back front : nat) :
  front ≤ back → front ≤ Parser.consume_backwards_whitespace_n n line back front
                 ≤ back.
Proof.
  revert back. induction n as [|n IH]; intros back H; simpl; [lia |].
  destruct (negb (back =? front) && _) eqn:Hc; [| lia].
  apply andb_prop in Hc as [Hne%negb_true_iff%Nat.eqb_neq _].
  specialize (IH (back - 1)). lia.
Qed.

Lemma find_if_end (p : ascii → bool) (s : string) (end_ : nat) :
  find_if p s end_ end_ = end_.
Proof. unfold find_if. by rewrite Nat.sub_diag. Qed.

Lemma find_if_here (p : ascii → bool) (s : string) (it end_ : nat) :
  p (deref s it) = true → find_if p s it end_ = it.
Proof.
  intros H. unfold find_if. destruct (end_ - it); simpl; [done |].
  by rewrite H.
Qed.

Lemma substr_split (s : string) (a k b : nat) :
  a ≤ k ≤ b → substr s a b = substr s a k +:+ substr s k b.
Proof.
  unfold substr. revert a k b.
  induction s as [|x s IH]; intros a k b H.
  { assert (∀ n m, String.substring n m EmptyString = EmptyString) as He
      by (by intros [|n] [|m]).
    by rewrite !He. }
  destruct a as [|a].
  - destruct k as [|k].
    + rewrite Nat.sub_0_r. by rewrite substring_nothing.
    + destruct b as [|b]; [lia |]. rewrite !Nat.sub_0_r.
      change (S b - S k) with (b - k).
      cbn [String.substring]. rewrite append_cons. f_equal.
      specialize (IH 0 k b ltac:(lia)). by rewrite !Nat.sub_0_r in IH.
  - destruct k as [|k]; [lia |]. destruct b as [|b]; [lia |].
    change (S b - S a) with (b - a). change (S k - S a) with (k - a).
    change (S b - S k) with (b - k).
    cbn [String.substring]. apply IH. lia.
Qed.

Lemma blanks_only_substr (s : string) (a b : nat) :
  (∀ i, a ≤ i < b → is_blank (deref s i) = true) →
  blanks_only (substr s a b) = true.
Proof.
  unfold substr. revert a b.
  induction s as [|x s IH]; intros a b H.
  { destruct a; by destruct (b - _). }
  destruct a as [|a].
  - rewrite Nat.sub_0_r. destruct b as [|b]; [done |].
    cbn [String.substring blanks_only].
    rewrite (H 0 ltac:(lia) : is_blank x = true). cbn [andb].
    specialize (IH 0 b). rewrite Nat.sub_0_r in IH. apply IH.
    intros i Hi. rewrite <- (deref_shift x). apply H. lia.
  - destruct b as [|b]; [by rewrite substring_nothing |].
    change (S b - S a) with (b - a). cbn [String.substring].
    apply IH. intros i Hi. rewrite <- (deref_shift x). apply H. lia.
Qed.

Lemma consume_backwards_whitespace_n_blank (n : nat) (line : string)
    (back front i : nat) :
  Parser.consume_backwards_whitespace_n n line back front < i ≤ back →
  is_blank (deref line i) = true.
Proof.
  revert back. induction n as [|n IH]; intros back H; simpl in H; [lia |].
  destruct (negb (back =? front) && is_blank (deref line back)) eqn:Hc;
    [| lia].
  apply andb_prop in Hc as [_ Hb].
  destruct (decide (i = back)) as [-> | Hne]; [done |].
  apply (IH (back - 1)). lia.
Qed.

(** X7: a key written without quotes is the text from the iterator up to
    the first [=], without the white space before the [=]: that text is the
    key followed by spaces and tabs only. The key holds no white space, no
    [#] and no [=], the iterator is left on the [=] (at the end of the line
    when there is none), and the state is left as it was. *)
Theorem bare_key_shape (it end_ : nat) (st : state) (key : string) (it' : nat)
    (st' : state) :
  end_ ≤ String.length (line_ st) →
  Parser.parse_bare_key it end_ st = Ret ((key, it'), st') →
  st' = st
  ∧ it' = find "=" (line_ st) it end_
  ∧ (∃ blanks, substr (line_ st) it it' = key +:+ blanks
               ∧ blanks_only blanks = true)
  ∧ occurs " " key = false ∧ occurs "009" key = false
  ∧ occurs "#" key = false ∧ occurs "=" key = false.
Proof.
  intros Hend. unfold Parser.parse_bare_key, bind, gets.
  set (line := line_ st) in *. set (eq := find "=" line it end_).
  destruct (eq =? it) eqn:Heq; [done |]. apply Nat.eqb_neq in Heq.
  pose proof (find_if_n_bounds (Ascii.eqb "=") line it (end_ - it)) as Hb.
  fold (find_if (Ascii.eqb "=") line it end_) in Hb.
  fold (find "=" line it end_) in Hb. fold eq in Hb.
  pose proof (consume_backwards_whitespace_n_bounds (eq - 1 - it) line
                (eq - 1) it ltac:(lia)) as Hback.
  pose proof (consume_backwards_whitespace_n_blank (eq - 1 - it) line
                (eq - 1) it) as Hblanks.
  fold (Parser.consume_backwards_whitespace line (eq - 1) it) in Hback, Hblanks.
  set (key_end := S (Parser.consume_backwards_whitespace line (eq - 1) it))
    in *.
  assert (it < key_end ≤ eq) as Hk by (subst key_end; lia).
  destruct (negb (find "#" line it key_end =? key_end)) eqn:Hhash; [done |].
  destruct (negb (find_if is_blank line it key_end =? key_end)) eqn:Hblank;
    [done |].
  apply negb_false_iff, Nat.eqb_eq in Hhash, Hblank.
  assert (Parser.consume_whitespace line eq end_ = eq) as Hstay.
  { unfold Parser.consume_whitespace.
    destruct (decide (eq = end_)) as [-> | Hne]; [apply find_if_end |].
    apply find_if_here.
    pose proof (find_if_n_found (Ascii.eqb "=") line it (end_ - it)) as Hf.
    fold (find_if (Ascii.eqb "=") line it end_) in Hf.
    fold (find "=" line it end_) in Hf. fold eq in Hf.
    apply Ascii.eqb_eq in Hf; [| lia]. by rewrite <- Hf. }
  intros [= <- <- <-]. split; [done |].
  assert (∀ i, it ≤ i < key_end → is_blank (deref line i) = false) as Hnb.
  { intros i Hi. apply (find_if_before is_blank line it key_end). lia. }
  split_and!.
  - done.
  - rewrite Hstay. exists (substr line key_end eq). split.
    + apply substr_split. lia.
    + apply blanks_only_substr. intros i Hi. apply Hblanks.
      subst key_end. lia.
  - apply occurs_substr. intros i Hi. specialize (Hnb i Hi).
    unfold is_blank in Hnb. by apply orb_false_elim in Hnb as [? _].
  - apply occurs_substr. intros i Hi. specialize (Hnb i Hi).
    unfold is_blank in Hnb. by apply orb_false_elim in Hnb as [_ ?].
  - apply occurs_substr. intros i Hi.
    pose proof (find_if_before (Ascii.eqb "#") line it key_end i) as Hf.
    fold (find "#" line it key_end) in Hf. rewrite Ascii.eqb_sym.
    apply Hf. lia.
  - apply occurs_substr. intros i Hi.
    pose proof (find_if_before (Ascii.eqb "=") line it end_ i) as Hf.
    fold (find "=" line it end_) in Hf. rewrite Ascii.eqb_sym.
    apply Hf. fold eq. lia.
Qed.

Lemma bare_key_shape_witness :
  ∃ key it', Parser.parse_bare_key 0 9 (reading_line "name  = 1" [])
             = Ret ((key, it'), reading_line "name  = 1" [])
             ∧ it' = 6
             ∧ (∃ blanks, "name  " = key +:+ blanks
                          ∧ blanks_only blanks = true)
             ∧ occurs " " key = false.
Proof.
  eexists _, _. split; [vm_compute; reflexivity |].
  destruct (bare_key_shape 0 9 (reading_line "name  = 1" []) "name" 6
              (reading_line "name  = 1" []))
    as (_ & Hit & Hkey & Hsp & _);
    [vm_compute; lia | vm_compute; reflexivity |].
  split_and!; [exact Hit | exact Hkey | exact Hsp].
Defined.

(** ** Line numbers *)

Lemma counts_refl (st : state) : counts st st.
Proof. by split. Qed.

Lemma library_in_range (lo hi : nat) (e : exception) :
  library e → in_range lo hi e.
Proof. by destruct e. Qed.

Lemma numbers_ret {A} (a : A) : numbers_lines (ret a).
Proof. intros st. apply counts_refl. Qed.

Lemma numbers_bind {A B} (c : M A) (k : A → M B) :
  numbers_lines c → (∀ a, numbers_lines (k a)) → numbers_lines (bind c k).
Proof.
  intros Hc Hk st. unfold bind. specialize (Hc st).
  destruct (c st) as [[a st1]|e| |]; try done.
  specialize (Hk a st1). destruct Hc as [Hle Hsum].
  destruct (k a st1) as [[b st2]|e| |]; try done.
  - destruct Hk. split; lia.
  - destruct e as [msg [n|]| |]; simpl in *; try done. lia.
Qed.

Lemma numbers_gets {A} (f : state → A) : numbers_lines (gets f).
Proof. intros st. apply counts_refl. Qed.

Lemma numbers_throw_parse_exception {A} (err : string) :
  numbers_lines (@Parser.throw_parse_exception A err).
Proof. intros st. simpl. lia. Qed.

Lemma numbers_throw {A} (e : exception) :
  (∀ lo hi, in_range lo hi e) → numbers_lines (@throw A e).
Proof. intros He st. apply He. Qed.

Lemma numbers_undefined {A} : numbers_lines (@undefined A).
Proof. done. Qed.

Lemma numbers_exhausted {A} : numbers_lines (@exhausted A).
Proof. done. Qed.

Lemma numbers_new (n : base) : numbers_lines (new n).
Proof. by intros st. Qed.

Lemma numbers_set_tables (f : state → gset string) :
  numbers_lines (λ st, Ret (tt, set_tables (f st) st)).
Proof. by intros st. Qed.

Lemma numbers_reading {A} (f : memory → outcome A) :
  (∀ mem e, f mem = Throw e → library e) → numbers_lines (reading f).
Proof.
  intros Hf st. unfold reading. specialize (Hf (store st)).
  destruct (f (store st)); simpl; try done.
  by apply library_in_range, Hf.
Qed.

Lemma numbers_writing (f : memory → outcome memory) :
  (∀ mem e, f mem = Throw e → library e) → numbers_lines (writing f).
Proof.
  intros Hf st. unfold writing. specialize (Hf (store st)).
  destruct (f (store st)); simpl; try done.
  by apply library_in_range, Hf.
Qed.

Lemma numbers_lift {A} (o : outcome A) :
  (∀ e, o = Throw e → library e) →
  numbers_lines (λ st, let! a := o in Ret (a, st)).
Proof.
  intros Ho st. destruct o; simpl; try done.
  by apply library_in_range, Ho.
Qed.

Ltac store_library :=
  intros;
  unfold Table.contains, Table.get, Table.insert, Table.map_of,
    TableArray.back, TableArray.push_back, TableArray.get,
    Array.push_back, Array.get, as_, load, stoll, stoi, stod, obind in *;
  repeat case_match; simplify_eq; done.

Lemma contains_library (t : ptr) (key : string) (mem : memory) (e : exception) :
  Table.contains mem t key = Throw e → library e.
Proof. store_library. Qed.

Lemma get_library (t : ptr) (key : string) (mem : memory) (e : exception) :
  Table.get mem t key = Throw e → library e.
Proof. store_library. Qed.

Lemma insert_library (t : ptr) (key : string) (v : ptr) (mem : memory)
    (e : exception) :
  Table.insert mem t key v = Throw e → library e.
Proof. store_library. Qed.

Lemma load_library (p : ptr) (mem : memory) (e : exception) :
  load mem p = Throw e → library e.
Proof. store_library. Qed.

Lemma back_library (b : ptr) (mem : memory) (e : exception) :
  TableArray.back mem b = Throw e → library e.
Proof. store_library. Qed.

Lemma table_array_push_back_library (b t : ptr) (mem : memory)
    (e : exception) :
  TableArray.push_back mem b t = Throw e → library e.
Proof. store_library. Qed.

Lemma array_push_back_library (b t : ptr) (mem : memory) (e : exception) :
  Array.push_back mem b t = Throw e → library e.
Proof. store_library. Qed.

Lemma as_library (T : value_type) (v : ptr) (mem : memory) (e : exception) :
  as_ T mem v = Throw e → library e.
Proof. store_library. Qed.

Lemma stoll_library (v : string) (e : exception) :
  stoll v = Throw e → library e.
Proof. store_library. Qed.

Lemma stoi_library (v : string) (e : exception) :
  stoi v = Throw e → library e.
Proof. store_library. Qed.

Lemma stod_library (v : string) (e : exception) :
  stod v = Throw e → library e.
Proof. store_library. Qed.

Lemma date_fields_library (regex : bool) (s : string) (e : exception) :
  Parser.date_fields regex s = Throw e → library e.
Proof.
  unfold Parser.date_fields. destruct regex; [| by case_match].
  generalize (if regex_match s date_pattern
              then [substr s 0 4; substr s 5 7; substr s 8 10;
                    substr s 11 13; substr s 14 16; substr s 17 19]
              else replicate 6 EmptyString).
  intros gs. induction gs as [|g gs IH]; [done |].
  pose proof (stoi_library g) as Hg. destruct (stoi g); simpl; try done.
  - match type of IH with ?c = _ → _ => destruct c end; try done.
  - intros [= <-]. by apply Hg.
Qed.

Create HintDb library.
#[export] Hint Resolve contains_library get_library insert_library
  load_library back_library table_array_push_back_library
  array_push_back_library as_library stoll_library stod_library
  date_fields_library : library.

Ltac numbers_step :=
  lazymatch goal with
  | |- numbers_lines (ret _) => apply numbers_ret
  | |- numbers_lines (bind _ _) => apply numbers_bind; [| intros ?]
  | |- numbers_lines (gets _) => apply numbers_gets
  | |- numbers_lines (throw _) => apply numbers_throw; by intros ? ?
  | |- numbers_lines (Parser.throw_parse_exception _) =>
      apply numbers_throw_parse_exception
  | |- numbers_lines undefined => apply numbers_undefined
  | |- numbers_lines exhausted => apply numbers_exhausted
  | |- numbers_lines (new _) => apply numbers_new
  | |- numbers_lines (reading _) =>
      apply numbers_reading; intros ? ?; eauto with library
  | |- numbers_lines (writing _) =>
      apply numbers_writing; intros ? ?; eauto with library
  | |- numbers_lines (if ?b then _ else _) => destruct b
  | |- numbers_lines (match ?x with _ => _ end) => destruct x
  | |- numbers_lines (λ st, let! a := _ in Ret (a, st)) =>
      apply numbers_lift; intros ?; eauto with library
  | |- numbers_lines (λ st, Ret (tt, set_tables _ st)) =>
      apply numbers_set_tables
  | |- numbers_lines _ => solve [auto with library]
  end.

Ltac numbers_auto := cbv zeta; repeat (numbers_step; cbv zeta).

Lemma string_literal_loop_numbers (budget it end_ : nat) (val : string) :
  numbers_lines (Parser.string_literal_loop budget it end_ val).
Proof.
  revert it val. induction budget as [|budget IH]; intros it val; simpl;
    unfold Parser.parse_escape_code; numbers_auto.
Qed.
#[export] Hint Resolve string_literal_loop_numbers : library.

Lemma skip_lines_numbers (input : list string) (start end_ : nat)
    (st : state) :
  input = input_ st →
  match Parser.skip_lines input start end_ st with
  | Ret (_, st') => counts st st'
  | Throw e =>
      in_range (line_number_ st) (line_number_ st + length (input_ st)) e
  | _ => True
  end.
Proof.
  revert start end_ st.
  induction input as [|l input IH]; intros start end_ st Hin; simpl;
    destruct (_ || _); try apply counts_refl.
  - simpl. lia.
  - match goal with |- context [Parser.skip_lines _ ?a ?b ?s] =>
      specialize (IH a b s eq_refl);
      destruct (Parser.skip_lines input a b s) as [[r st']|e| |]
    end; try done.
    + destruct IH as [H1 H2]. simpl in H1, H2. unfold counts.
      rewrite <- Hin. simpl. split; lia.
    + destruct e as [msg [n|]| |]; simpl in *; try done.
      rewrite <- Hin. simpl. lia.
Qed.

Lemma skip_whitespace_and_comments_numbers (start end_ : nat) :
  numbers_lines (Parser.skip_whitespace_and_comments start end_).
Proof. intros st. by apply skip_lines_numbers. Qed.
#[export] Hint Resolve skip_whitespace_and_comments_numbers : library.

Lemma value_family_numbers (regex : bool) (budget : nat) :
  (∀ it end_, numbers_lines (Parser.parse_value regex budget it end_))
  ∧ (∀ it end_, numbers_lines (Parser.parse_array regex budget it end_))
  ∧ (∀ T it end_,
       numbers_lines (Parser.parse_value_array regex budget T it end_))
  ∧ (∀ T arr it end_,
       numbers_lines
         (Parser.parse_value_array_loop regex budget T arr it end_))
  ∧ (∀ it end_,
       numbers_lines (Parser.parse_nested_array regex budget it end_))
  ∧ (∀ arr it end_,
       numbers_lines (Parser.parse_nested_array_loop regex budget arr it end_)).
Proof.
  induction budget as [|budget (IHv & IHa & IHva & IHvl & IHna & IHnl)].
  { split_and!; intros; simpl; apply numbers_exhausted. }
  split_and!; intros; simpl;
    unfold Parser.determine_value_type, Parser.parse_string,
      Parser.string_literal, Parser.parse_date, Parser.parse_number,
      Parser.parse_int, Parser.parse_float, Parser.parse_bool,
      Parser.as_value;
    numbers_auto.
Qed.

Lemma single_table_walk_numbers (budget it kg_end : nat) (curr : ptr) :
  numbers_lines (Parser.single_table_walk budget it kg_end curr).
Proof.
  revert it curr. induction budget as [|budget IH]; intros it curr; simpl;
    numbers_auto.
Qed.

Lemma table_array_walk_numbers (budget it kg_end : nat) (curr : ptr) :
  numbers_lines (Parser.table_array_walk budget it kg_end curr).
Proof.
  revert it curr. induction budget as [|budget IH]; intros it curr; simpl;
    numbers_auto.
Qed.
#[export] Hint Resolve single_table_walk_numbers table_array_walk_numbers
  : library.

(** The body of [parse_line], after the line has been counted. *)
Lemma parse_line_numbers (regex : bool) (root curr : ptr) (st : state) :
  match Parser.parse_line regex root curr st with
  | Ret (_, st') =>
      S (line_number_ st) ≤ line_number_ st'
      ∧ line_number_ st' + length (input_ st')
        = S (line_number_ st) + length (input_ st)
  | Throw e =>
      in_range (S (line_number_ st))
               (S (line_number_ st) + length (input_ st)) e
  | _ => True
  end.
Proof.
  pose proof (value_family_numbers regex) as Hv.
  unfold Parser.parse_line. unfold bind at 1, next_line_number at 1.
  fold (counted st).
  match goal with |- context [?c (counted st)] =>
    assert (numbers_lines c) as Hc
  end.
  { unfold Parser.parse_table, Parser.parse_single_table,
      Parser.parse_table_array, Parser.parse_key_value, Parser.parse_key,
      Parser.parse_quoted_key, Parser.parse_bare_key, Parser.string_literal,
      Parser.eol_or_comment.
    numbers_auto. apply Hv. }
  specialize (Hc (counted st)). simpl in Hc.
  match goal with |- context [?c (counted st)] =>
    destruct (c (counted st)) as [[r st']|e| |]
  end; done.
Qed.

Lemma parse_loop_numbers (regex : bool) (root : ptr) (budget : nat) :
  ∀ (curr : ptr) (st : state) (e : exception),
    Parser.parse_loop regex budget root curr st = Throw e →
    in_range (S (line_number_ st)) (line_number_ st + length (input_ st)) e.
Proof.
  induction budget as [|budget IH]; intros curr st e; simpl;
    unfold bind at 1, getline at 1;
    destruct (input_ st) as [|l rest] eqn:Hin; try done.
  fold (delivered l rest st). unfold bind at 1.
  pose proof (parse_line_numbers regex root curr (delivered l rest st)) as Hl.
  destruct (Parser.parse_line regex root curr (delivered l rest st))
    as [[c st']|e'| |]; try done.
  - intros Hloop. apply IH in Hloop. simpl in Hl.
    destruct e as [msg [n|]| |]; simpl in *; try done. lia.
  - intros [= <-]. destruct e' as [msg [n|]| |]; simpl in *; try done. lia.
Qed.

(** X8: the line number in a parse error is the number of a line of the
    document: at least 1 and at most the number of lines. *)
Theorem line_numbers_in_document (regex : bool) (stream : string)
    (msg : string) (n : nat) :
  parse_stream regex stream = Throw (parse_exception msg (Some n)) →
  1 ≤ n ≤ length (stream_lines stream).
Proof.
  unfold parse_stream, Parser.parse. intros H.
  rewrite (bind_eq _ _ (parser stream) (entering_loop stream) 0) in H
    by reflexivity.
  rewrite (bind_eq _ _ (entering_loop stream) (entering_loop stream)
             (length (input_ (entering_loop stream)))) in H by reflexivity.
  unfold bind at 1 in H.
  destruct (Parser.parse_loop _ _ _ _ _) as [[r st]|e| |] eqn:Hloop;
    try done.
  simpl in H. injection H as ->.
  apply parse_loop_numbers in Hloop. simpl in Hloop. lia.
Qed.

Lemma line_numbers_in_document_witness :
  1 ≤ 2 ≤ length (stream_lines "x = 1
y = 2.").
Proof.
  apply (line_numbers_in_document true _ "Floats must have trailing digits").
  vm_compute. reflexivity.
Defined.

Lemma parse_stream_located_witness :
  located (parse_exception "Table name a b cannot have whitespace" None).
Proof. apply (parse_stream_located true "[a b]"). vm_compute. reflexivity. Defined.

Lemma get_qualified_unfolds_witness :
  Table.get_qualified abc_store 0 "a.b.c" = Ret 3
  ↔ Table.get_qualified abc_store 1 "b.c" = Ret 3.
Proof.
  destruct (get_qualified_unfolds abc_store 0 "a" "b.c" "c" eq_refl eq_refl)
    as (_ & _ & Hstep & _).
  destruct (Hstep 1 ltac:(vm_compute; reflexivity)) as [_ Hget].
  exact (Hget 3).
Defined.

(** ** Assignment lines *)

Lemma occurs_deref (c : ascii) (s : string) (i : nat) :
  occurs c s = false → i < String.length s → Ascii.eqb (deref s i) c = false.
Proof.
  revert i. induction s as [|x s IH]; intros i H Hi; simpl in *; [lia |].
  apply orb_false_elim in H as [Hx Hs]. destruct i as [|i]; [done |].
  rewrite deref_shift. apply IH; [done | lia].
Qed.

Lemma deref_append_l (a b : string) (i : nat) :
  i < String.length a → deref (a +:+ b) i = deref a i.
Proof.
  revert i. induction a as [|c a IH]; intros i Hi; simpl in Hi; [lia |].
  rewrite append_cons. destruct i as [|i]; [done |].
  rewrite !deref_shift. apply IH. lia.
Qed.

Lemma find_if_append_r (p : ascii → bool) (a b : string) (i j : nat) :
  find_if p (a +:+ b) (String.length a + i) (String.length a + j)
  = String.length a + find_if p b i j.
Proof.
  induction a as [|c a IH]; [done |]. rewrite append_cons.
  cbn [String.length Nat.add]. by rewrite find_if_shift, IH.
Qed.

Lemma substr_append_r (a b : string) (i j : nat) :
  substr (a +:+ b) (String.length a + i) (String.length a + j) = substr b i j.
Proof.
  induction a as [|c a IH]; [done |]. rewrite append_cons.
  cbn [String.length Nat.add]. by rewrite substr_shift.
Qed.

Lemma find_if_skip (p : ascii → bool) (s : string) (it end_ : nat) :
  it < end_ → p (deref s it) = false →
  find_if p s it end_ = find_if p s (S it) end_.
Proof.
  intros Hlt H. unfold find_if.
  replace (end_ - it) with (S (end_ - S it)) by lia. simpl. by rewrite H.
Qed.

Lemma find_if_none (p : ascii → bool) (s : string) (it end_ : nat) :
  it ≤ end_ → (∀ i, it ≤ i < end_ → p (deref s i) = false) →
  find_if p s it end_ = end_.
Proof.
  intros Hle H. unfold find_if.
  replace end_ with (it + (end_ - it)) at 2 by lia.
  assert (∀ i, it ≤ i < it + (end_ - it) → p (deref s i) = false) as H'.
  { intros i Hi. apply H. lia. }
  remember (end_ - it) as n eqn:Hn. clear Hn H Hle. revert it H'.
  induction n as [|n IH]; intros it H; simpl; [lia |].
  rewrite (H it) by lia. rewrite IH; [lia |]. intros i Hi. apply H. lia.
Qed.

Lemma bare_inv (key : string) :
  bare key = true →
  String.length key ≠ 0
  ∧ Ascii.eqb (deref key 0) "[" = false
  ∧ Ascii.eqb (deref key 0) "034" = false
  ∧ occurs " " key = false ∧ occurs "009" key = false
  ∧ occurs "#" key = false ∧ occurs "=" key = false
  ∧ occurs "010" key = false.
Proof.
  intros Hkey. destruct key as [|c k]; [done |]. unfold bare in Hkey.
  repeat (apply andb_prop in Hkey as [Hkey ?%negb_true_iff]).
  apply negb_true_iff in Hkey. split_and!; done.
Qed.

Section assignment_lines.
Context (key text : string) (Hkey : bare key = true).
Context (Htext : is_blank (deref text 0) = false).

Let n := String.length key.
Let line := assignment key text.
Let len := String.length line.

Lemma assignment_length : len = n + 3 + String.length text.
Proof.
  subst len line n. unfold assignment. rewrite length_append. simpl. lia.
Qed.

Lemma assignment_key (i : nat) : i < n → deref line i = deref key i.
Proof. apply deref_append_l. Qed.

Lemma assignment_after (i : nat) :
  deref line (n + i) = deref (String " " (String "=" (String " " text))) i.
Proof. apply deref_append_r. Qed.

Lemma key_not_blank (i : nat) : i < n → is_blank (deref line i) = false.
Proof.
  intros Hi. destruct (bare_inv key Hkey) as (_ & _ & _ & Hs & Ht & _).
  rewrite assignment_key by done. unfold is_blank.
  by rewrite (occurs_deref _ _ _ Hs), (occurs_deref _ _ _ Ht).
Qed.

Lemma assignment_start : Parser.consume_whitespace line 0 len = 0.
Proof.
  apply find_if_here. rewrite key_not_blank; [done |].
  destruct (bare_inv key Hkey). lia.
Qed.

Lemma assignment_first (c : ascii) :
  Ascii.eqb (deref key 0) c = false → Ascii.eqb (deref line 0) c = false.
Proof.
  intros H. rewrite assignment_key; [done |]. destruct (bare_inv key Hkey). lia.
Qed.

Lemma assignment_equals : find "=" line 0 len = S n.
Proof.
  destruct (bare_inv key Hkey) as (_ & _ & _ & _ & _ & _ & He & _).
  rewrite assignment_length. unfold line, assignment.
  replace (n + 3 + String.length text) with (n + (3 + String.length text))
    by lia.
  rewrite find_in_name by done. cbn. lia.
Qed.

Lemma assignment_key_scan (p : ascii → bool) :
  (∀ i, i < n → p (deref key i) = false) → find_if p line 0 n = n.
Proof.
  intros H. apply find_if_none; [lia |]. intros i Hi.
  rewrite assignment_key by lia. apply H. lia.
Qed.

Lemma assignment_key_end :
  Parser.consume_backwards_whitespace line (S n - 1) 0 = n - 1.
Proof.
  destruct (bare_inv key Hkey) as (Hn & _).
  unfold Parser.consume_backwards_whitespace.
  replace (S n - 1 - 0) with (S (n - 1)) by lia.
  replace (S n - 1) with n by lia.
  cbn [Parser.consume_backwards_whitespace_n].
  replace (n =? 0) with false by (symmetry; by apply Nat.eqb_neq).
  replace n with (n + 0) at 1 by lia. rewrite assignment_after.
  cbn [negb andb deref String.get is_blank Ascii.eqb orb].
  change (is_blank " ") with true. cbn [andb].
  destruct (n - 1) as [|k] eqn:Hk; [done |].
  cbn [Parser.consume_backwards_whitespace_n].
  rewrite key_not_blank by lia. by rewrite andb_false_r.
Qed.

Lemma assignment_key_text : substr line 0 n = key.
Proof. unfold substr. rewrite Nat.sub_0_r. apply substring_append. Qed.

End assignment_lines.

Lemma assignment_equals_sign (key text : string) :
  deref (assignment key text) (S (String.length key)) = "="%char.
Proof.
  replace (S (String.length key)) with (String.length key + 1) by lia.
  unfold assignment. by rewrite deref_append_r.
Qed.

Lemma assignment_value_start (key text : string) :
  bare key = true → is_blank (deref text 0) = false →
  Parser.consume_whitespace (assignment key text) (S (S (String.length key)))
    (String.length (assignment key text))
  = String.length key + 3.
Proof.
  intros Hkey Htext. rewrite assignment_length. unfold Parser.consume_whitespace.
  rewrite find_if_skip; [| lia |].
  - replace (S (S (S (String.length key)))) with (String.length key + 3)
      by lia.
    apply find_if_here. unfold assignment. rewrite deref_append_r.
    change (deref (String " " (String "=" (String " " text))) 3)
      with (deref text 0).
    by rewrite Htext.
  - replace (S (S (String.length key))) with (String.length key + 2) by lia.
    unfold assignment. by rewrite deref_append_r.
Qed.

Lemma parse_bare_key_assignment (key text : string) (st : state) :
  bare key = true → line_ st = assignment key text →
  Parser.parse_bare_key 0 (String.length (assignment key text)) st
  = Ret ((key, S (String.length key)), st).
Proof.
  intros Hkey Hline.
  destruct (bare_inv key Hkey) as (Hn & _ & _ & Hs & Ht & Hh & He & _).
  unfold Parser.parse_bare_key, bind, gets. rewrite Hline.
  rewrite (assignment_equals key text Hkey). cbn [Nat.eqb].
  rewrite (assignment_key_end key text Hkey).
  replace (S (String.length key - 1)) with (String.length key) by lia.
  rewrite assignment_key_text.
  unfold find at 1. rewrite assignment_key_scan; cycle 1.
  { intros i Hi. rewrite Ascii.eqb_sym. by apply occurs_deref. }
  rewrite Nat.eqb_refl. cbn [negb].
  rewrite assignment_key_scan; cycle 1.
  { intros i Hi. unfold is_blank.
    by rewrite (occurs_deref _ _ _ Hs), (occurs_deref _ _ _ Ht). }
  rewrite Nat.eqb_refl. cbn [negb]. unfold ret. do 3 f_equal.
  apply find_if_here. by rewrite assignment_equals_sign.
Qed.

Lemma bind_gets {A B} (f : state → A) (k : A → M B) (st : state) :
  bind (gets f) k st = k (f st) st.
Proof. reflexivity. Qed.

Lemma parse_key_assignment (key text : string) (st : state) :
  bare key = true → line_ st = assignment key text →
  Parser.parse_key 0 (String.length (assignment key text)) st
  = Ret ((key, S (String.length key)), st).
Proof.
  intros Hkey Hline.
  destruct (bare_inv key Hkey) as (Hn & Hb & Hq & _).
  unfold Parser.parse_key. rewrite bind_gets, Hline.
  rewrite (assignment_start key text Hkey),
    (assignment_first key text Hkey _ Hq).
  by apply parse_bare_key_assignment.
Qed.

(** What [parse_line] does on an assignment to a new key: the value is
    parsed where its text begins and inserted under the key. *)
Lemma parse_line_assignment (regex : bool) (root curr : ptr) (st : state)
    (key text : string) :
  bare key = true → is_blank (deref text 0) = false →
  line_ st = assignment key text →
  Table.contains (store st) curr key = Ret false →
  Parser.parse_line regex root curr st
  = (let* (v, (it, end_)) :=
       Parser.parse_value regex (Parser.value_budget (counted st))
         (String.length key + 3) (String.length (assignment key text)) in
     let* _ := writing (λ mem, Table.insert mem curr key v) in
     let* line := gets line_ in
     let it := Parser.consume_whitespace line it end_ in
     let* _ := Parser.eol_or_comment it end_ in
     ret curr) (counted st).
Proof.
  intros Hkey Htext Hline Hc.
  destruct (bare_inv key Hkey) as (Hn & Hb & Hq & Hs & Ht & Hh & He & _).
  assert (Hlen := assignment_length key text).
  assert (Ascii.eqb (deref key 0) "#" = false) as Hh0.
  { apply occurs_deref; [done | lia]. }
  unfold Parser.parse_line.
  rewrite (bind_eq _ _ st (counted st) tt) by reflexivity.
  rewrite bind_gets. cbn [line_ counted]. rewrite Hline.
  rewrite (assignment_start key text Hkey).
  replace (0 =? String.length (assignment key text)) with false
    by (symmetry; apply Nat.eqb_neq; lia).
  rewrite (assignment_first key text Hkey _ Hh0),
    (assignment_first key text Hkey _ Hb). cbn [orb].
  unfold Parser.parse_key_value.
  assert (Hline' : line_ (counted st) = assignment key text) by done.
  set (st0 := counted st) in *.
  unfold bind at 1.
  rewrite (bind_eq _ _ st0 st0 (key, S (String.length key))
             (parse_key_assignment key text st0 Hkey Hline')).
  rewrite (bind_eq _ _ st0 st0 false (reading_eq _ st0 false Hc)).
  rewrite bind_gets, Hline', assignment_equals_sign.
  cbn [Ascii.eqb Bool.eqb negb andb].
  rewrite (assignment_value_start key text Hkey Htext).
  rewrite bind_gets. unfold bind.
  destruct (Parser.parse_value _ _ _ _ _) as [[[v [it end_]] st1]| | |];
    try done.
  by destruct (writing _ st1) as [[[] st2]| | |].
Qed.

(** ** String literals *)

Lemma append_assoc (a b c : string) : (a +:+ b) +:+ c = a +:+ (b +:+ c).
Proof.
  induction a as [|x a IH]; [done |]. rewrite !append_cons. by rewrite IH.
Qed.

Lemma append_empty (a : string) : a +:+ EmptyString = a.
Proof. induction a as [|x a IH]; [done |]. rewrite append_cons. by rewrite IH. Qed.

Lemma append_snoc (a : string) (c : ascii) (b : string) :
  (a +:+ String c EmptyString) +:+ b = a +:+ String c b.
Proof. by rewrite append_assoc. Qed.

Lemma deref_after (pre tail : string) :
  deref (pre +:+ tail) (String.length pre) = deref tail 0.
Proof.
  rewrite <- (deref_append_r pre tail 0). f_equal. lia.
Qed.

Lemma deref_after_next (pre tail : string) :
  deref (pre +:+ tail) (S (String.length pre)) = deref tail 1.
Proof.
  replace (S (String.length pre)) with (String.length pre + 1) by lia.
  apply deref_append_r.
Qed.

Lemma parse_escape_code_eq (it end_ : nat) (st : state) (x c : ascii) :
  (S it =? end_) = false → deref (line_ st) (S it) = x →
  escape_char c = String "\" (String x EmptyString) →
  Parser.parse_escape_code it end_ st = Ret ((c, S (S it)), st).
Proof.
  intros Hend Hx Hc. unfold Parser.parse_escape_code.
  rewrite bind_gets, Hend, Hx. unfold escape_char in Hc.
  repeat (lazymatch type of Hc with
          | (if Ascii.eqb c ?y then _ else _) = _ =>
              destruct (Ascii.eqb_spec c y) as [-> |]
          end; [injection Hc as <-; reflexivity |]).
  discriminate Hc.
Qed.

Lemma escape_char_cases (c : ascii) :
  (∃ x, escape_char c = String "\" (String x EmptyString))
  ∨ (escape_char c = String c EmptyString
     ∧ Ascii.eqb c "\" = false ∧ Ascii.eqb c "034" = false
     ∧ Ascii.eqb c "010" = false).
Proof.
  unfold escape_char.
  repeat (lazymatch goal with
          | |- (∃ x, (if Ascii.eqb c ?y then _ else _) = _) ∨ _ =>
              destruct (Ascii.eqb c y) eqn:?
          end; [left; eauto |]).
  right. done.
Qed.

(** The loop of [string_literal] on the text of an escaped string, up to the
    closing quote. *)
Lemma string_literal_loop_escape (s : string) :
  ∀ (pre rest val : string) (st : state) (budget : nat),
    line_ st = pre +:+ (escape s +:+ String "034" rest) →
    String.length (escape s) < budget →
    Parser.string_literal_loop budget (String.length pre)
      (String.length (line_ st)) val st
    = Ret ((val +:+ s,
            Parser.consume_whitespace (line_ st)
              (String.length pre + String.length (escape s) + 1)
              (String.length (line_ st))), st).
Proof.
  induction s as [|c s IH]; intros pre rest val st budget Hline Hb.
  - destruct budget as [|budget]; [simpl in Hb; lia |].
    cbn [Parser.string_literal_loop escape String.length] in *.
    assert (String.length (line_ st) = String.length pre + S (String.length rest))
      as Hlen by (by rewrite Hline, length_append).
    replace (String.length pre =? String.length (line_ st)) with false
      by (symmetry; apply Nat.eqb_neq; lia).
    rewrite bind_gets.
    assert (deref (line_ st) (String.length pre) = "034"%char) as ->.
    { by rewrite Hline, deref_after. }
    cbn. rewrite append_empty. unfold ret. do 4 f_equal. lia.
  - destruct budget as [|budget]; [simpl in Hb; lia |].
    cbn [escape] in *. rewrite length_append in *.
    assert (String.length (line_ st)
            = String.length pre + (String.length (escape_char c)
              + String.length (escape s) + S (String.length rest)))
      as Hlen.
    { rewrite Hline, !length_append. simpl. lia. }
    rewrite append_assoc in Hline.
    cbn [Parser.string_literal_loop].
    destruct (escape_char_cases c) as [[x Hx] | (Hx & Hbs & Hq & _)];
      rewrite Hx in *; cbn [String.length] in *.
    + replace (String.length pre =? String.length (line_ st)) with false
        by (symmetry; apply Nat.eqb_neq; lia).
      rewrite bind_gets.
      assert (deref (line_ st) (String.length pre) = "\"%char) as ->.
      { by rewrite Hline, deref_after. }
      cbn [Ascii.eqb Bool.eqb andb].
      rewrite (bind_eq _ _ st st (c, S (S (String.length pre)))); cycle 1.
      { apply (parse_escape_code_eq _ _ _ x); [| | done].
        - apply Nat.eqb_neq. lia.
        - by rewrite Hline, deref_after_next. }
      cbn beta iota.
      specialize (IH (pre +:+ String "\" (String x EmptyString)) rest
                    (val +:+ String c EmptyString) st budget).
      rewrite length_append in IH. cbn [String.length] in IH.
      replace (String.length pre + 2) with (S (S (String.length pre)))
        in IH by lia.
      rewrite IH; [| by rewrite Hline, append_assoc | lia].
      rewrite append_snoc. do 4 f_equal. lia.
    + replace (String.length pre =? String.length (line_ st)) with false
        by (symmetry; apply Nat.eqb_neq; lia).
      rewrite bind_gets.
      assert (deref (line_ st) (String.length pre) = c) as ->.
      { by rewrite Hline, deref_after. }
      rewrite Hbs, Hq.
      specialize (IH (pre +:+ String c EmptyString) rest
                    (val +:+ String c EmptyString) st budget).
      rewrite length_append in IH. cbn [String.length] in IH.
      replace (String.length pre + 1) with (S (String.length pre))
        in IH by lia.
      rewrite IH; [| by rewrite Hline, append_assoc | lia].
      rewrite append_snoc. do 4 f_equal. lia.
Qed.

Lemma eol_or_comment_end (end_ : nat) (st : state) :
  Parser.eol_or_comment end_ end_ st = Ret (tt, st).
Proof.
  unfold Parser.eol_or_comment. rewrite bind_gets. by rewrite Nat.eqb_refl.
Qed.

(** [parse_value] on a string literal that ends the line. *)
Lemma parse_value_string (regex : bool) (budget : nat) (pre s : string)
    (st : state) :
  line_ st = pre +:+ quoted s →
  Parser.parse_value regex (S budget) (String.length pre)
    (String.length (line_ st)) st
  = Ret ((length (store st),
          (String.length (line_ st), String.length (line_ st))),
         set_store (store st ++ [value (d_string s)]) st).
Proof.
  intros Hline. cbn [Parser.parse_value].
  assert (Parser.determine_value_type regex (String.length pre)
            (String.length (line_ st)) st = Ret (Parser.STRING, st)) as Htype.
  { unfold Parser.determine_value_type. by rewrite bind_gets, Hline, deref_after. }
  rewrite (bind_eq _ _ _ _ _ Htype).
  assert (String.length (line_ st)
          = S (String.length pre) + String.length (escape s) + 1) as Hlen.
  { rewrite Hline, length_append. unfold quoted. simpl.
    rewrite length_append. simpl. lia. }
  assert (Parser.string_literal (String.length pre) (String.length (line_ st)) st
          = Ret ((s, String.length (line_ st)), st)) as Hlit.
  { unfold Parser.string_literal.
    pose proof (string_literal_loop_escape s
                  (pre +:+ String "034" EmptyString) EmptyString EmptyString
                  st (String.length (line_ st) - S (String.length pre))) as H.
    rewrite length_append in H. cbn [String.length] in H.
    replace (String.length pre + 1) with (S (String.length pre)) in H by lia.
    rewrite H; [| by rewrite Hline, append_snoc | lia].
    cbn [String.append]. do 3 f_equal.
    replace (S (String.length pre) + String.length (escape s) + 1)
      with (String.length (line_ st)) by lia.
    apply find_if_end. }
  unfold Parser.parse_string.
  rewrite (bind_eq _ _ st (set_store (store st ++ [value (d_string s)]) st)
             ((length (store st), String.length (line_ st)))); [done |].
  by rewrite (bind_eq _ _ _ _ _ Hlit).
Qed.

Lemma occurs_append (c : ascii) (a b : string) :
  occurs c (a +:+ b) = occurs c a || occurs c b.
Proof.
  induction a as [|x a IH]; [done |]. rewrite append_cons. simpl.
  rewrite IH. by rewrite orb_assoc.
Qed.

Lemma escape_no_line_end (s : string) : occurs "010" (escape s) = false.
Proof.
  induction s as [|c s IH]; [done |]. cbn [escape].
  rewrite occurs_append, IH, orb_false_r.
  destruct (escape_char_cases c) as [[x Hx] | (Hx & _ & _ & Hn)].
  - unfold escape_char in *.
    repeat (lazymatch goal with
            | |- occurs _ (if Ascii.eqb c ?y then _ else _) = _ =>
                destruct (Ascii.eqb c y) eqn:?
            end; [done |]).
    done.
  - rewrite Hx. simpl. by rewrite Hn.
Qed.

Lemma stream_lines_single (l : string) :
  l ≠ EmptyString → occurs "010" l = false → stream_lines l = [l].
Proof.
  induction l as [|c l IH]; intros Hne Hl; [done |]. simpl in *.
  apply orb_false_elim in Hl as [Hc Hl]. rewrite Hc.
  destruct l as [|c' l]; [done |]. by rewrite IH.
Qed.

(** A document of one line. *)
Lemma parse_stream_single_line (regex : bool) (l : string) (c : ptr)
    (st' : state) :
  l ≠ EmptyString → occurs "010" l = false →
  Parser.parse_line regex 0 0 (mk_state [table ∅] [] l 0 ∅) = Ret (c, st') →
  input_ st' = [] →
  parse_stream regex l = Ret (mk_document 0 (store st')).
Proof.
  intros Hne Hl Hline Hin. unfold parse_stream, Parser.parse.
  rewrite (bind_eq _ _ (parser l) (entering_loop l) 0) by reflexivity.
  rewrite (bind_eq _ _ (entering_loop l) (entering_loop l)
             (length (input_ (entering_loop l)))) by reflexivity.
  cbn [entering_loop input_ parser set_store].
  rewrite (stream_lines_single l Hne Hl).
  cbn [length Parser.parse_loop]. unfold bind, getline, entering_loop.
  cbn [input_ store line_number_ tables_ line_ parser set_store].
  rewrite (stream_lines_single l Hne Hl). rewrite Hline, Hin.
  by destruct st'.
Qed.

Lemma value_budget_pos (st : state) : ∃ budget, Parser.value_budget st = S budget.
Proof.
  unfold Parser.value_budget.
  exists (6 * (String.length (line_ st)
               + list_sum (map (λ l, S (String.length l)) (input_ st)) + 1) - 1).
  lia.
Qed.

Lemma assignment_prefix (key text : string) :
  assignment key text
  = (key +:+ String " " (String "=" (String " " EmptyString))) +:+ text.
Proof. unfold assignment. by rewrite append_assoc. Qed.

Lemma assignment_not_empty (key text : string) :
  bare key = true → assignment key text ≠ EmptyString.
Proof. intros Hkey. by destruct key. Qed.

(** An assignment whose value is read by [parse_value] up to the end of the
    line, as a new node: the table gets the key, bound to the node. *)
Lemma parse_line_assignment_value (regex : bool) (key text : string)
    (n : base) :
  bare key = true → is_blank (deref text 0) = false →
  (∀ budget st,
     line_ st = assignment key text →
     Parser.parse_value regex (S budget) (String.length key + 3)
       (String.length (line_ st)) st
     = Ret ((length (store st),
             (String.length (line_ st), String.length (line_ st))),
            set_store (store st ++ [n]) st)) →
  Parser.parse_line regex 0 0 (mk_state [table ∅] [] (assignment key text) 0 ∅)
  = Ret (0, mk_state [table {[key := 1]}; n] [] (assignment key text) 1 ∅).
Proof.
  intros Hkey Htext Hvalue.
  set (st := mk_state [table ∅] [] (assignment key text) 0 ∅).
  rewrite (parse_line_assignment regex 0 0 st key text Hkey Htext eq_refl);
    [| done].
  destruct (value_budget_pos (counted st)) as [budget ->].
  specialize (Hvalue budget (counted st) eq_refl).
  cbn [line_ counted st] in Hvalue.
  rewrite (bind_eq _ _ _ _ _ Hvalue). cbn beta iota.
  rewrite (bind_eq _ _ _
             (mk_state [table {[key := 1]}; n] [] (assignment key text) 1 ∅)
             tt); cycle 1.
  { unfold writing, Table.insert. simpl. by rewrite insert_empty. }
  rewrite bind_gets. cbn [line_].
  unfold Parser.consume_whitespace. rewrite find_if_end.
  by rewrite (bind_eq _ _ _ _ _ (eol_or_comment_end _ _)).
Qed.

(** X11: every string can be written as a string literal and is read back as
    it was. On the one-line document that assigns the literal for [s] (the
    characters with an escape code, the quote and the backslash written with
    a backslash) to a key, the parser returns a root table in which the key
    is bound to the string [s]. *)
Theorem string_round_trip (regex : bool) (key s : string) :
  bare key = true →
  parse_stream regex (assignment key (quoted s))
  = Ret (mk_document 0 [table {[key := 1]}; value (d_string s)]).
Proof.
  intros Hkey.
  destruct (bare_inv key Hkey) as (_ & _ & _ & _ & _ & _ & _ & Hnl).
  rewrite (parse_stream_single_line regex _ 0
             (mk_state [table {[key := 1]}; value (d_string s)] []
                       (assignment key (quoted s)) 1 ∅)); try done.
  - by apply assignment_not_empty.
  - unfold assignment, quoted. rewrite occurs_append, Hnl. simpl.
    by rewrite occurs_append, escape_no_line_end.
  - apply parse_line_assignment_value; [done.. |].
    intros budget st Hline.
    pose proof (parse_value_string regex budget
                  (key +:+ String " " (String "=" (String " " EmptyString)))
                  s st) as H.
    rewrite length_append in H. apply H.
    by rewrite Hline, assignment_prefix.
Qed.

Lemma string_round_trip_witness :
  ∃ d, parse_stream true (assignment "path" (quoted "C:\dir")) = Ret d
       ∧ read_as t_string (nodes d) (root d) "path"
         = Ret (Some (d_string "C:\dir")).
Proof.
  eexists. split; [by apply string_round_trip |].
  vm_compute. reflexivity.
Defined.

(** ** Integers *)

Lemma digit_char_number (d : nat) :
  d < 10 →
  is_number (digit_char d) = true
  ∧ Z.of_nat (nat_of_ascii (digit_char d) - 48) = Z.of_nat d.
Proof.
  intros Hd. do 10 (destruct d as [|d]; [by vm_compute |]). lia.
Qed.

Lemma scan_to_string_n (fuel : nat) :
  ∀ n, n < fuel →
    ∃ k, ∀ acc a,
      scan_digits (to_string_n fuel n acc) a
      = scan_digits acc (Some (default 0 a * 10 ^ Z.of_nat (S k) + Z.of_nat n)%Z).
Proof.
  induction fuel as [|fuel IH]; intros n Hn; [lia |].
  cbn [to_string_n].
  destruct (digit_char_number (n mod 10)) as [Hnum Hval].
  { apply Nat.mod_upper_bound. lia. }
  pose proof (Nat.div_mod_eq n 10) as Hdiv.
  destruct (n / 10 =? 0) eqn:Hq.
  - apply Nat.eqb_eq in Hq. exists 0. intros acc a.
    cbn [scan_digits]. rewrite Hnum, Hval. do 2 f_equal.
    change (Z.of_nat 1) with 1%Z. rewrite Z.pow_1_r. lia.
  - apply Nat.eqb_neq in Hq.
    destruct (IH (n / 10)) as [k Hk]; [lia |].
    exists (S k). intros acc a. rewrite Hk.
    cbn [scan_digits]. rewrite Hnum, Hval. cbn [default]. do 2 f_equal.
    rewrite (Nat2Z.inj_succ (S k)), Z.pow_succ_r by lia.
    set (p := (10 ^ Z.of_nat (S k))%Z). unfold id. lia.
Qed.

Lemma scan_to_string (n : nat) :
  scan_digits (to_string n) None = (Some (Z.of_nat n), EmptyString).
Proof.
  destruct (scan_to_string_n (S n) n ltac:(lia)) as [k Hk].
  unfold to_string. rewrite Hk. simpl. do 2 f_equal.
Qed.

Lemma to_string_n_digits (fuel : nat) :
  ∀ n acc, digits_only acc = true →
           digits_only (to_string_n fuel n acc) = true.
Proof.
  induction fuel as [|fuel IH]; intros n acc Hacc; [done |].
  cbn [to_string_n].
  destruct (digit_char_number (n mod 10)) as [Hnum _].
  { apply Nat.mod_upper_bound. lia. }
  destruct (n / 10 =? 0); [| apply IH]; cbn [digits_only]; by rewrite Hnum.
Qed.

Lemma to_string_digits (n : nat) : digits_only (to_string n) = true.
Proof. by apply to_string_n_digits. Qed.

Lemma to_string_n_not_empty (fuel n : nat) (acc : string) :
  acc ≠ EmptyString → to_string_n fuel n acc ≠ EmptyString.
Proof.
  revert n acc. induction fuel as [|fuel IH]; intros n acc Hacc; [done |].
  cbn [to_string_n]. destruct (n / 10 =? 0); [done |]. by apply IH.
Qed.

Lemma to_string_not_empty (n : nat) : to_string n ≠ EmptyString.
Proof.
  unfold to_string. cbn [to_string_n].
  destruct (n / 10 =? 0); [done |]. by apply to_string_n_not_empty.
Qed.

Lemma scan_int_digit (c : ascii) (r : string) :
  is_number c = true →
  scan_int (String c r)
  = match scan_digits (String c r) None with
    | (Some z, rest) => Some (z, rest)
    | (None, _) => None
    end.
Proof.
  intros Hc. unfold scan_int.
  destruct c as [[] [] [] [] [] [] [] []]; try done.
Qed.

Lemma stoll_integer_text (z : Z) :
  stoll (integer_text z)
  = if ((z <? - 2 ^ 63) || (2 ^ 63 - 1 <? z))%Z
    then Throw (out_of_range "stoll") else Ret z.
Proof.
  unfold stoll, integer_text. destruct (z <? 0)%Z eqn:Hz.
  - apply Z.ltb_lt in Hz. unfold scan_int.
    rewrite scan_to_string by done. rewrite Z2Nat.id by lia.
    by rewrite Z.opp_involutive.
  - apply Z.ltb_ge in Hz.
    pose proof (to_string_digits (Z.to_nat z)) as Hd.
    pose proof (to_string_not_empty (Z.to_nat z)) as Hne.
    pose proof (scan_to_string (Z.to_nat z)) as Hs.
    destruct (to_string (Z.to_nat z)) as [|c r]; [done |].
    simpl in Hd. apply andb_prop in Hd as [Hc _].
    rewrite (scan_int_digit c r Hc), Hs. by rewrite Z2Nat.id by lia.
Qed.

Lemma digits_deref (s : string) (i : nat) :
  digits_only s = true → i < String.length s → is_number (deref s i) = true.
Proof.
  revert i. induction s as [|c s IH]; intros i H Hi; simpl in *; [lia |].
  apply andb_prop in H as [Hc Hs]. destruct i as [|i]; [done |].
  rewrite deref_shift. apply IH; [done | lia].
Qed.

Lemma digits_deref_minus (s : string) (i : nat) :
  digits_only s = true → Ascii.eqb (deref s i) "-" = false.
Proof.
  intros H. destruct (decide (i < String.length s)) as [Hi | Hi].
  - pose proof (digits_deref s i H Hi) as Hn.
    destruct (Ascii.eqb_spec (deref s i) "-") as [Heq |]; [| done].
    by rewrite Heq in Hn.
  - by rewrite deref_end by lia.
Qed.

Lemma regex_match_digits (s : string) :
  digits_only s = true → regex_match s date_pattern = false.
Proof.
  intros H.
  destruct s as [|c1 [|c2 [|c3 [|c4 [|c5 s]]]]]; simpl; try done;
    rewrite ?andb_false_r; try done.
  pose proof (digits_deref_minus _ 4 H) as H5.
  change (deref (String c1 (String c2 (String c3 (String c4 (String c5 s))))) 4)
    with c5 in H5.
  rewrite H5. by rewrite !andb_false_r.
Qed.

(** The text of a number: digits, after a minus sign or not. *)
Section numbers.
Context (regex : bool) (text : string).
Context (Hfirst : is_number (deref text 0) || Ascii.eqb (deref text 0) "-"
                  = true).
Context (Hdigits : ∀ i, (if Ascii.eqb (deref text 0) "-" then 1 else 0) ≤ i
                        < String.length text →
                        is_number (deref text i) = true).
Context (Hregex : regex_match text date_pattern = false).
Context (Hfifth : Ascii.eqb (deref text 4) "-" = false).
Context (pre : string) (st : state) (Hline : line_ st = pre +:+ text).

Let it := String.length pre.
Let end_ := String.length (line_ st).

Lemma number_length : end_ = it + String.length text.
Proof. subst end_ it. by rewrite Hline, length_append. Qed.

Lemma number_deref (i : nat) : deref (line_ st) (it + i) = deref text i.
Proof. subst it. rewrite Hline. apply deref_append_r. Qed.

Lemma number_first : deref (line_ st) it = deref text 0.
Proof. subst it. rewrite Hline. apply deref_after. Qed.

Lemma number_not_empty : 0 < String.length text.
Proof.
  destruct text as [|c r]; [| simpl; lia]. by vm_compute in Hfirst.
Qed.

Lemma number_date_chars (i : nat) :
  i < String.length text → Parser.not_date_char (deref text i) = false.
Proof.
  intros Hi. unfold Parser.not_date_char.
  destruct (decide (i = 0)) as [-> | Hne].
  - apply orb_prop in Hfirst as [-> | ->%Ascii.eqb_eq]; by vm_compute.
  - rewrite Hdigits; [done |].
    destruct (Ascii.eqb (deref text 0) "-"); lia.
Qed.

Lemma number_text : substr (line_ st) it end_ = text.
Proof.
  rewrite number_length. subst it. rewrite Hline.
  replace (String.length pre) with (String.length pre + 0) at 1 by lia.
  rewrite substr_append_r. unfold substr. rewrite Nat.sub_0_r.
  apply substring_all.
Qed.

Lemma number_is_not_date : Parser.is_date regex (line_ st) it end_ = false.
Proof.
  unfold Parser.is_date.
  assert (find_if Parser.not_date_char (line_ st) it end_ = end_) as ->.
  { apply find_if_none; [rewrite number_length; lia |].
    intros i Hi. rewrite number_length in Hi.
    replace i with (it + (i - it)) by lia. rewrite number_deref.
    apply number_date_chars. lia. }
  rewrite number_text. destruct regex; [done |].
  rewrite Hfifth. by rewrite !andb_false_r.
Qed.

Lemma number_scan :
  find_if (λ c, negb (is_number c)) (line_ st)
    (if Ascii.eqb (deref (line_ st) it) "-" then S it else it) end_
  = end_.
Proof.
  pose proof number_not_empty as Hne. rewrite number_first.
  apply find_if_none.
  { rewrite number_length. destruct (Ascii.eqb (deref text 0) "-"); lia. }
  intros i Hi. rewrite number_length in Hi.
  replace i with (it + (i - it))
    by (destruct (Ascii.eqb (deref text 0) "-"); lia).
  rewrite number_deref, Hdigits; [done |].
  destruct (Ascii.eqb (deref text 0) "-"); lia.
Qed.

Lemma determine_value_type_number :
  Parser.determine_value_type regex it end_ st = Ret (Parser.INT, st).
Proof.
  unfold Parser.determine_value_type. rewrite bind_gets.
  rewrite number_is_not_date, number_first.
  assert (Ascii.eqb (deref text 0) "034" = false) as ->.
  { apply orb_prop in Hfirst as [H | ->%Ascii.eqb_eq]; [| done].
    destruct (Ascii.eqb_spec (deref text 0) "034") as [Heq |]; [| done].
    by rewrite Heq in H. }
  rewrite Hfirst. unfold Parser.determine_number_type.
  rewrite number_scan. by rewrite Nat.eqb_refl.
Qed.

Lemma parse_number_integer (v : outcome Z) :
  stoll text = v →
  Parser.parse_number it end_ st
  = match v with
    | Ret z => Ret ((length (store st), end_),
                    set_store (store st ++ [value (d_int64 z)]) st)
    | Throw e => Throw e
    | Undefined => Undefined
    | Exhausted => Exhausted
    end.
Proof.
  intros Hv. unfold Parser.parse_number. rewrite bind_gets, number_scan.
  rewrite Nat.eqb_refl. cbn [negb andb]. unfold Parser.parse_int.
  rewrite bind_gets, number_text, Hv. unfold bind. by destruct v.
Qed.

Lemma parse_value_integer (budget : nat) (v : outcome Z) :
  stoll text = v →
  Parser.parse_value regex (S budget) it end_ st
  = match v with
    | Ret z => Ret ((length (store st), (end_, end_)),
                    set_store (store st ++ [value (d_int64 z)]) st)
    | Throw e => Throw e
    | Undefined => Undefined
    | Exhausted => Exhausted
    end.
Proof.
  intros Hv. cbn [Parser.parse_value].
  rewrite (bind_eq _ _ _ _ _ determine_value_type_number).
  unfold bind. rewrite (parse_number_integer v Hv). by destruct v.
Qed.

End numbers.

Lemma integer_text_numeric (z : Z) :
  let text := integer_text z in
  is_number (deref text 0) || Ascii.eqb (deref text 0) "-" = true
  ∧ (∀ i, (if Ascii.eqb (deref text 0) "-" then 1 else 0) ≤ i
          < String.length text →
          is_number (deref text i) = true)
  ∧ regex_match text date_pattern = false
  ∧ Ascii.eqb (deref text 4) "-" = false
  ∧ is_blank (deref text 0) = false
  ∧ occurs "010" text = false.
Proof.
  assert (∀ s, digits_only s = true → occurs "010" s = false) as Hnl.
  { induction s as [|c s IH]; [done |]. simpl.
    intros [Hc Hs]%andb_prop. rewrite (IH Hs), orb_false_r.
    destruct (Ascii.eqb_spec c "010") as [-> |]; done. }
  unfold integer_text. destruct (z <? 0)%Z.
  - pose proof (to_string_digits (Z.to_nat (- z))) as Hd.
    set (body := to_string (Z.to_nat (- z))) in *.
    cbn zeta. change (deref (String "-" body) 0) with "-"%char.
    split_and!; try done.
    + intros [|i] Hi; simpl in Hi; [lia |]. rewrite deref_shift.
      apply digits_deref; [done | lia].
    + change (deref (String "-" body) 4) with (deref body 3).
      by apply digits_deref_minus.
    + simpl. by apply Hnl.
  - pose proof (to_string_digits (Z.to_nat z)) as Hd.
    pose proof (to_string_not_empty (Z.to_nat z)) as Hne.
    set (body := to_string (Z.to_nat z)) in *. cbn zeta.
    assert (is_number (deref body 0) = true) as H0.
    { apply digits_deref; [done |]. destruct body; [done | simpl; lia]. }
    split_and!.
    + by rewrite H0.
    + intros i Hi. apply digits_deref; [done | lia].
    + by apply regex_match_digits.
    + by apply digits_deref_minus.
    + destruct (deref body 0) as [[] [] [] [] [] [] [] []]; done.
    + by apply Hnl.
Qed.

Lemma parse_stream_single_line_throws (regex : bool) (l : string)
    (e : exception) :
  l ≠ EmptyString → occurs "010" l = false →
  Parser.parse_line regex 0 0 (mk_state [table ∅] [] l 0 ∅) = Throw e →
  parse_stream regex l = Throw e.
Proof.
  intros Hne Hl Hline. unfold parse_stream, Parser.parse.
  rewrite (bind_eq _ _ (parser l) (entering_loop l) 0) by reflexivity.
  rewrite (bind_eq _ _ (entering_loop l) (entering_loop l)
             (length (input_ (entering_loop l)))) by reflexivity.
  cbn [entering_loop input_ parser set_store].
  rewrite (stream_lines_single l Hne Hl).
  cbn [length Parser.parse_loop]. unfold bind, getline, entering_loop.
  cbn [input_ store line_number_ tables_ line_ parser set_store].
  rewrite (stream_lines_single l Hne Hl). by rewrite Hline.
Qed.

(** X12: integers are read back as they are written. On the one-line
    document that assigns the decimal text of [z] to a key, the parser
    returns a root table in which the key is bound to the integer [z] when
    [z] is a signed 64-bit integer; otherwise it lets the
    [std::out_of_range] of [std::stoll] through, which is not a
    [parse_exception] and has no line number. *)
Theorem integer_round_trip (regex : bool) (key : string) (z : Z) :
  bare key = true →
  parse_stream regex (assignment key (integer_text z))
  = if ((z <? - 2 ^ 63) || (2 ^ 63 - 1 <? z))%Z
    then Throw (out_of_range "stoll")
    else Ret (mk_document 0 [table {[key := 1]}; value (d_int64 z)]).
Proof.
  intros Hkey.
  destruct (bare_inv key Hkey) as (_ & _ & _ & _ & _ & _ & _ & Hnl).
  destruct (integer_text_numeric z)
    as (Hfirst & Hdigits & Hregex & Hfifth & Hblank & Hline_end).
  assert (occurs "010" (assignment key (integer_text z)) = false) as Hl.
  { unfold assignment. rewrite occurs_append, Hnl. simpl. apply Hline_end. }
  pose proof (assignment_not_empty key (integer_text z) Hkey) as Hne.
  assert (Hvalue : ∀ budget st,
    line_ st = assignment key (integer_text z) →
    Parser.parse_value regex (S budget) (String.length key + 3)
      (String.length (line_ st)) st
    = match stoll (integer_text z) with
      | Ret v => Ret ((length (store st),
                       (String.length (line_ st), String.length (line_ st))),
                      set_store (store st ++ [value (d_int64 v)]) st)
      | Throw e => Throw e
      | Undefined => Undefined
      | Exhausted => Exhausted
      end).
  { intros budget st Hline.
    pose proof (parse_value_integer regex (integer_text z) Hfirst Hdigits
                  Hregex Hfifth
                  (key +:+ String " " (String "=" (String " " EmptyString)))
                  st) as H.
    rewrite length_append in H. apply H; [| done].
    by rewrite Hline, assignment_prefix. }
  rewrite stoll_integer_text in Hvalue.
  destruct ((z <? - 2 ^ 63) || (2 ^ 63 - 1 <? z))%Z.
  - apply parse_stream_single_line_throws; [done.. |].
    set (st := mk_state [table ∅] [] (assignment key (integer_text z)) 0 ∅).
    rewrite (parse_line_assignment regex 0 0 st key _ Hkey Hblank eq_refl);
      [| done].
    destruct (value_budget_pos (counted st)) as [budget ->].
    pose proof (Hvalue budget (counted st) eq_refl) as Hv.
    cbn [line_ counted st] in Hv. unfold bind at 1. by rewrite Hv.
  - rewrite (parse_stream_single_line regex _ 0
               (mk_state [table {[key := 1]}; value (d_int64 z)] []
                         (assignment key (integer_text z)) 1 ∅)); try done.
    by apply parse_line_assignment_value.
Qed.

Lemma integer_round_trip_witness :
  parse_stream true (assignment "port" (integer_text (-8080)))
  = Ret (mk_document 0 [table {["port" := 1]}; value (d_int64 (-8080))]).
Proof. by apply (integer_round_trip true "port" (-8080)). Defined.

(** ** Lines the parser cannot read *)

Lemma parse_loop_undefined (regex : bool) (root c : ptr) (st : state)
    (budget : nat) :
  input_ st ≠ [] → length (input_ st) ≤ budget →
  turn regex root c st = Undefined →
  Parser.parse_loop regex budget root c st = Undefined.
Proof.
  intros Hin Hb Hturn. destruct (input_ st) as [|l rest] eqn:Hinput; [done |].
  rewrite (turn_delivered _ _ _ _ _ _ Hinput) in Hturn.
  destruct budget as [|budget]; [simpl in Hb; lia |].
  cbn [Parser.parse_loop]. unfold bind at 1, getline at 1. rewrite Hinput.
  unfold bind at 1. fold (delivered l rest st). by rewrite Hturn.
Qed.

Lemma parse_stream_undefined (regex : bool) (stream : string) (c : ptr)
    (st : state) :
  turns regex 0 (0, entering_loop stream) (c, st) →
  input_ st ≠ [] → turn regex 0 c st = Undefined →
  parse_stream regex stream = Undefined.
Proof.
  intros Hturns Hin Hturn. unfold parse_stream, Parser.parse.
  rewrite (bind_eq _ _ (parser stream) (entering_loop stream) 0)
    by reflexivity.
  rewrite (bind_eq _ _ (entering_loop stream) (entering_loop stream)
             (length (input_ (entering_loop stream)))) by reflexivity.
  destruct (parse_loop_turns _ _ _ _ Hturns
              (length (input_ (entering_loop stream))) ltac:(done))
    as (budget' & Hb' & Heq).
  cbn [fst snd] in *. unfold bind at 1. rewrite Heq.
  by rewrite (parse_loop_undefined _ _ _ _ budget' Hin Hb' Hturn).
Qed.

Lemma parse_line_without_key (regex : bool) (root c : ptr) (st : state)
    (it : nat) :
  Parser.consume_whitespace (line_ st) 0 (String.length (line_ st)) = it →
  deref (line_ st) it = "="%char →
  Parser.parse_line regex root c st = Undefined.
Proof.
  intros Hit Heq. unfold Parser.parse_line.
  rewrite (bind_eq _ _ st (counted st) tt) by reflexivity.
  rewrite bind_gets. cbn [line_ counted]. rewrite Hit.
  assert (it < String.length (line_ st)) as Hlt.
  { apply deref_in_line. by rewrite Heq. }
  replace (it =? String.length (line_ st)) with false
    by (symmetry; apply Nat.eqb_neq; lia).
  rewrite Heq. cbn [Ascii.eqb Bool.eqb andb orb].
  unfold Parser.parse_key_value, Parser.parse_key.
  unfold bind at 1 2. rewrite bind_gets. cbn [line_ counted].
  assert (Parser.consume_whitespace (line_ st) it (String.length (line_ st))
          = it) as ->.
  { apply find_if_here. by rewrite Heq. }
  rewrite Heq. cbn [Ascii.eqb Bool.eqb andb].
  unfold Parser.parse_bare_key. rewrite bind_gets. cbn [line_ counted].
  unfold find. rewrite find_if_here by (by rewrite Heq).
  by rewrite Nat.eqb_refl.
Qed.

(** X13: an assignment without a key is not refused with an exception. On a
    line whose first character after white space is [=], the scan for the end
    of the key starts before the key's first character and leaves the line:
    the behaviour of the parser is undefined from there, wherever the line
    stands in the document. *)
Theorem assignment_without_key (regex : bool) (stream : string) (c : ptr)
    (st : state) (l : string) (rest : list string) :
  turns regex 0 (0, entering_loop stream) (c, st) →
  input_ st = l :: rest →
  deref l (Parser.consume_whitespace l 0 (String.length l)) = "="%char →
  turn regex 0 c st = Undefined ∧ parse_stream regex stream = Undefined.
Proof.
  intros Hturns Hin Heq.
  assert (turn regex 0 c st = Undefined) as Hturn.
  { rewrite (turn_delivered _ _ _ _ _ _ Hin).
    by eapply parse_line_without_key. }
  split; [done |].
  eapply parse_stream_undefined; [done | by rewrite Hin | done].
Qed.

Lemma assignment_without_key_witness :
  parse_stream true "a = 1
  = 2" = Undefined.
Proof.
  pose (stream := "a = 1
  = 2").
  destruct (turn true 0 0 (entering_loop stream)) as [[c st]| | |] eqn:Hturn;
    try (vm_compute in Hturn; discriminate).
  assert (input_ st = ["  = 2"]) as Hin.
  { vm_compute in Hturn. by injection Hturn as <- <-. }
  assert (turns true 0 (0, entering_loop stream) (c, st)) as Hturns.
  { eapply turns_step; [| exact Hturn | apply turns_refl].
    vm_compute. discriminate. }
  apply (assignment_without_key true stream c st "  = 2" [] Hturns Hin).
  reflexivity.
Defined.

(** X14: a header whose closing bracket is missing. The header of a
    table-array is refused with a parse error that carries the line. The
    header of a single table is not checked for it: the call throws for
    another reason or its behaviour is undefined, and when the name passes
    the checks and the walk over its parts comes to its end, the iterator is
    moved past the end of the line, and the behaviour is undefined. *)
Theorem unterminated_headers (it end_ : nat) (curr : ptr) (st : state) :
  find "]" (line_ st) it end_ = end_ →
  find "]" (line_ st) (S it) end_ = end_ →
  (∃ msg, Parser.parse_table_array it end_ curr st
          = Throw (parse_exception msg (Some (line_number_ st))))
  ∧ match Parser.parse_single_table it end_ curr st with
    | Ret _ | Exhausted => False
    | Throw _ | Undefined => True
    end
  ∧ (let name := substr (line_ st) it end_ in
     find "[" (line_ st) it end_ = end_ → it ≠ end_ →
     name ∉ tables_ st →
     find_if is_blank name 0 (String.length name) = String.length name →
     ∀ r, Parser.single_table_walk (end_ - it) it end_ curr
            (set_tables ({[name]} ∪ tables_ st) st) = Ret r →
          Parser.parse_single_table it end_ curr st = Undefined).
Proof.
  intros Hsingle Harray. split_and!.
  - unfold Parser.parse_table_array. rewrite bind_gets. cbv zeta.
    destruct (negb _); [by eexists |]. rewrite Harray, Nat.eqb_refl.
    by eexists.
  - pose proof (parse_single_table_total it end_ curr st) as Htotal.
    unfold total in Htotal.
    destruct (Parser.parse_single_table it end_ curr st) as [[t st']| | |]
      eqn:Hp; try done.
    unfold Parser.parse_single_table in Hp. rewrite bind_gets in Hp.
    rewrite Hsingle in Hp. cbv zeta in Hp.
    repeat (lazymatch type of Hp with
            | (if ?b then _ else _) _ = _ => destruct b; [done |]
            end).
    rewrite bind_gets in Hp.
    repeat (lazymatch type of Hp with
            | (if ?b then _ else _) _ = _ => destruct b; [done |]
            end).
    apply bind_inv in Hp as ([] & st1 & _ & Hp).
    apply bind_inv in Hp as (t1 & st2 & _ & Hp).
    by rewrite Nat.eqb_refl in Hp.
  - intros name Hopen Hne Hnew Hblank [t st'] Hwalk.
    unfold Parser.parse_single_table. rewrite bind_gets.
    rewrite Hopen, Hsingle, Nat.eqb_refl. cbn [negb]. cbv zeta.
    replace (it =? end_) with false by (symmetry; by apply Nat.eqb_neq).
    rewrite bind_gets. fold name.
    rewrite bool_decide_eq_false_2 by done.
    rewrite Hblank, Nat.eqb_refl. cbn [negb].
    rewrite (bind_eq _ _ st (set_tables ({[name]} ∪ tables_ st) st) tt)
      by reflexivity.
    by rewrite (bind_eq _ _ _ _ _ Hwalk).
Qed.

Lemma unterminated_headers_witness :
  (∃ msg, Parser.parse_table_array 1 3 0 (reading_line "[[a" [])
          = Throw (parse_exception msg (Some 1)))
  ∧ Parser.parse_single_table 1 2 0 (reading_line "[a" []) = Undefined.
Proof.
  split.
  - apply (unterminated_headers 1 3 0 (reading_line "[[a" []));
      vm_compute; reflexivity.
  - destruct (Parser.single_table_walk (2 - 1) 1 2 0
                (set_tables ({["a"]} ∪ ∅) (reading_line "[a" [])))
      as [r| | |] eqn:Hwalk; try (vm_compute in Hwalk; discriminate).
    eapply (proj2 (proj2 (unterminated_headers 1 2 0 (reading_line "[a" [])
                            eq_refl eq_refl)));
      [vm_compute; reflexivity | done | | vm_compute; reflexivity
      | exact Hwalk].
    vm_compute. set_solver.
Defined.

(** ** What an assignment adds *)

#[export] Instance longer_preorder : PreOrder longer.
Proof. split; unfold longer; [by intros st | intros ? ? ?; lia]. Qed.

Lemma keeps_longer_new (n : base) : keeps longer (new n).
Proof.
  intros st. apply returns_new. unfold longer. simpl. rewrite length_app. lia.
Qed.

Lemma keeps_longer_push_back (arr v : ptr) :
  keeps longer (writing (λ mem, Array.push_back mem arr v)).
Proof.
  intros st. apply returns_writing. intros mem (a & _ & ->)%push_back_inv.
  unfold longer. simpl. by rewrite length_insert.
Qed.

Lemma keeps_longer_same (R : relation state) {A} (c : M A) :
  keeps same_store c → keeps longer c.
Proof.
  apply keeps_weaken. intros st st' [Hs _]. unfold longer. by rewrite Hs.
Qed.

#[export] Hint Resolve keeps_longer_new keeps_longer_push_back : keeps.
#[export] Hint Extern 5 (keeps longer _) =>
  apply (keeps_longer_same same_store); solve [auto with keeps] : keeps.

Lemma value_family_longer (regex : bool) (budget : nat) :
  (∀ it end_, keeps longer (Parser.parse_value regex budget it end_))
  ∧ (∀ it end_, keeps longer (Parser.parse_array regex budget it end_))
  ∧ (∀ T it end_,
       keeps longer (Parser.parse_value_array regex budget T it end_))
  ∧ (∀ T arr it end_,
       keeps longer (Parser.parse_value_array_loop regex budget T arr it end_))
  ∧ (∀ it end_, keeps longer (Parser.parse_nested_array regex budget it end_))
  ∧ (∀ arr it end_,
       keeps longer (Parser.parse_nested_array_loop regex budget arr it end_)).
Proof.
  induction budget as [|budget (IHv & IHa & IHva & IHvl & IHna & IHnl)].
  { split_and!; intros; simpl; apply keeps_exhausted; apply _. }
  split_and!; intros; simpl;
    unfold Parser.determine_value_type, Parser.parse_string,
      Parser.string_literal, Parser.parse_date, Parser.parse_number,
      Parser.parse_int, Parser.parse_float, Parser.parse_bool,
      Parser.as_value;
    keeps_auto.
Qed.

Lemma makes_node_new {A} (n : base) (x : ptr → A) :
  makes_node (let* p := new n in ret (p, x p)).
Proof.
  intros st. apply returns_bind, returns_new, returns_ret. simpl.
  rewrite length_app. simpl. lia.
Qed.

Lemma makes_node_after {A B} (c : M A) (k : A → M (ptr * B)) :
  keeps same_store c → (∀ a, makes_node (k a)) → makes_node (bind c k).
Proof.
  intros Hc Hk st. apply returns_bind.
  eapply (returns_keeps same_store); [done |].
  intros a st1 [Hs _]. eapply returns_mono; [apply Hk |].
  intros r st' H. simpl in *. by rewrite <- Hs.
Qed.

Lemma makes_node_map {A B} (c : M (ptr * A)) (f : A → B) :
  makes_node c → makes_node (let* (v, a) := c in ret (v, f a)).
Proof.
  intros Hc st. apply returns_bind. eapply returns_mono; [apply Hc |].
  intros [v a] st' H. by apply returns_ret.
Qed.

Lemma makes_node_throw {A} (err : string) :
  makes_node (@Parser.throw_parse_exception (ptr * A) err).
Proof. intros st. apply returns_throw_parse_exception. Qed.

Lemma keeps_same_store_lift {A} (o : outcome A) :
  keeps same_store (λ st, let! a := o in Ret (a, st)).
Proof. apply keeps_lift. apply _. Qed.

Lemma parse_string_makes (it end_ : nat) :
  makes_node (Parser.parse_string it end_).
Proof.
  unfold Parser.parse_string. apply makes_node_after; [auto with keeps |].
  intros [s it']. apply (makes_node_new _ (λ _, it')).
Qed.

Lemma parse_number_makes (it end_ : nat) :
  makes_node (Parser.parse_number it end_).
Proof.
  unfold Parser.parse_number, Parser.parse_int, Parser.parse_float.
  apply makes_node_after; [apply keeps_gets; apply _ |]. intros line.
  cbv zeta.
  repeat case_match; try apply makes_node_throw;
    (apply makes_node_after; [apply keeps_gets; apply _ |]; intros ?);
    (apply makes_node_after; [apply keeps_same_store_lift |]; intros ?);
    apply (makes_node_new _ (λ _, _)).
Qed.

Lemma parse_bool_makes (it end_ : nat) :
  makes_node (Parser.parse_bool it end_).
Proof.
  unfold Parser.parse_bool.
  apply makes_node_after; [apply keeps_gets; apply _ |]. intros line.
  cbv zeta.
  repeat case_match; try apply makes_node_throw;
    apply (makes_node_new _ (λ _, _)).
Qed.

Lemma parse_date_makes (regex : bool) (it end_ : nat) :
  makes_node (Parser.parse_date regex it end_).
Proof.
  unfold Parser.parse_date.
  apply makes_node_after; [apply keeps_gets; apply _ |]. intros line.
  cbv zeta.
  apply makes_node_after; [apply keeps_same_store_lift |]. intros fs.
  repeat case_match; try (intros st; apply returns_undefined).
  apply (makes_node_new _ (λ _, _)).
Qed.

Lemma value_family_makes (regex : bool) (budget : nat) :
  (∀ it end_, makes_node (Parser.parse_value regex budget it end_))
  ∧ (∀ it end_, makes_node (Parser.parse_array regex budget it end_))
  ∧ (∀ T it end_,
       makes_node (Parser.parse_value_array regex budget T it end_))
  ∧ (∀ it end_, makes_node (Parser.parse_nested_array regex budget it end_)).
Proof.
  induction budget as [|budget (IHv & IHa & IHva & IHna)].
  { split_and!; intros; intros st; apply returns_exhausted. }
  destruct (value_family_longer regex budget)
    as (_ & _ & _ & Hvl & _ & Hnl).
  split_and!.
  - intros it end_. cbn [Parser.parse_value].
    apply makes_node_after; [auto with keeps |]. intros [].
    + apply (makes_node_map _ (λ it, (it, end_))), parse_string_makes.
    + apply (makes_node_map _ (λ it, (it, end_))), parse_date_makes.
    + apply (makes_node_map _ (λ it, (it, end_))), parse_number_makes.
    + apply (makes_node_map _ (λ it, (it, end_))), parse_number_makes.
    + apply (makes_node_map _ (λ it, (it, end_))), parse_bool_makes.
    + apply IHa.
  - intros it end_. cbn [Parser.parse_array]. cbv zeta.
    apply makes_node_after; [auto with keeps |]. intros [it1 end1].
    apply makes_node_after; [apply keeps_gets; apply _ |]. intros line.
    case_match; [apply (makes_node_new _ (λ _, _)) |].
    apply makes_node_after; [auto with keeps |].
    intros []; try apply IHva; try apply IHna. apply makes_node_throw.
  - intros T it end_ st. cbn [Parser.parse_value_array].
    apply returns_bind, returns_new, returns_bind.
    eapply returns_mono; [apply Hvl |]. intros [it1 end1] st' Hlen.
    apply returns_ret. unfold longer in Hlen. simpl in *.
    rewrite length_app in Hlen. simpl in Hlen. lia.
  - intros it end_ st. cbn [Parser.parse_nested_array].
    apply returns_bind, returns_new, returns_bind.
    eapply returns_mono; [apply Hnl |]. intros [it1 end1] st' Hlen.
    apply returns_ret. unfold longer in Hlen. simpl in *.
    rewrite length_app in Hlen. simpl in Hlen. lia.
Qed.

(** X15: what an assignment does to the tree. When [parse_key_value]
    returns, the key it has read was not in the current table, and the store
    is the one before with the nodes [parse_value] has made after it and
    with the key added to the current table, bound to the node [parse_value]
    returned, which is one of the new ones: no other key of the table and no
    other node that existed has changed. *)
Theorem assignment_adds_key (regex : bool) (it end_ : nat) (curr : ptr)
    (st st' : state) :
  Parser.parse_key_value regex it end_ curr st = Ret (tt, st') →
  ∃ key it' st1 v it2 end2 st2 m new_nodes,
    Parser.parse_key it end_ st = Ret ((key, it'), st1)
    ∧ Parser.parse_value regex (Parser.value_budget st1)
        (Parser.consume_whitespace (line_ st1) (S it') end_) end_ st1
      = Ret ((v, (it2, end2)), st2)
    ∧ store st2 = store st ++ new_nodes
    ∧ store st !! curr = Some (table m) ∧ m !! key = None
    ∧ length (store st) ≤ v < length (store st) + length new_nodes
    ∧ store st' = <[curr := table (<[key := v]> m)]> (store st ++ new_nodes)
    ∧ tables_ st' = tables_ st.
Proof.
  unfold Parser.parse_key_value. intros H.
  apply bind_inv in H as ([key it1] & st1 & Hkey & H).
  pose proof (parse_key_keeps it end_ st _ _ Hkey) as [Hs1 Ht1].
  apply bind_inv in H as (c & st2 & [-> Hc]%reading_inv & H).
  apply contains_inv in Hc as (m & Hm & ->).
  destruct (m !! key) eqn:Hk; [done |].
  apply bind_inv in H as (line & st2 & [= <- <-] & H).
  destruct (negb _); [done |]. cbv zeta in H.
  apply bind_inv in H as (budget & st2 & [= <- <-] & H).
  apply bind_inv in H as ([v [it2 end2]] & st2 & Hvalue & H).
  pose proof Hvalue as Hparsed.
  destruct (value_family regex (Parser.value_budget st1)) as (Hgrows & _).
  destruct (value_family_makes regex (Parser.value_budget st1))
    as (Hmakes & _).
  apply Hmakes in Hvalue as Hv. apply Hgrows in Hvalue as ([k Hk2] & Ht2 & _).
  simpl in Hv.
  apply bind_inv in H as ([] & st3 & (mem & Hins & ->)%writing_inv & H).
  apply insert_inv in Hins as (m2 & Hm2 & ->).
  apply bind_inv in H as (line2 & st4 & [= <- <-] & H).
  apply eol_or_comment_keeps in H as [Hs4 Ht4]. simpl in Hs4, Ht4.
  assert (m2 = m) as ->.
  { rewrite Hk2 in Hm2. rewrite lookup_app_l in Hm2; [congruence |].
    by eapply lookup_lt_Some. }
  exists key, it1, st1, v, it2, end2, st2, m, k. rewrite <- Hs1.
  split_and!; try done.
  - lia.
  - rewrite Hk2, length_app in Hv. lia.
  - by rewrite Hs4, Hk2.
  - by rewrite Ht4, Ht2.
Qed.

Lemma assignment_adds_key_witness :
  ∃ st' v,
    Parser.parse_key_value true 0 10 0 (reading_line "a = [1, 2]" [])
    = Ret (tt, st')
    ∧ store st' !! 0 = Some (table (<["a" := v]> ∅)).
Proof.
  destruct (Parser.parse_key_value true 0 10 0 (reading_line "a = [1, 2]" []))
    as [[[] st']|e| |] eqn:H; try (vm_compute in H; discriminate).
  destruct (assignment_adds_key _ _ _ _ _ _ H)
    as (key & it' & st1 & v & it2 & end2 & st2 & m & k
        & Hkey & _ & _ & Hm & _ & Hv & Hs & _).
  exists st', v. split; [done |].
  vm_compute in Hkey. injection Hkey as <- <- <-.
  injection Hm as <-. rewrite Hs.
  apply list_lookup_insert_eq. simpl. lia.
Defined.

(** ** Booleans and what may follow a value *)

Lemma find_if_stop (p : ascii → bool) (s : string) (it j end_ : nat) :
  it ≤ j ≤ end_ →
  (∀ i, it ≤ i < j → p (deref s i) = false) →
  j = end_ ∨ p (deref s j) = true →
  find_if p s it end_ = j.
Proof.
  intros Hj Hbefore Hat. unfold find_if.
  remember (end_ - it) as n eqn:Hn. revert it Hj Hbefore Hn.
  induction n as [|n IH]; intros it Hj Hbefore Hn; simpl; [lia |].
  destruct (decide (it = j)) as [-> | Hne].
  - destruct Hat as [-> | ->]; [lia | done].
  - rewrite Hbefore by lia. apply IH; [lia | | lia].
    intros i Hi. apply Hbefore. lia.
Qed.

Lemma eol_or_comment_ok (it end_ : nat) (st : state) :
  (it =? end_) || Ascii.eqb (deref (line_ st) it) "#" = true →
  Parser.eol_or_comment it end_ st = Ret (tt, st).
Proof.
  intros H. unfold Parser.eol_or_comment. rewrite bind_gets.
  apply orb_prop in H as [-> | ->]; [done | by rewrite andb_false_r].
Qed.

(** An assignment whose value is read by [parse_value] as a new node, up to
    a place after which the line holds white space and a comment at most. *)
Lemma parse_line_assignment_then (regex : bool) (key text : string)
    (n : base) (it2 : nat) :
  bare key = true → is_blank (deref text 0) = false →
  (∀ budget st,
     line_ st = assignment key text →
     Parser.parse_value regex (S budget) (String.length key + 3)
       (String.length (line_ st)) st
     = Ret ((length (store st), (it2, String.length (line_ st))),
            set_store (store st ++ [n]) st)) →
  (let line := assignment key text in
   let it3 := Parser.consume_whitespace line it2 (String.length line) in
   (it3 =? String.length line) || Ascii.eqb (deref line it3) "#" = true) →
  Parser.parse_line regex 0 0 (mk_state [table ∅] [] (assignment key text) 0 ∅)
  = Ret (0, mk_state [table {[key := 1]}; n] [] (assignment key text) 1 ∅).
Proof.
  intros Hkey Htext Hvalue Hrest.
  set (st := mk_state [table ∅] [] (assignment key text) 0 ∅).
  rewrite (parse_line_assignment regex 0 0 st key text Hkey Htext eq_refl);
    [| done].
  destruct (value_budget_pos (counted st)) as [budget ->].
  specialize (Hvalue budget (counted st) eq_refl).
  cbn [line_ counted st] in Hvalue.
  rewrite (bind_eq _ _ _ _ _ Hvalue). cbn beta iota.
  rewrite (bind_eq _ _ _
             (mk_state [table {[key := 1]}; n] [] (assignment key text) 1 ∅)
             tt); cycle 1.
  { unfold writing, Table.insert. simpl. by rewrite insert_empty. }
  rewrite bind_gets. cbn [line_].
  cbv zeta in Hrest.
  by rewrite (bind_eq _ _ _ _ _
                (eol_or_comment_ok _ _
                   (mk_state [table {[key := 1]}; n] []
                             (assignment key text) 1 ∅) Hrest)).
Qed.

Lemma boolean_text_plain (b : bool) (i : nat) :
  i < String.length (boolean_text b) →
  is_blank (deref (boolean_text b) i)
  || Ascii.eqb (deref (boolean_text b) i) "#" = false.
Proof.
  destruct b; simpl; intros Hi;
    do 5 (destruct i as [|i]; [done |]); lia.
Qed.

Lemma parse_value_boolean (regex : bool) (budget : nat) (pre trailer : string)
    (b : bool) (st : state) :
  blank_or_comment trailer = true →
  line_ st = pre +:+ (boolean_text b +:+ trailer) →
  Parser.parse_value regex (S budget) (String.length pre)
    (String.length (line_ st)) st
  = Ret ((length (store st),
          (String.length pre + String.length (boolean_text b),
           String.length (line_ st))),
         set_store (store st ++ [value (d_bool b)]) st).
Proof.
  intros Htrailer Hline.
  set (it := String.length pre). set (end_ := String.length (line_ st)).
  assert (end_ = it + (String.length (boolean_text b) + String.length trailer)) as Hlen.
  { subst end_ it. by rewrite Hline, !length_append. }
  assert (∀ i, deref (line_ st) (it + i) = deref (boolean_text b +:+ trailer) i)
    as Hderef.
  { intros i. subst it. rewrite Hline. apply deref_append_r. }
  assert (deref (line_ st) it = deref (boolean_text b) 0) as Hfirst.
  { replace it with (it + 0) by lia. rewrite Hderef.
    apply deref_append_l. destruct b; simpl; lia. }
  assert (trailer = EmptyString
          ∨ is_blank (deref trailer 0) || Ascii.eqb (deref trailer 0) "#"
            = true) as Hnext.
  { unfold blank_or_comment in Htrailer.
    destruct trailer as [|c r]; [by left |]. right.
    change (deref (String c r) 0) with c.
    destruct (is_blank c) eqn:Hc; [done |].
    unfold Parser.consume_whitespace in Htrailer.
    rewrite find_if_here in Htrailer
      by (change (deref (String c r) 0) with c; by rewrite Hc).
    done. }
  assert (find_if (λ c, is_blank c || Ascii.eqb c "#") (line_ st) it end_
          = it + String.length (boolean_text b)) as Hboolend.
  { apply find_if_stop; [lia | |].
    - intros i Hi. replace i with (it + (i - it)) by lia. rewrite Hderef.
      rewrite deref_append_l by lia. apply boolean_text_plain. lia.
    - destruct Hnext as [-> | Hnext]; [left; simpl in Hlen; lia | right].
      rewrite Hderef.
      replace (String.length (boolean_text b)) with (String.length (boolean_text b) + 0) by lia.
      by rewrite deref_append_r. }
  assert (substr (line_ st) it (it + String.length (boolean_text b)) = boolean_text b) as Hword.
  { subst it. rewrite Hline.
    replace (String.length pre) with (String.length pre + 0) at 1 by lia.
    rewrite substr_append_r. unfold substr. rewrite Nat.sub_0_r.
    apply substring_append. }
  cbn [Parser.parse_value].
  assert (Parser.determine_value_type regex it end_ st
          = Ret (Parser.BOOL, st)) as Htype.
  { unfold Parser.determine_value_type. rewrite bind_gets, Hfirst.
    assert (Parser.is_date regex (line_ st) it end_ = false) as ->.
    { unfold Parser.is_date.
      rewrite find_if_here
        by (rewrite Hfirst; by destruct b).
      rewrite substr_empty. by destruct regex. }
    by destruct b. }
  rewrite (bind_eq _ _ _ _ _ Htype). unfold Parser.parse_bool.
  unfold bind at 1. rewrite bind_gets, Hboolend, Hword.
  by destruct b.
Qed.

(** X16: booleans, and what may follow a value. On the one-line document
    that assigns [true] or [false] to a key, followed by nothing, by white
    space, or by a comment after optional white space, the parser returns a
    root table in which the key is bound to that boolean. *)
Theorem boolean_then_comment (regex : bool) (key trailer : string)
    (b : bool) :
  bare key = true → blank_or_comment trailer = true →
  occurs "010" trailer = false →
  parse_stream regex (assignment key (boolean_text b +:+ trailer))
  = Ret (mk_document 0 [table {[key := 1]}; value (d_bool b)]).
Proof.
  intros Hkey Htrailer Hnl.
  destruct (bare_inv key Hkey) as (_ & _ & _ & _ & _ & _ & _ & Hknl).
  set (text := boolean_text b +:+ trailer).
  assert (is_blank (deref text 0) = false) as Htext.
  { subst text. by destruct b. }
  rewrite (parse_stream_single_line regex _ 0
             (mk_state [table {[key := 1]}; value (d_bool b)] []
                       (assignment key text) 1 ∅)); try done.
  - by apply assignment_not_empty.
  - unfold assignment. rewrite occurs_append, Hknl. simpl. subst text.
    rewrite occurs_append, Hnl. by destruct b.
  - apply (parse_line_assignment_then regex key text _
             (String.length key + 3 + String.length (boolean_text b)));
      [done.. | |].
    + intros budget st Hline.
      pose proof (parse_value_boolean regex budget
                    (key +:+ String " " (String "=" (String " " EmptyString)))
                    trailer b st Htrailer) as H.
      rewrite length_append in H. apply H.
      by rewrite Hline, assignment_prefix.
    + cbv zeta. rewrite assignment_prefix. fold text.
      set (pre := key +:+ String " " (String "=" (String " " EmptyString))).
      assert (String.length pre = String.length key + 3) as Hpre
        by (subst pre; by rewrite length_append).
      rewrite <- Hpre. subst text. rewrite <- append_assoc.
      set (pre' := pre +:+ boolean_text b).
      replace (String.length pre + String.length (boolean_text b))
        with (String.length pre' + 0)
        by (subst pre'; rewrite length_append; lia).
      rewrite (length_append pre' trailer).
      unfold Parser.consume_whitespace. rewrite find_if_append_r.
      rewrite deref_append_r. unfold blank_or_comment in Htrailer.
      unfold Parser.consume_whitespace in Htrailer.
      apply orb_prop in Htrailer as [Hend | ->]; [| by rewrite orb_true_r].
      apply Nat.eqb_eq in Hend. rewrite Hend. by rewrite Nat.eqb_refl.
Qed.

Lemma boolean_then_comment_witness :
  parse_stream true (assignment "debug" (boolean_text false +:+ "  # off"))
  = Ret (mk_document 0 [table {["debug" := 1]}; value (d_bool false)]).
Proof. by apply boolean_then_comment. Defined.

(** ** Dates *)

Local Abbreviation digit_value c := (Z.of_nat (nat_of_ascii c - 48)).

Lemma is_number_value (c : ascii) :
  is_number c = true → (0 ≤ digit_value c ≤ 9)%Z.
Proof.
  unfold is_number. intros [H1 H2]%andb_prop.
  apply Nat.leb_le in H1, H2.
  change (nat_of_ascii "0") with 48 in H1.
  change (nat_of_ascii "9") with 57 in H2. lia.
Qed.

Lemma is_number_neq (c x : ascii) :
  is_number c = true → is_number x = false → Ascii.eqb c x = false.
Proof.
  intros Hc Hx. destruct (Ascii.eqb_spec c x) as [-> |]; [| done].
  by rewrite Hc in Hx.
Qed.

Lemma number_date_char (c : ascii) :
  is_number c = true → Parser.not_date_char c = false.
Proof. intros H. unfold Parser.not_date_char. by rewrite H. Qed.

Lemma two_digits_inv (n : nat) :
  n < 100 →
  ∃ c1 c2, two_digits n = String c1 (String c2 EmptyString)
           ∧ is_number c1 = true ∧ is_number c2 = true
           ∧ (10 * digit_value c1 + digit_value c2 = Z.of_nat n)%Z.
Proof.
  intros Hn. exists (digit_char (n / 10)), (digit_char (n mod 10)).
  assert (n / 10 < 10) as H1 by (apply Nat.Div0.div_lt_upper_bound; lia).
  assert (n mod 10 < 10) as H2 by (apply Nat.mod_upper_bound; lia).
  destruct (digit_char_number _ H1) as [Hn1 Hv1].
  destruct (digit_char_number _ H2) as [Hn2 Hv2].
  split_and!; [done.. |]. rewrite Hv1, Hv2.
  pose proof (Nat.div_mod_eq n 10). lia.
Qed.

Section date_chars.

Variables (y1 y2 y3 y4 m1 m2 d1 d2 h1 h2 n1 n2 s1 s2 : ascii).

Hypothesis Hy1 : is_number y1 = true.
Hypothesis Hy2 : is_number y2 = true.
Hypothesis Hy3 : is_number y3 = true.
Hypothesis Hy4 : is_number y4 = true.
Hypothesis Hm1 : is_number m1 = true.
Hypothesis Hm2 : is_number m2 = true.
Hypothesis Hd1 : is_number d1 = true.
Hypothesis Hd2 : is_number d2 = true.
Hypothesis Hh1 : is_number h1 = true.
Hypothesis Hh2 : is_number h2 = true.
Hypothesis Hn1 : is_number n1 = true.
Hypothesis Hn2 : is_number n2 = true.
Hypothesis Hs1 : is_number s1 = true.
Hypothesis Hs2 : is_number s2 = true.

Local Abbreviation two a b := (10 * digit_value a + digit_value b)%Z.

Local Abbreviation text :=
  (String y1 (String y2 (String y3 (String y4 (String "-"
   (String m1 (String m2 (String "-"
   (String d1 (String d2 (String "T"
   (String h1 (String h2 (String ":"
   (String n1 (String n2 (String ":"
   (String s1 (String s2 (String "Z" EmptyString))))))))))))))))))))%char.

Local Abbreviation fields :=
  [(100 * two y1 y2 + two y3 y4)%Z; two m1 m2; two d1 d2; two h1 h2;
   two n1 n2; two s1 s2].

Lemma date_chars_find : find_if Parser.not_date_char text 0 20 = 20.
Proof.
  apply find_if_stop; [lia | | by left].
  intros i Hi.
  do 20 (destruct i as [|i];
         [unfold deref; cbn [String.get];
          first [by apply number_date_char | done] |]).
  lia.
Qed.

Lemma date_chars_regex : regex_match text date_pattern = true.
Proof.
  unfold date_pattern. cbn [regex_match].
  by rewrite Hy1, Hy2, Hy3, Hy4, Hm1, Hm2, Hd1, Hd2, Hh1, Hh2, Hn1, Hn2,
    Hs1, Hs2.
Qed.

Lemma scan_int_two (a b x : ascii) (r : string) :
  is_number a = true → is_number b = true → is_number x = false →
  scan_int (String a (String b (String x r))) = Some (two a b, String x r).
Proof.
  intros Ha Hb Hx. rewrite scan_int_digit by done. cbn [scan_digits].
  rewrite Ha, Hb, Hx. cbn [default]. reflexivity.
Qed.

Lemma scan_int_four (a b c d x : ascii) (r : string) :
  is_number a = true → is_number b = true → is_number c = true →
  is_number d = true → is_number x = false →
  scan_int (String a (String b (String c (String d (String x r)))))
  = Some ((100 * two a b + two c d)%Z, String x r).
Proof.
  intros Ha Hb Hc Hd Hx. rewrite scan_int_digit by done. cbn [scan_digits].
  rewrite Ha, Hb, Hc, Hd, Hx. cbn [default]. unfold id. do 2 f_equal. lia.
Qed.

Lemma stoi_two (a b : ascii) :
  is_number a = true → is_number b = true →
  stoi (String a (String b EmptyString)) = Ret (two a b).
Proof.
  intros Ha Hb. unfold stoi. rewrite scan_int_digit by done.
  cbn [scan_digits]. rewrite Ha, Hb. cbn [default]. unfold id.
  pose proof (is_number_value a Ha). pose proof (is_number_value b Hb).
  replace (10 * (10 * 0 + digit_value a) + digit_value b)%Z
    with (two a b) by lia.
  replace ((two a b <? - 2 ^ 31) || (2 ^ 31 - 1 <? two a b))%Z with false;
    [done |].
  symmetry. apply orb_false_intro; apply Z.ltb_ge; lia.
Qed.

Lemma stoi_four (a b c d : ascii) :
  is_number a = true → is_number b = true → is_number c = true →
  is_number d = true →
  stoi (String a (String b (String c (String d EmptyString))))
  = Ret (100 * two a b + two c d)%Z.
Proof.
  intros Ha Hb Hc Hd. unfold stoi. rewrite scan_int_digit by done.
  cbn [scan_digits]. rewrite Ha, Hb, Hc, Hd. cbn [default]. unfold id.
  pose proof (is_number_value a Ha). pose proof (is_number_value b Hb).
  pose proof (is_number_value c Hc). pose proof (is_number_value d Hd).
  replace (10 * (10 * (10 * (10 * 0 + digit_value a) + digit_value b)
                 + digit_value c) + digit_value d)%Z
    with (100 * two a b + two c d)%Z by lia.
  replace ((100 * two a b + two c d <? - 2 ^ 31)
           || (2 ^ 31 - 1 <? 100 * two a b + two c d))%Z with false;
    [done |].
  symmetry. apply orb_false_intro; apply Z.ltb_ge; lia.
Qed.

Lemma date_chars_scan : sscanf_date text = fields.
Proof.
  unfold sscanf_date. cbn [sscanf_ints].
  rewrite scan_int_four by done. cbn [sscanf_ints].
  rewrite Ascii.eqb_refl.
  do 4 (rewrite scan_int_two by done; cbn [sscanf_ints];
        rewrite Ascii.eqb_refl).
  by rewrite scan_int_two by done.
Qed.

Lemma date_chars_fields (regex : bool) :
  Parser.date_fields regex text = Ret fields.
Proof.
  unfold Parser.date_fields. destruct regex.
  - rewrite date_chars_regex. unfold substr. cbn [Nat.sub String.substring].
    rewrite stoi_four by done. cbn beta iota.
    by rewrite !stoi_two by done.
  - by rewrite date_chars_scan.
Qed.

Lemma date_chars_end (pre : string) :
  find_if Parser.not_date_char (pre +:+ text) (String.length pre)
    (String.length (pre +:+ text))
  = String.length (pre +:+ text).
Proof.
  rewrite length_append.
  pose proof (find_if_append_r Parser.not_date_char pre text 0 20) as H.
  rewrite Nat.add_0_r in H. cbn [String.length].
  by rewrite H, date_chars_find.
Qed.

Lemma date_chars_substr (pre : string) :
  substr (pre +:+ text) (String.length pre) (String.length (pre +:+ text))
  = text.
Proof.
  rewrite length_append.
  pose proof (substr_append_r pre text 0 20) as H.
  rewrite Nat.add_0_r in H. cbn [String.length].
  by rewrite H.
Qed.

Lemma date_chars_is_date (regex : bool) (pre : string) :
  Parser.is_date regex (pre +:+ text) (String.length pre)
    (String.length (pre +:+ text)) = true.
Proof.
  unfold Parser.is_date. rewrite date_chars_end, date_chars_substr.
  destruct regex; [apply date_chars_regex |].
  by rewrite date_chars_scan.
Qed.

Lemma date_chars_parse_date (regex : bool) (pre : string) (st : state) :
  line_ st = pre +:+ text →
  Parser.parse_date regex (String.length pre) (String.length (line_ st)) st
  = Ret ((length (store st), String.length (line_ st)),
         set_store
           (store st
            ++ [value (d_tm (mk_tm (100 * two y1 y2 + two y3 y4 - 1900)
                                   (two m1 m2 - 1) (two d1 d2) (two h1 h2)
                                   (two n1 n2) (two s1 s2)))]) st).
Proof.
  intros Hline. unfold Parser.parse_date. rewrite bind_gets, Hline.
  rewrite date_chars_end, date_chars_substr.
  unfold bind at 1. by rewrite date_chars_fields.
Qed.

Lemma date_chars_parse_value (regex : bool) (budget : nat) (pre : string)
    (st : state) :
  line_ st = pre +:+ text →
  Parser.parse_value regex (S budget) (String.length pre)
    (String.length (line_ st)) st
  = Ret ((length (store st),
          (String.length (line_ st), String.length (line_ st))),
         set_store
           (store st
            ++ [value (d_tm (mk_tm (100 * two y1 y2 + two y3 y4 - 1900)
                                   (two m1 m2 - 1) (two d1 d2) (two h1 h2)
                                   (two n1 n2) (two s1 s2)))]) st).
Proof.
  intros Hline. cbn [Parser.parse_value].
  assert (Parser.determine_value_type regex (String.length pre)
            (String.length (line_ st)) st = Ret (Parser.DATE, st)) as Htype.
  { unfold Parser.determine_value_type. rewrite bind_gets, Hline.
    rewrite deref_after. change (deref text 0) with y1.
    rewrite (is_number_neq y1 "034" Hy1) by done.
    by rewrite date_chars_is_date. }
  rewrite (bind_eq _ _ _ _ _ Htype). cbn beta iota.
  by rewrite (bind_eq _ _ _ _ _ (date_chars_parse_date regex pre st Hline)).
Qed.

Lemma date_chars_no_newline : occurs "010" text = false.
Proof.
  cbn [occurs].
  by rewrite (is_number_neq y1 "010" Hy1), (is_number_neq y2 "010" Hy2),
    (is_number_neq y3 "010" Hy3), (is_number_neq y4 "010" Hy4),
    (is_number_neq m1 "010" Hm1), (is_number_neq m2 "010" Hm2),
    (is_number_neq d1 "010" Hd1), (is_number_neq d2 "010" Hd2),
    (is_number_neq h1 "010" Hh1), (is_number_neq h2 "010" Hh2),
    (is_number_neq n1 "010" Hn1), (is_number_neq n2 "010" Hn2),
    (is_number_neq s1 "010" Hs1), (is_number_neq s2 "010" Hs2).
Qed.

End date_chars.

(** X17: dates are read field by field and no field is checked against the
    calendar. On the one-line document that assigns
    [YYYY-MM-DDThh:mm:ssZ] to a key, whatever the digits are (month 13 or
    second 99 as well), the parser returns a root table in which the key is
    bound to a date whose year is counted from 1900, whose month is counted
    from 0, and whose other fields are the numbers written; the build with
    [std::regex] and the one with [std::sscanf] agree. *)
Theorem dates_unchecked (regex : bool) (key : string)
    (year month day hour min sec : nat) :
  bare key = true →
  year < 100 * 100 → month < 100 → day < 100 →
  hour < 100 → min < 100 → sec < 100 →
  parse_stream regex (assignment key (date_text year month day hour min sec))
  = Ret (mk_document 0
           [table {[key := 1]};
            value (d_tm (mk_tm (Z.of_nat year - 1900) (Z.of_nat month - 1)
                               (Z.of_nat day) (Z.of_nat hour)
                               (Z.of_nat min) (Z.of_nat sec)))]).
Proof.
  intros Hkey Hyear Hmonth Hday Hhour Hmin Hsec.
  destruct (bare_inv key Hkey) as (_ & _ & _ & _ & _ & _ & _ & Hknl).
  assert (year / 100 < 100) as Hhi
    by (apply Nat.Div0.div_lt_upper_bound; lia).
  assert (year mod 100 < 100) as Hlo by (apply Nat.mod_upper_bound; lia).
  unfold date_text.
  destruct (two_digits_inv _ Hhi) as (y1 & y2 & -> & Hy1 & Hy2 & Vy12).
  destruct (two_digits_inv _ Hlo) as (y3 & y4 & -> & Hy3 & Hy4 & Vy34).
  destruct (two_digits_inv _ Hmonth) as (m1 & m2 & -> & Hm1 & Hm2 & <-).
  destruct (two_digits_inv _ Hday) as (d1 & d2 & -> & Hd1 & Hd2 & <-).
  destruct (two_digits_inv _ Hhour) as (h1 & h2 & -> & Hh1 & Hh2 & <-).
  destruct (two_digits_inv _ Hmin) as (n1 & n2 & -> & Hn1 & Hn2 & <-).
  destruct (two_digits_inv _ Hsec) as (s1 & s2 & -> & Hs1 & Hs2 & <-).
  replace (Z.of_nat year)
    with (100 * (10 * digit_value y1 + digit_value y2)
          + (10 * digit_value y3 + digit_value y4))%Z
    by (pose proof (Nat.div_mod_eq year 100); lia).
  cbn [String.append].
  match goal with
  | |- parse_stream _ (assignment _ ?t) = Ret (mk_document _ [_; ?n]) =>
      set (text := t); set (node := n)
  end.
  assert (is_blank (deref text 0) = false) as Hblank.
  { change (deref text 0) with y1. unfold is_blank.
    by rewrite !(is_number_neq y1 _ Hy1). }
  rewrite (parse_stream_single_line regex _ 0
             (mk_state [table {[key := 1]}; node] []
                       (assignment key text) 1 ∅)); try done.
  - by apply assignment_not_empty.
  - unfold assignment. rewrite occurs_append, Hknl. simpl.
    by apply date_chars_no_newline.
  - apply parse_line_assignment_value; [done.. |].
    intros budget st Hline.
    pose proof (date_chars_parse_value y1 y2 y3 y4 m1 m2 d1 d2 h1 h2 n1 n2
                  s1 s2 Hy1 Hy2 Hy3 Hy4 Hm1 Hm2 Hd1 Hd2 Hh1 Hh2 Hn1 Hn2
                  Hs1 Hs2 regex budget
                  (key +:+ String " " (String "=" (String " " EmptyString)))
                  st) as H.
    rewrite length_append in H. apply H.
    by rewrite Hline, assignment_prefix.
Qed.

Lemma dates_unchecked_witness :
  parse_stream false (assignment "when" (date_text 1979 13 27 7 32 99))
  = Ret (mk_document 0
           [table {["when" := 1]};
            value (d_tm (mk_tm 79 12 27 7 32 99))]).
Proof.
  apply (dates_unchecked false "when" 1979 13 27 7 32 99); [done | lia..].
Defined.

(** ** Keys in quotes *)

Section quoted_keys.

Context (k text : string) (Htext : is_blank (deref text 0) = false).

Local Abbreviation line := (assignment (quoted k) text).
Local Abbreviation n := (String.length (quoted k)).

Lemma quoted_length : n = String.length (escape k) + 2.
Proof. unfold quoted. cbn [String.length]. rewrite length_append. simpl. lia. Qed.

Lemma quoted_line_length : String.length line = n + 3 + String.length text.
Proof. unfold assignment. rewrite length_append. simpl. lia. Qed.

Lemma quoted_line_after (i : nat) :
  deref line (n + i) = deref (String " " (String "=" (String " " text))) i.
Proof. apply deref_append_r. Qed.

Lemma quoted_line_first : deref line 0 = "034"%char.
Proof. reflexivity. Qed.

Lemma quoted_key_end :
  Parser.consume_whitespace line n (String.length line) = S n.
Proof using Type.
  unfold Parser.consume_whitespace. rewrite quoted_line_length.
  rewrite find_if_skip; [| lia |].
  - apply find_if_here. replace (S n) with (n + 1) by lia.
    by rewrite quoted_line_after.
  - pose proof (quoted_line_after 0) as H. rewrite Nat.add_0_r in H.
    cbn beta. by rewrite H.
Qed.

Lemma quoted_value_start :
  Parser.consume_whitespace line (S (S n)) (String.length line) = n + 3.
Proof using Htext.
  unfold Parser.consume_whitespace. rewrite quoted_line_length.
  rewrite find_if_skip; [| lia |].
  - replace (S (S (S n))) with (n + 3) by lia.
    apply find_if_here. rewrite quoted_line_after.
    change (deref (String " " (String "=" (String " " text))) 3)
      with (deref text 0).
    by rewrite Htext.
  - replace (S (S n)) with (n + 2) by lia. by rewrite quoted_line_after.
Qed.

Lemma parse_key_quoted (st : state) :
  line_ st = line →
  Parser.parse_key 0 (String.length line) st = Ret ((k, S n), st).
Proof using Type.
  intros Hline. unfold Parser.parse_key. rewrite bind_gets, Hline.
  assert (Parser.consume_whitespace line 0 (String.length line) = 0) as ->
    by (by apply find_if_here).
  rewrite quoted_line_first. cbn [Ascii.eqb Bool.eqb andb].
  unfold Parser.parse_quoted_key, Parser.string_literal.
  pose proof (string_literal_loop_escape k (String "034" EmptyString)
                (String " " (String "=" (String " " text))) EmptyString st
                (String.length line - 1)) as H.
  rewrite Hline in H. cbn [String.length] in H.
  rewrite H; cycle 1.
  { unfold assignment, quoted. rewrite append_cons. f_equal.
    by rewrite append_snoc. }
  { rewrite quoted_line_length, quoted_length. lia. }
  do 3 f_equal.
  replace (1 + String.length (escape k) + 1) with n
    by (rewrite quoted_length; lia).
  apply quoted_key_end.
Qed.

(** What [parse_line] does on an assignment to a key in quotes: the value is
    parsed where its text begins and inserted under the key. *)
Lemma parse_line_quoted_key (regex : bool) (root curr : ptr) (st : state) :
  line_ st = line →
  Table.contains (store st) curr k = Ret false →
  Parser.parse_line regex root curr st
  = (let* (v, (it, end_)) :=
       Parser.parse_value regex (Parser.value_budget (counted st))
         (n + 3) (String.length line) in
     let* _ := writing (λ mem, Table.insert mem curr k v) in
     let* line := gets line_ in
     let it := Parser.consume_whitespace line it end_ in
     let* _ := Parser.eol_or_comment it end_ in
     ret curr) (counted st).
Proof using Htext.
  intros Hline Hc.
  assert (Hlen := quoted_line_length).
  unfold Parser.parse_line.
  rewrite (bind_eq _ _ st (counted st) tt) by reflexivity.
  rewrite bind_gets. cbn [line_ counted]. rewrite Hline.
  assert (Parser.consume_whitespace line 0 (String.length line) = 0) as ->
    by (by apply find_if_here).
  replace (0 =? String.length line) with false
    by (symmetry; apply Nat.eqb_neq; lia).
  rewrite quoted_line_first. cbn [Ascii.eqb Bool.eqb andb orb].
  unfold Parser.parse_key_value.
  assert (Hline' : line_ (counted st) = line) by done.
  set (st0 := counted st) in *.
  unfold bind at 1.
  rewrite (bind_eq _ _ st0 st0 (k, S n) (parse_key_quoted st0 Hline')).
  rewrite (bind_eq _ _ st0 st0 false (reading_eq _ st0 false Hc)).
  rewrite bind_gets, Hline'.
  replace (deref line (S n)) with "="%char
    by (replace (S n) with (n + 1) by lia; by rewrite quoted_line_after).
  cbn [Ascii.eqb Bool.eqb negb andb].
  rewrite quoted_value_start.
  rewrite bind_gets. unfold bind.
  destruct (Parser.parse_value _ _ _ _ _) as [[[v [it end_]] st1]| | |];
    try done.
  by destruct (writing _ st1) as [[[] st2]| | |].
Qed.

End quoted_keys.

(** X19: every string can be a key when it is written in quotes. On the
    one-line document that assigns the literal for [s] to the literal for
    [k], the parser returns a root table in which the key [k] (the empty
    string or a string with white space, [=], [#] or a bracket as well) is
    bound to the string [s]. *)
Theorem quoted_key_round_trip (regex : bool) (k s : string) :
  parse_stream regex (assignment (quoted k) (quoted s))
  = Ret (mk_document 0 [table {[k := 1]}; value (d_string s)]).
Proof.
  assert (is_blank (deref (quoted s) 0) = false) as Htext by done.
  rewrite (parse_stream_single_line regex _ 0
             (mk_state [table {[k := 1]}; value (d_string s)] []
                       (assignment (quoted k) (quoted s)) 1 ∅)); try done.
  - unfold assignment, quoted.
    repeat first [rewrite occurs_append | rewrite escape_no_line_end
                 | progress cbn [occurs]].
    done.
  - set (st := mk_state [table ∅] [] (assignment (quoted k) (quoted s)) 0 ∅).
    rewrite (parse_line_quoted_key k (quoted s) Htext regex 0 0 st eq_refl);
      [| done].
    destruct (value_budget_pos (counted st)) as [budget ->].
    pose proof (parse_value_string regex budget
                  (quoted k +:+ String " " (String "=" (String " " EmptyString)))
                  s (counted st)) as Hvalue.
    rewrite length_append in Hvalue. cbn [line_ counted st] in Hvalue.
    rewrite (bind_eq _ _ _ _ _ (Hvalue (assignment_prefix _ _))).
    cbn beta iota.
    rewrite (bind_eq _ _ _
               (mk_state [table {[k := 1]}; value (d_string s)] []
                         (assignment (quoted k) (quoted s)) 1 ∅)
               tt); cycle 1.
    { unfold writing, Table.insert. simpl. by rewrite insert_empty. }
    rewrite bind_gets. cbn [line_].
    unfold Parser.consume_whitespace. rewrite find_if_end.
    by rewrite (bind_eq _ _ _ _ _ (eol_or_comment_end _ _)).
Qed.

(** ** What follows the header of a table-array *)

Lemma find_if_ext (p : ascii → bool) (s s' : string) (it end_ : nat) :
  (∀ i, it ≤ i < end_ → deref s i = deref s' i) →
  find_if p s it end_ = find_if p s' it end_.
Proof.
  unfold find_if. remember (end_ - it) as n eqn:Hn. revert it Hn.
  induction n as [|n IH]; intros it Hn H; simpl; [done |].
  rewrite (H it) by lia. destruct (p (deref s' it)); [done |].
  apply IH; [lia |]. intros i Hi. apply H. lia.
Qed.

Lemma find_if_append_l (p : ascii → bool) (a b : string) (it end_ : nat) :
  end_ ≤ String.length a →
  find_if p (a +:+ b) it end_ = find_if p a it end_.
Proof.
  intros H. apply find_if_ext. intros i Hi. apply deref_append_l. lia.
Qed.

Lemma substr_append_l (a b : string) (i j : nat) :
  j ≤ String.length a → substr (a +:+ b) i j = substr a i j.
Proof.
  unfold substr. revert i j.
  induction a as [|x a IH]; intros i j Hj; simpl in Hj.
  { assert (j = 0) as -> by lia. simpl. rewrite substring_nothing.
    by destruct i. }
  rewrite append_cons. destruct i as [|i].
  - rewrite Nat.sub_0_r. destruct j as [|j]; [done |].
    cbn [String.substring]. f_equal.
    specialize (IH 0 j ltac:(lia)). by rewrite !Nat.sub_0_r in IH.
  - destruct j as [|j]; [by rewrite !substring_nothing |].
    change (S j - S i) with (j - i). cbn [String.substring].
    apply IH. lia.
Qed.

(** The walk over the parts of the name reads the line up to [kg_end]
    only. *)
Lemma table_array_walk_line (a b : string) (kg_end : nat) :
  kg_end ≤ String.length a →
  ∀ budget it curr st,
    line_ st = a →
    Parser.table_array_walk budget it kg_end curr (set_line (a +:+ b) st)
    = relined (a +:+ b) (Parser.table_array_walk budget it kg_end curr st).
Proof.
  intros Hk. induction budget as [|budget IH]; intros it curr st Hline.
  { cbn [Parser.table_array_walk]. by destruct (it =? kg_end). }
  cbn [Parser.table_array_walk]. destruct (it =? kg_end); [done |].
  rewrite !bind_gets. cbn [line_ set_line]. rewrite Hline.
  unfold find. rewrite find_if_append_l by done.
  pose proof (find_if_n_bounds (Ascii.eqb ".") a it (kg_end - it)) as Hb.
  fold (find_if (Ascii.eqb ".") a it kg_end) in Hb.
  set (dot := find_if (Ascii.eqb ".") a it kg_end) in *.
  destruct (decide (it ≤ kg_end)) as [Hle | Hgt]; cycle 1.
  { assert (dot = it) as -> by lia. by rewrite !substr_empty. }
  rewrite substr_append_l by lia.
  destruct (String.eqb _ _); [done |].
  set (it' := if negb (dot =? kg_end) then S dot else dot).
  set (part := substr a it dot).
  unfold bind, reading, writing, new, Parser.throw_parse_exception, throw.
  cbn [store set_line].
  destruct (Table.contains (store st) curr part) as [[] | | |]; cbn; try done.
  - destruct (Table.get (store st) curr part) as [p | | |]; cbn; try done.
    destruct (load (store st) p) as [nd | | |]; cbn; try done.
    destruct (it' =? kg_end).
    + destruct (negb (is_table_array nd)); [done |].
      cbn.
      destruct (TableArray.push_back _ p _) as [mem | | |]; cbn; try done.
      destruct (TableArray.back mem p) as [t | | |]; cbn; try done.
      apply (IH it' t (set_store mem st) Hline).
    + destruct (is_table nd); [apply (IH it' p st Hline) |].
      destruct (is_table_array nd); [| done]. cbn.
      destruct (TableArray.back (store st) p) as [t | | |]; cbn; try done.
      apply (IH it' t st Hline).
  - destruct (it' =? kg_end); cbn.
    + destruct (Table.insert _ curr part _) as [mem | | |]; cbn; try done.
      destruct (Table.get mem curr part) as [arr | | |]; cbn; try done.
      destruct (TableArray.push_back _ arr _) as [mem2 | | |]; cbn; try done.
      destruct (TableArray.back mem2 arr) as [t | | |]; cbn; try done.
      apply (IH it' t (set_store mem2 st) Hline).
    + destruct (Table.insert _ curr part _) as [mem | | |]; cbn; try done.
      destruct (Table.get mem curr part) as [t | | |]; cbn; try done.
      apply (IH it' t (set_store mem st) Hline).
Qed.

Lemma find_absent (x : ascii) (s : string) :
  occurs x s = false → find x s 0 (String.length s) = String.length s.
Proof.
  intros H. apply find_if_none; [lia |]. intros i Hi.
  rewrite Ascii.eqb_sym. apply occurs_deref; [done | lia].
Qed.

Lemma find_present (x : ascii) (s : string) :
  occurs x s = true → find x s 0 (String.length s) < String.length s.
Proof.
  intros H.
  pose proof (find_if_n_bounds (Ascii.eqb x) s 0 (String.length s - 0)) as Hb.
  fold (find_if (Ascii.eqb x) s 0 (String.length s)) in Hb.
  fold (find x s 0 (String.length s)) in Hb.
  destruct (decide (find x s 0 (String.length s) = String.length s))
    as [Heq |]; [| lia].
  assert (occurs x (substr s 0 (String.length s)) = false) as Hno.
  { apply occurs_substr. intros i Hi. rewrite Ascii.eqb_sym.
    apply (find_if_before (Ascii.eqb x) s 0 (String.length s)).
    fold (find x s 0 (String.length s)). lia. }
  unfold substr in Hno. rewrite Nat.sub_0_r, substring_all in Hno.
  congruence.
Qed.

Lemma find_skip_first (x c : ascii) (s : string) (e : nat) :
  Ascii.eqb x c = false → find x (String c s) 0 (S e) = S (find x s 0 e).
Proof.
  intros H. unfold find.
  rewrite find_if_skip; [apply find_if_shift | lia | done].
Qed.

Section array_header_rest.

Context (name rest : string) (Hname : plain name).

Local Abbreviation n := (String.length name).
Local Abbreviation line := (array_header name +:+ rest).

Lemma header_rest_shape :
  line = String "[" (String "[" (name +:+ String "]" (String "]" rest))).
Proof using Type.
  unfold array_header. rewrite !append_cons. by rewrite append_assoc.
Qed.

Lemma header_rest_length : String.length line = n + 4 + String.length rest.
Proof using Type.
  rewrite length_append. unfold array_header. cbn [String.length].
  rewrite length_append. simpl. lia.
Qed.

Lemma header_rest_bracket :
  find "[" line 2 (String.length line)
  = n + 4 + find "[" rest 0 (String.length rest).
Proof using Hname.
  rewrite header_rest_length, header_rest_shape.
  replace (n + 4 + String.length rest)
    with (S (S (n + (2 + String.length rest)))) by lia.
  rewrite !find_shift. rewrite find_in_name by apply Hname.
  cbn [Nat.add]. rewrite !find_skip_first by done. lia.
Qed.

Lemma header_rest_kg_end : find "]" line 2 (String.length line) = S (S n).
Proof using Hname.
  rewrite header_rest_length, header_rest_shape.
  replace (n + 4 + String.length rest)
    with (S (S (n + (2 + String.length rest)))) by lia.
  rewrite !find_shift. rewrite find_in_name by apply Hname.
  cbn. lia.
Qed.

Lemma header_rest_closing : deref line (S (S (S n))) = "]"%char.
Proof using Type.
  rewrite header_rest_shape, !deref_shift.
  replace (S n) with (n + 1) by lia. by rewrite deref_append_r.
Qed.

Lemma parse_line_header_rest (regex : bool) (root c : ptr) (st : state) :
  line_ st = line →
  Parser.parse_line regex root c st
  = if occurs "[" rest
    then Throw (parse_exception "Cannot have [ in keytable name"
                                (Some (S (line_number_ st))))
    else Parser.table_array_walk n 2 (S (S n)) root (counted st).
Proof using Hname.
  intros Hline.
  rewrite (header_dispatch regex root c st
             (String "[" (name +:+ String "]" (String "]" rest)))
             (n + 2 + String.length rest));
    [| by rewrite Hline, header_rest_shape |]; cycle 1.
  { cbn [String.length]. rewrite length_append. simpl. lia. }
  change (deref (String "[" (name +:+ String "]" (String "]" rest))) 0)
    with "["%char. cbn [Ascii.eqb Bool.eqb andb].
  unfold Parser.parse_table_array. rewrite bind_gets.
  cbn [line_ counted]. rewrite Hline. cbv zeta.
  replace (S (S (n + 2 + String.length rest)))
    with (String.length line) by (rewrite header_rest_length; lia).
  rewrite header_rest_bracket, header_rest_kg_end, header_rest_closing.
  rewrite header_rest_length.
  destruct (occurs "[" rest) eqn:Hrest.
  - apply find_present in Hrest.
    replace (n + 4 + find "[" rest 0 (String.length rest)
             =? n + 4 + String.length rest) with false
      by (symmetry; apply Nat.eqb_neq; lia).
    done.
  - rewrite (find_absent _ _ Hrest), Nat.eqb_refl. cbn [negb].
    replace (S (S n) =? n + 4 + String.length rest) with false
      by (symmetry; apply Nat.eqb_neq; lia).
    pose proof (plain_length name Hname).
    replace (2 =? S (S n)) with false by (symmetry; apply Nat.eqb_neq; lia).
    cbn [Ascii.eqb Bool.eqb andb negb].
    by replace (S (S n) - 2) with n by lia.
Qed.

End array_header_rest.

(** X20: what follows the header of a table-array on its line. When the
    text after [[[name]]] holds a [[] (in a comment as well), the line is
    refused because of a bracket in the name; otherwise the text is not
    looked at: the line does what the header alone does, and no exception
    speaks of trailing characters. *)
Theorem table_array_header_rest (regex : bool) (root curr : ptr) (st : state)
    (name rest : string) :
  plain name →
  Parser.parse_line regex root curr (set_line (array_header name +:+ rest) st)
  = if occurs "[" rest
    then Throw (parse_exception "Cannot have [ in keytable name"
                                (Some (S (line_number_ st))))
    else relined (array_header name +:+ rest)
           (Parser.parse_line regex root curr
              (set_line (array_header name) st)).
Proof.
  intros Hname.
  rewrite (parse_line_header_rest name rest Hname regex root curr
             (set_line (array_header name +:+ rest) st) eq_refl).
  destruct (occurs "[" rest); [done |].
  pose proof (parse_line_header_rest name EmptyString Hname regex root curr
                (set_line (array_header name) st)) as Hshort.
  rewrite append_empty in Hshort. rewrite (Hshort eq_refl). cbn [occurs].
  apply (table_array_walk_line (array_header name) rest
           (S (S (String.length name)))
           ltac:(rewrite array_header_length; lia)
           (String.length name) 2 root
           (counted (set_line (array_header name) st)) eq_refl).
Qed.

Lemma table_array_header_rest_witness :
  Parser.parse_line true 0 0 (reading_line "[[a]] and more" [])
  = relined "[[a]] and more"
      (Parser.parse_line true 0 0 (reading_line "[[a]]" [])).
Proof.
  apply (table_array_header_rest true 0 0 (reading_line "" []) "a"
           " and more").
  by repeat split.
Defined.
